(** * ci-operator: the step graph engine of [cmd/ci-operator/main.go]

    A shallow embedding of the parts of [main.go] that derive the target
    namespace from the build inputs ([inputHash], [resolveInputs]), print the
    execution order ([topologicalSort], [printExecutionOrder]), prepare the
    namespace ([initializeNamespace]) and drive a run ([Run], [writeJUnit]),
    followed by the properties established about them.

    Conventions.  A Go [string] is a sequence of bytes and is modelled as a
    [string] (a list of 8-bit [ascii]); a [byte] or a [uint32] is a [Z] with
    its wrap-around written out; a slice is a [list]; the [map[api.Step]struct{}]
    of [topologicalSort] is a [gset]; a non-nil Go [error] is its message,
    with the status reason when the cluster API returned it. *)

From Stdlib Require Import ZArith List String Ascii Lia Bool.
From stdpp Require Import base decidable countable gmap strings list pretty.

Import ListNotations.

(** ** crypto/sha256 *)

Module Sha256.
Local Open Scope Z_scope.

(** [uint32] arithmetic: every operation is reduced modulo 2^32. *)
Definition u32 (x : Z) : Z := Z.land x 0xFFFFFFFF.
Definition add32 (x y : Z) : Z := u32 (x + y).
Definition shl32 (x n : Z) : Z := u32 (Z.shiftl x n).
Definition not32 (x : Z) : Z := Z.lxor x 0xFFFFFFFF.
(** [bits.RotateLeft32(x, -n)] *)
Definition rotr32 (x n : Z) : Z := Z.lor (Z.shiftr x n) (shl32 x (32 - n)).

Definition _K : list Z :=
  [ 0x428A2F98; 0x71374491; 0xB5C0FBCF; 0xE9B5DBA5;
    0x3956C25B; 0x59F111F1; 0x923F82A4; 0xAB1C5ED5;
    0xD807AA98; 0x12835B01; 0x243185BE; 0x550C7DC3;
    0x72BE5D74; 0x80DEB1FE; 0x9BDC06A7; 0xC19BF174;
    0xE49B69C1; 0xEFBE4786; 0x0FC19DC6; 0x240CA1CC;
    0x2DE92C6F; 0x4A7484AA; 0x5CB0A9DC; 0x76F988DA;
    0x983E5152; 0xA831C66D; 0xB00327C8; 0xBF597FC7;
    0xC6E00BF3; 0xD5A79147; 0x06CA6351; 0x14292967;
    0x27B70A85; 0x2E1B2138; 0x4D2C6DFC; 0x53380D13;
    0x650A7354; 0x766A0ABB; 0x81C2C92E; 0x92722C85;
    0xA2BFE8A1; 0xA81A664B; 0xC24B8B70; 0xC76C51A3;
    0xD192E819; 0xD6990624; 0xF40E3585; 0x106AA070;
    0x19A4C116; 0x1E376C08; 0x2748774C; 0x34B0BCB5;
    0x391C0CB3; 0x4ED8AA4A; 0x5B9CCA4F; 0x682E6FF3;
    0x748F82EE; 0x78A5636F; 0x84C87814; 0x8CC70208;
    0x90BEFFFA; 0xA4506CEB; 0xBEF9A3F7; 0xC67178F2 ].

(** The chaining value [dig.h], eight [uint32]. *)
Record words8 : Type := W8
  { h0 : Z; h1 : Z; h2 : Z; h3 : Z; h4 : Z; h5 : Z; h6 : Z; h7 : Z }.

Definition init : words8 :=
  W8 0x6A09E667 0xBB67AE85 0x3C6EF372 0xA54FF53A
     0x510E527F 0x9B05688C 0x1F83D9AB 0x5BE0CD19.

(** [w[i] = uint32(p[j])<<24 | uint32(p[j+1])<<16 | uint32(p[j+2])<<8 | uint32(p[j+3])] *)
Fixpoint be_words (n : nat) (p : list Z) : list Z :=
  match n with
  | O => []
  | S n' =>
      Z.lor (Z.lor (Z.lor (Z.shiftl (nth 0 p 0) 24) (Z.shiftl (nth 1 p 0) 16))
                   (Z.shiftl (nth 2 p 0) 8))
            (nth 3 p 0)
      :: be_words n' (skipn 4 p)
  end.

(** The message schedule: [w[i] = t1 + w[i-7] + t2 + w[i-16]] for [16 <= i < 64];
    [w] holds the words computed so far and [i] is its length. *)
Fixpoint schedule (n : nat) (i : nat) (w : list Z) : list Z :=
  match n with
  | O => w
  | S n' =>
      let v1 := nth (i - 2) w 0 in
      let t1 := Z.lxor (Z.lxor (rotr32 v1 17) (rotr32 v1 19)) (Z.shiftr v1 10) in
      let v2 := nth (i - 15) w 0 in
      let t2 := Z.lxor (Z.lxor (rotr32 v2 7) (rotr32 v2 18)) (Z.shiftr v2 3) in
      schedule n' (S i)
        (w ++ [add32 (add32 (add32 t1 (nth (i - 7) w 0)) t2) (nth (i - 16) w 0)])
  end.

(** One of the 64 rounds on the working variables [a .. h]. *)
Definition round (s : words8) (kw : Z * Z) : words8 :=
  let '(W8 a b c d e f g h) := s in
  let t1 :=
    add32 (add32 (add32 (add32 h
      (Z.lxor (Z.lxor (rotr32 e 6) (rotr32 e 11)) (rotr32 e 25)))
      (Z.lxor (Z.land e f) (Z.land (not32 e) g)))
      (fst kw)) (snd kw) in
  let t2 :=
    add32 (Z.lxor (Z.lxor (rotr32 a 2) (rotr32 a 13)) (rotr32 a 22))
          (Z.lxor (Z.lxor (Z.land a b) (Z.land a c)) (Z.land b c)) in
  W8 (add32 t1 t2) a b c (add32 d t1) e f g.

(** [blockGeneric] on one 64-byte chunk. *)
Definition block (dig : words8) (p : list Z) : words8 :=
  let w := schedule 48 16 (be_words 16 p) in
  let r := fold_left round (combine _K w) dig in
  W8 (add32 (h0 dig) (h0 r)) (add32 (h1 dig) (h1 r))
     (add32 (h2 dig) (h2 r)) (add32 (h3 dig) (h3 r))
     (add32 (h4 dig) (h4 r)) (add32 (h5 dig) (h5 r))
     (add32 (h6 dig) (h6 r)) (add32 (h7 dig) (h7 r)).

Fixpoint blocks (n : nat) (dig : words8) (p : list Z) : words8 :=
  match n with
  | O => dig
  | S n' => blocks n' (block dig (firstn 64 p)) (skipn 64 p)
  end.

(** Big-endian bytes of the low [8 * n] bits of [x]. *)
Fixpoint be_bytes (n : nat) (x : Z) : list Z :=
  match n with
  | O => []
  | S n' => Z.land (Z.shiftr x (8 * Z.of_nat n')) 0xFF :: be_bytes n' x
  end.

(** [checkSum]: the message is followed by [0x80], by zeroes up to 56 bytes
    modulo 64, and by its length in bits as a [uint64]. *)
Definition padding (len : Z) : list Z :=
  0x80 :: repeat 0 (Z.to_nat ((55 - len) mod 64)) ++ be_bytes 8 (Z.shiftl len 3).

(** The state behind [hash.Hash] as this program uses it: the bytes written
    so far.  [Write] appends, [Sum(nil)] returns the digest of all of them. *)
Definition digest : Type := list Z.

Definition New : digest := [].

Definition Write (d : digest) (p : list Z) : digest := d ++ p.

Definition Sum (d : digest) : list Z :=
  let p := d ++ padding (Z.of_nat (length d)) in
  let '(W8 a b c d e f g h) := blocks (length p / 64) init p in
  be_bytes 4 a ++ be_bytes 4 b ++ be_bytes 4 c ++ be_bytes 4 d ++
  be_bytes 4 e ++ be_bytes 4 f ++ be_bytes 4 g ++ be_bytes 4 h.
End Sha256.

(** ** encoding/base32 *)

Module Base32.
Local Open Scope Z_scope.

(** [byte] shifts wrap to 8 bits. *)
Definition shl8 (x n : Z) : Z := Z.land (Z.shiftl x n) 0xFF.

(** The eight 5-bit groups of a quantum of at most five bytes; a byte that
    is absent contributes no bit. *)
Definition unpack (src : list Z) : list Z :=
  let s (i : nat) := nth i src 0 in
  [ Z.shiftr (s 0%nat) 3;
    Z.lor (Z.land (Z.shiftr (s 1%nat) 6) 0x1F) (Z.land (shl8 (s 0%nat) 2) 0x1F);
    Z.land (Z.shiftr (s 1%nat) 1) 0x1F;
    Z.lor (Z.land (Z.shiftr (s 2%nat) 4) 0x1F) (Z.land (shl8 (s 1%nat) 4) 0x1F);
    Z.lor (Z.shiftr (s 3%nat) 7) (Z.land (shl8 (s 2%nat) 1) 0x1F);
    Z.land (Z.shiftr (s 3%nat) 2) 0x1F;
    Z.lor (Z.shiftr (s 4%nat) 5) (Z.land (shl8 (s 3%nat) 3) 0x1F);
    Z.land (s 4%nat) 0x1F ].

(** [enc.encode[b & 31]] *)
Definition encodeChar (encoder : string) (b : Z) : ascii :=
  nth (Z.to_nat (Z.land b 31)) (list_ascii_of_string encoder) "000"%char.

(** [EncodedLen] without padding. *)
Definition EncodedLen (n : nat) : nat := ((n * 8 + 4) / 5)%nat.

(** The loop of [Encode] for an encoding made [WithPadding(NoPadding)]:
    quanta of five bytes give eight characters, and the last, shorter one
    gives what is left of the [EncodedLen] characters. *)
Fixpoint encodeLoop (fuel : nat) (encoder : string) (src : list Z) : list ascii :=
  match fuel, src with
  | O, _ | _, [] => []
  | S fuel', _ =>
      firstn (EncodedLen (length src)) (map (encodeChar encoder) (unpack (firstn 5 src)))
      ++ encodeLoop fuel' encoder (skipn 5 src)
  end.

Definition EncodeToString (encoder : string) (src : list Z) : string :=
  string_of_list_ascii (encodeLoop (length src) encoder src).
End Base32.

(** ** The workspace identifier *)

(** [[]byte(s)] *)
Definition bytes_of_string (s : string) : list Z :=
  map (fun c => Z.of_N (N_of_ascii c)) (list_ascii_of_string s).

(** [api.InputDefinition] *)
Definition InputDefinition : Type := list string.

(** [base32.NewEncoding("bcdfghijklmnpqrstvwxyz0123456789").WithPadding(base32.NoPadding)] *)
Definition oneWayNameEncoding : string := "bcdfghijklmnpqrstvwxyz0123456789".

(** The [for _, s := range inputs { hash.Write([]byte(s)) }] loop. *)
Definition writeInputs (hash : Sha256.digest) (inputs : InputDefinition) : Sha256.digest :=
  fold_left (fun h s => Sha256.Write h (bytes_of_string s)) inputs hash.

(** [inputHash] *)
Definition inputHash (inputs : InputDefinition) : string :=
  let hash := writeInputs Sha256.New inputs in
  Base32.EncodeToString oneWayNameEncoding (firstn 5 (Sha256.Sum hash)).

(** ** strings *)

(** [strings.Contains(s, substr)] *)
Fixpoint Contains (s substr : string) : bool :=
  String.prefix substr s ||
  match s with
  | EmptyString => false
  | String _ s' => Contains s' substr
  end.

(** The scan of [strings.Replace(s, old, new, -1)]: [skip] counts the bytes
    of the occurrence of [old] found last that are still to be passed. *)
Fixpoint replaceFrom (skip : nat) (s old new : string) : string :=
  match s with
  | EmptyString => EmptyString
  | String c s' =>
      match skip with
      | S k => replaceFrom k s' old new
      | O =>
          if String.prefix old s
          then new +:+ replaceFrom (String.length old - 1) s' old new
          else String c (replaceFrom 0 s' old new)
      end
  end.

(** [strings.Replace(s, old, new, -1)] for a non-empty [old]: the occurrences
    of [old] are found from the left and do not overlap.  (An empty [old]
    matches between runes; the program never passes one, and that case is
    left as the identity here.) *)
Definition Replace (s old new : string) : string :=
  match old with
  | EmptyString => s
  | _ => replaceFrom 0 s old new
  end.

(** [strings.Join(a, sep)] *)
Fixpoint Join (a : list string) (sep : string) : string :=
  match a with
  | [] => EmptyString
  | [x] => x
  | x :: rest => x +:+ sep +:+ Join rest sep
  end.

(** ** Errors and outcomes *)

(** The [metav1.StatusReason] values that [kerrors.IsAlreadyExists],
    [kerrors.IsNotFound] and [kerrors.IsForbidden] look for. *)
Inductive StatusReason : Type :=
| StatusReasonAlreadyExists
| StatusReasonNotFound
| StatusReasonForbidden
| StatusReasonOther.

(** A non-nil [error]: its text, and the status reason when it comes from the
    cluster API. *)
Record error : Type := Error
  { err_reason : option StatusReason;
    err_msg : string }.

(** [fmt.Errorf] and [errors.New] *)
Definition Errorf (msg : string) : error := Error None msg.

Definition IsAlreadyExists (err : option error) : bool :=
  match err with
  | Some (Error (Some StatusReasonAlreadyExists) _) => true
  | _ => false
  end.

Definition IsNotFound (err : option error) : bool :=
  match err with
  | Some (Error (Some StatusReasonNotFound) _) => true
  | _ => false
  end.

Definition IsForbidden (err : option error) : bool :=
  match err with
  | Some (Error (Some StatusReasonForbidden) _) => true
  | _ => false
  end.

(** How a call ends: it returns (with a nil error and a value, or with a
    non-nil error), it panics, or it is still looping when the budget of loop
    iterations given to the model is used up. *)
Inductive outcome (A : Type) : Type :=
| Ok (a : A)
| Err (e : error)
| Panic (msg : string)
| Spin.

Arguments Ok {A} a.
Arguments Err {A} e.
Arguments Panic {A} msg.
Arguments Spin {A}.

(** ** The job and the world *)

(** [steps.Pull], [steps.Refs] and [steps.JobSpec], as far as this file reads
    and writes them. *)
Record Pull : Type := { Number : Z; Author : string; SHA : string }.

Record Refs : Type :=
  { Org : string; Repo : string; BaseRef : string; BaseSHA : string;
    Pulls : list Pull }.

(** [meta.OwnerReference] *)
Record OwnerReference : Type :=
  { APIVersion : string; Kind : string; OwnerName : string; UID : string;
    Controller : option bool }.

Record JobSpec : Type := mkJobSpec
  { Job : string;
    JobRefs : Refs;
    job_namespace : string;
    job_owner : option OwnerReference }.

(** What a call can touch: the environment outside the process (cluster and
    file system, of type [Env]), the one [*steps.JobSpec] that the options and
    the steps share, and the lines sent to [log]. *)
Record world (Env : Type) : Type := World
  { env : Env;
    job : JobSpec;
    logged : list string }.

Arguments World {Env} env job logged.
Arguments env {Env} w.
Arguments job {Env} w.
Arguments logged {Env} w.

(** A call in a world. *)
Definition M (Env A : Type) : Type := world Env -> outcome A * world Env.

Definition ret {Env A} (a : A) : M Env A := fun w => (Ok a, w).

Definition bind {Env A B} (m : M Env A) (k : A -> M Env B) : M Env B :=
  fun w =>
    match m w with
    | (Ok a, w') => k a w'
    | (Err e, w') => (Err e, w')
    | (Panic msg, w') => (Panic msg, w')
    | (Spin, w') => (Spin, w')
    end.

(** [return err] with a non-nil [err] *)
Definition fail {Env A} (e : error) : M Env A := fun w => (Err e, w).

Definition panic {Env A} (msg : string) : M Env A := fun w => (Panic msg, w).

Definition spin {Env A} : M Env A := fun w => (Spin, w).

(** [log.Printf] and [log.Println] *)
Definition logf {Env} (line : string) : M Env unit :=
  fun w => (Ok tt, World (env w) (job w) (logged w ++ [line])).

(** A call of a collaborator that acts on the environment only. *)
Definition inEnv {Env A} (f : Env -> A * Env) : M Env A :=
  fun w => let '(a, e) := f (env w) in (Ok a, World e (job w) (logged w)).

Definition getJob {Env} : M Env JobSpec := fun w => (Ok (job w), w).

(** [JobSpec.SetNamespace] *)
Definition SetNamespace {Env} (ns : string) : M Env unit :=
  fun w =>
    (Ok tt, World (env w)
               (mkJobSpec (Job (job w)) (JobRefs (job w)) ns (job_owner (job w)))
               (logged w)).

(** [JobSpec.SetOwner] *)
Definition SetOwner {Env} (owner : OwnerReference) : M Env unit :=
  fun w =>
    (Ok tt, World (env w)
               (mkJobSpec (Job (job w)) (JobRefs (job w)) (job_namespace (job w)) (Some owner))
               (logged w)).

Declare Scope go_scope.
Delimit Scope go_scope with go.
Notation "x <- m ;; k" := (bind m (fun x => k))
  (at level 100, m at next level, right associativity) : go_scope.
Notation "m ;; k" := (bind m (fun _ => k))
  (at level 100, right associativity) : go_scope.
Open Scope go_scope.

(** ** The collaborators *)

(** The types this file takes from its collaborators as they are:
    [api.Step] and [api.StepLink] (compared as Go compares them, by value of
    the interface), [api.ReleaseBuildConfiguration], [templateapi.Template],
    [rest.Config], the content of a [junit.TestSuite] next to its name, and
    the environment outside the process. *)
Class Types : Type :=
  { Step : Type;
    StepLink : Type;
    Config : Type;
    Template : Type;
    RestConfig : Type;
    SuiteContent : Type;
    Env : Type;
    Step_eq_dec :: EqDecision Step;
    Step_countable :: Countable Step;
    StepLink_eq_dec :: EqDecision StepLink }.

(** [api.StepNode]: a step and the nodes that depend on it.  The graph is
    acyclic, so a node is given with its children under it; a node that has
    two parents is found under both. *)
#[local] Unset Elimination Schemes.
Inductive StepNode `{Types} : Type :=
  mkStepNode { nodeStep : Step; Children : list StepNode }.
#[local] Set Elimination Schemes.

Arguments mkStepNode {_} nodeStep Children.
Arguments nodeStep {_} _.
Arguments Children {_} _.

(** The [api.Step] interface, and what [%T] and [%#v] print for a step and for
    a link. *)
Class StepAPI `{Types} : Type :=
  { Name : Step -> string;
    Requires : Step -> list StepLink;
    Creates : Step -> list StepLink;
    (** [Inputs(ctx, dry) (api.InputDefinition, error)] *)
    Inputs : Step -> bool -> M Env InputDefinition;
    (** [Run(ctx, dry) error] *)
    StepRun : Step -> bool -> M Env unit;
    TypeName : Step -> string;
    GoString : StepLink -> string }.

(** [junit.TestSuite] and [junit.TestSuites] *)
Record TestSuite `{Types} : Type := mkTestSuite
  { SuiteName : string; Content : SuiteContent }.

Record TestSuites `{Types} : Type := mkTestSuites
  { Suites : list TestSuite }.

Arguments mkTestSuite {_} SuiteName Content.
Arguments mkTestSuites {_} Suites.

(** [coreapi.Secret].  [Data] is a Go map: [None] is the nil map, which can
    be read and ranged over as an empty one, and not be written to. *)
Record Secret : Type := mkSecret
  { SecretName : string; Data : option (gmap string (list Z)) }.

(** [projectapi.ProjectRequest], [projectapi.Project], [imageapi.ImageStream] *)
Record ProjectRequest : Type :=
  { RequestName : string; DisplayName : string; Description : string }.

Record Project : Type := { Phase : string }.

Record ImageStream : Type :=
  { StreamNamespace : string; StreamName : string; LookupLocal : bool; StreamUID : string }.

(** [coreapi.EnvVar]: a value, or the path of a field of the pod. *)
Inductive EnvVar : Type :=
| EnvValue (name value : string)
| EnvFieldRef (name fieldPath : string).

(** The pod of [createNamespaceCleanupPod]. *)
Record Pod : Type :=
  { PodName : string;
    ActiveDeadlineSeconds : Z;
    RestartPolicy : string;
    TerminationGracePeriodSeconds : Z;
    ServiceAccountName : string;
    ContainerName : string;
    Image : string;
    ContainerEnv : list EnvVar;
    Command : list string;
    Args : list string }.

(** [options], with the fields that [Run] and the functions under it read or
    write; the fields that only [bindOptions] and [Complete] use (paths, flags
    of the command line) are left out, and [jobSpec] is the [job] of the
    world. *)
Record options `{Types} : Type := mkOptions
  { targets : list string;
    promote : bool;
    dry : bool;
    writeParams : string;
    artifactDir : string;
    namespace : string;
    idleCleanupDuration : Z;
    opt_inputHash : string;
    secrets : list Secret;
    templates : list Template;
    configSpec : Config;
    clusterConfig : RestConfig }.

Arguments mkOptions {_} _ _ _ _ _ _ _ _ _ _ _ _.

(** Everything else that is called and not defined in [main.go]. *)
Class Platform `{Types} : Type :=
  { (** [json.Marshal(o.configSpec)] *)
    json_Marshal : Config -> string * option error;
    (** [xml.MarshalIndent] of the suites, indented by two spaces *)
    xml_MarshalIndent : TestSuites -> list Z * option error;
    (** [filepath.Join] *)
    filepath_Join : string -> string -> string;
    (** [ioutil.WriteFile(path, out, 0640)] *)
    WriteFile : string -> list Z -> Env -> option error * Env;
    (** [time.Sleep], in nanoseconds *)
    Sleep : Z -> Env -> unit * Env;
    (** the text of [time.Now().Sub(start).Truncate(time.Second)] when [Run]
        returns *)
    ranFor : Env -> string;
    (** the text of a [time.Duration] under [%s], and of
        [int(d.Seconds())] under [%d] *)
    DurationString : Z -> string;
    DurationSeconds : Z -> string;
    (** the shell script that the cleanup pod runs *)
    cleanupScript : string;
    (** [steps.FromConfig(configSpec, jobSpec, templates, writeParams,
        artifactDir, promote, clusterConfig, targets)] *)
    FromConfig : Config -> JobSpec -> list Template -> string -> string -> bool ->
                 RestConfig -> list string -> Env ->
                 ((list Step * list Step) * option error) * Env;
    (** [steps.Run(ctx, nodes, dry)] *)
    stepsRun : list StepNode -> bool -> M Env (option TestSuites * option error);
    (** the links that the graph builder takes as given from outside *)
    IsExternal : StepLink -> bool;
    (** the four [NewForConfig] *)
    versioned_NewForConfig : RestConfig -> option error;
    imageclientset_NewForConfig : RestConfig -> option error;
    coreclientset_NewForConfig : RestConfig -> option error;
    rbacclientset_NewForConfig : RestConfig -> option error;
    (** the cluster calls *)
    ProjectRequests_Create : ProjectRequest -> Env -> (Project * option error) * Env;
    Projects_Get : string -> Env -> (Project * option error) * Env;
    ImageStreams_Create : string -> ImageStream -> Env -> (option ImageStream * option error) * Env;
    ImageStreams_Get : string -> string -> Env -> (option ImageStream * option error) * Env;
    Secrets_Create : string -> Secret -> Env -> option error * Env;
    Secrets_Get : string -> string -> Env -> (Secret * option error) * Env;
    Secrets_Update : string -> Secret -> Env -> option error * Env;
    ServiceAccounts_Create : string -> string -> Env -> option error * Env;
    RoleBindings_Create : string -> string -> Env -> option error * Env;
    Pods_Create : string -> Pod -> Env -> option error * Env }.

(** [steps.PipelineImageStream] and [coreapi.NamespaceTerminating] *)
Definition PipelineImageStream : string := "pipeline".
Definition NamespaceTerminating : string := "Terminating".

(** ** pkg/api: links and graphs *)

Section Api.
Context `{StepAPI}.

(** Modelled from the spec: [api.HasAllLinks], which is not in [main.go].
    It holds when every required link is equal to some satisfied link. *)
Definition HasAllLinks (required satisfied : list StepLink) : bool :=
  forallb (fun link => bool_decide (link ∈ satisfied)) required.

(** Modelled from the spec: the edge of the graph builder, which is not in
    [main.go].  [dependsOn s t]: [s] requires a link that [t] creates. *)
Definition dependsOn (s t : Step) : bool :=
  existsb (fun link => bool_decide (link ∈ Creates t)) (Requires s).

(** Modelled from the spec: the pruning of [api.BuildPartialGraph], which is
    not in [main.go].  The steps named by the targets, and with them, again
    and again, the steps that create a link one of the kept steps requires;
    what is kept stays in the order of the world. *)
Definition closureStep (world : list Step) (kept : list Step) : list Step :=
  filter (fun t => bool_decide (t ∈ kept) || existsb (fun s => dependsOn s t) kept) world.

(** Modelled from the spec: [closureStep], [n] times. *)
Fixpoint closureIter (n : nat) (world : list Step) (kept : list Step) : list Step :=
  match n with
  | O => kept
  | S n' => closureIter n' world (closureStep world kept)
  end.

(** Modelled from the spec: the transitive ancestor closure of the steps that
    the targets name; no chain of a world is longer than the world. *)
Definition ancestorClosure (world : list Step) (names : list string) : list Step :=
  closureIter (length world) world
    (filter (fun s => bool_decide (Name s ∈ names)) world).

(** Modelled from the spec: the wiring of [api.BuildGraph], which is not in
    [main.go].  The children of a step are the steps of the world that
    require one of its links, in the order of the world; the budget is the
    number of steps, which no chain of an acyclic world exceeds. *)
Fixpoint buildNode (fuel : nat) (world : list Step) (s : Step) : StepNode :=
  match fuel with
  | O => mkStepNode s []
  | S fuel' =>
      mkStepNode s (map (buildNode fuel' world)
                        (filter (fun c => dependsOn c s) world))
  end.

(** Modelled from the spec: the roots of [api.BuildGraph], the steps that
    depend on no step of the world, each with the nodes under it. *)
Definition BuildGraph (world : list Step) : list StepNode :=
  map (buildNode (length world) world)
      (filter (fun s => negb (existsb (fun t => dependsOn s t) world)) world).

(** The nodes under a node, itself first, and under a list of roots. *)
Fixpoint subNodes (n : StepNode) : list StepNode :=
  n :: flat_map subNodes (Children n).

Definition graphNodes (roots : list StepNode) : list StepNode :=
  flat_map subNodes roots.
End Api.

Section BuildPartial.
Context `{StepAPI} `{!Platform}.

(** Modelled from the spec: the checks of [api.BuildPartialGraph], which is
    not in [main.go]: two steps that create one link, a required link that
    nothing creates and that is not given from outside, a target that names
    no step; then the graph of the world, or of the closure of the targets
    when there are targets. *)
Definition BuildPartialGraph (steps : list Step) (names : list string) : M Env (list StepNode) :=
  if existsb (fun s => existsb (fun link =>
        1 <? length (filter (fun t => bool_decide (link ∈ Creates t)) steps)) (Creates s)) steps
  then fail (Errorf "configuration conflict")
  else if existsb (fun s => existsb (fun link =>
        negb (existsb (fun t => bool_decide (link ∈ Creates t)) steps) && negb (IsExternal link))
        (Requires s)) steps
  then fail (Errorf "unsatisfied dependency")
  else if existsb (fun name => negb (existsb (fun s => bool_decide (Name s = name)) steps)) names
  then fail (Errorf "unknown target")
  else match names with
       | [] => ret (BuildGraph steps)
       | _ => ret (BuildGraph (ancestorClosure steps names))
       end.
End BuildPartial.

(** ** cmd/ci-operator/main.go *)

Definition newline : string := String (ascii_of_nat 10) EmptyString.

(** The text of an error under [%v]. *)
Definition errText (err : option error) : string :=
  match err with
  | Some e => err_msg e
  | None => "<nil>"
  end.

(** [if err := f(); err != nil]: the error that [f] returned, as a value. *)
Definition errOf {Env A} (m : M Env A) : M Env (option error) :=
  fun w =>
    match m w with
    | (Ok _, w') => (Ok None, w')
    | (Err e, w') => (Ok (Some e), w')
    | (Panic msg, w') => (Panic msg, w')
    | (Spin, w') => (Spin, w')
    end.

(** [defer f()]: [f] runs when the function returns, however it ends. *)
Definition defer {Env A} (m : M Env A) (f : M Env unit) : M Env A :=
  fun w => let '(r, w') := m w in (r, snd (f w')).

Section Main.
Context `{StepAPI} `{!Platform}.

Local Abbreviation M := (M Env).

(** [resolveInputs], its loop: the definitions of the steps, one after the
    other, behind [inputs]. *)
Fixpoint stepInputs (steps : list Step) (dry : bool) (inputs : InputDefinition)
  : M InputDefinition :=
  match steps with
  | [] => ret inputs
  | step :: steps' =>
      definition <- Inputs step dry ;;
      stepInputs steps' dry (inputs ++ definition)
  end.

(** [resolveInputs] up to [inputs = append(inputs, string(configSpec))]:
    the input definition that is hashed. *)
Definition inputDefinition (o : options) (steps : list Step) : M InputDefinition :=
  inputs <- stepInputs steps (dry o) [] ;;
  match json_Marshal (configSpec o) with
  | (_, Some err) => panic (err_msg err)
  | (configSpec, None) => ret (inputs ++ [configSpec])
  end.

(** [resolveInputs].  The options are returned as the call leaves them. *)
Definition resolveInputs (o : options) (steps : list Step) : M options :=
  inputs <- inputDefinition o steps ;;
  let hash := inputHash inputs in
  let namespace0 :=
    if (String.length (namespace o) =? 0)%nat then "ci-op-{id}" else namespace o in
  let namespace1 := Replace namespace0 "{id}" hash in
  SetNamespace namespace1 ;;
  ret (mkOptions (targets o) (promote o) (dry o) (writeParams o) (artifactDir o)
         namespace1 (idleCleanupDuration o) hash (secrets o) (templates o)
         (configSpec o) (clusterConfig o)).

(** [jobDescription] *)
Definition jobDescription (job : JobSpec) (config : Config) : string :=
  let refs := JobRefs job in
  let links :=
    map (fun pull => "https://github.com/" +:+ Org refs +:+ "/" +:+ Repo refs +:+
                     "/pull/" +:+ pretty (Number pull) +:+ " - " +:+ Author pull)
        (Pulls refs) in
  if (0 <? length links)%nat
  then Job job +:+ " on https://github.com/" +:+ Org refs +:+ "/" +:+ Repo refs +:+
       newline +:+ newline +:+ Join links newline
  else Job job +:+ " on https://github.com/" +:+ Org refs +:+ "/" +:+ Repo refs +:+
       " ref=" +:+ BaseRef refs +:+ " commit=" +:+ BaseSHA refs.

(** [if err != nil && !kerrors.IsAlreadyExists(err) { return fmt.Errorf(...) }] *)
Definition unlessAlreadyExists (err : option error) (what : string) : M unit :=
  match err with
  | Some _ =>
      if negb (IsAlreadyExists err)
      then fail (Errorf (what +:+ ": " +:+ errText err))
      else ret tt
  | None => ret tt
  end.

Definition cleanupPod (o : options) : Pod :=
  {| PodName := "cleanup-when-idle";
     ActiveDeadlineSeconds := 12 * 3600;
     RestartPolicy := "Never";
     TerminationGracePeriodSeconds := 30;
     ServiceAccountName := "cleanup";
     ContainerName := "cleanup";
     Image := "openshift/origin-cli:latest";
     ContainerEnv :=
       [EnvFieldRef "NAMESPACE" "metadata.namespace";
      EnvValue "WAIT" (DurationSeconds (idleCleanupDuration o))];
     Command := ["/bin/bash"; "-c"];
     Args := [cleanupScript] |}.

(** [createNamespaceCleanupPod] *)
Definition createNamespaceCleanupPod (o : options) : M unit :=
  logf ("Namespace will be deleted after " +:+ DurationString (idleCleanupDuration o) +:+
        " of idle time") ;;
  match coreclientset_NewForConfig (clusterConfig o) with
  | Some err => fail (Errorf ("could not get image client for cluster config: " +:+ err_msg err))
  | None =>
  match rbacclientset_NewForConfig (clusterConfig o) with
  | Some err => fail (Errorf ("could not get image client for cluster config: " +:+ err_msg err))
  | None =>
      err <- inEnv (ServiceAccounts_Create (namespace o) "cleanup") ;;
      unlessAlreadyExists err "could not create service account for cleanup" ;;
      err <- inEnv (RoleBindings_Create (namespace o) "cleanup") ;;
      unlessAlreadyExists err "could not create role binding for cleanup" ;;
      err <- inEnv (Pods_Create (namespace o) (cleanupPod o)) ;;
      unlessAlreadyExists err "could not create pod for cleanup" ;;
      ret tt
  end
  end.

(** The [for { ... }] of [initializeNamespace] that requests the project.
    [continue] is the recursive call; [fuel] bounds the number of rounds. *)
Fixpoint requestProject (fuel : nat) (retries : Z) (o : options) : M unit :=
  match fuel with
  | O => spin
  | S fuel' =>
      let afterProject (project : Project) : M unit :=
        if String.eqb (Phase project) NamespaceTerminating
        then
          logf "Waiting for namespace to finish terminating before creating another" ;;
          inEnv (Sleep 3000000000) ;;
          requestProject fuel' retries o
        else ret tt in
      j <- getJob ;;
      r <- inEnv (ProjectRequests_Create
                    {| RequestName := namespace o;
                       DisplayName := namespace o +:+ " - " +:+ Job j;
                       Description := jobDescription j (configSpec o) |}) ;;
      let '(project, err) := r in
      match err with
      | None => afterProject project
      | Some _ =>
          if negb (IsAlreadyExists err)
          then fail (Errorf ("could not set up namespace for test: " +:+ errText err))
          else
            r <- inEnv (Projects_Get (namespace o)) ;;
            let '(project, err) := r in
            match err with
            | None => afterProject project
            | Some _ =>
                if IsNotFound err then requestProject fuel' retries o
                else if IsForbidden err && (0 <? retries)%Z
                then inEnv (Sleep 1000000000) ;; requestProject fuel' (retries - 1)%Z o
                else fail (Errorf ("cannot retrieve test namespace: " +:+ errText err))
            end
      end
  end.

(** [for k, v := range secret.Data { existing.Data[k] = v }]: the map of
    [existing] when the loop is over.  Nothing is written when there is
    nothing to range over; the first write to a nil map panics; the keys of
    [secret] take their values from it. *)
Definition mergeData (new old : option (gmap string (list Z)))
  : M (option (gmap string (list Z))) :=
  match new with
  | None => ret old
  | Some new =>
      if bool_decide (new = ∅) then ret old
      else match old with
           | None => panic "assignment to entry in nil map"
           | Some old => ret (Some (new ∪ old))
           end
  end.

(** The [for _, secret := range o.secrets] of [initializeNamespace]. *)
Fixpoint createSecrets (o : options) (l : list Secret) : M unit :=
  match l with
  | [] => ret tt
  | secret :: l' =>
      err <- inEnv (Secrets_Create (namespace o) secret) ;;
      if IsAlreadyExists err
      then
        r <- inEnv (Secrets_Get (namespace o) (SecretName secret)) ;;
        let '(existing, err) := r in
        match err with
        | Some e => fail e
        | None =>
            data <- mergeData (Data secret) (Data existing) ;;
            let existing := mkSecret (SecretName existing) data in
            err <- inEnv (Secrets_Update (namespace o) existing) ;;
            match err with
            | Some e => fail e
            | None => logf ("Updated secret " +:+ SecretName secret) ;; createSecrets o l'
            end
        end
      else
        match err with
        | Some e => fail e
        | None => logf ("Created secret " +:+ SecretName secret) ;; createSecrets o l'
        end
  end.

(** [initializeNamespace] *)
Definition initializeNamespace (fuel : nat) (o : options) : M unit :=
  if dry o then ret tt else
  match versioned_NewForConfig (clusterConfig o) with
  | Some err => fail (Errorf ("could not get project client for cluster config: " +:+ err_msg err))
  | None =>
      logf ("Creating namespace " +:+ namespace o) ;;
      requestProject fuel 5 o ;;
      (if (0 <? idleCleanupDuration o)%Z then createNamespaceCleanupPod o else ret tt) ;;
      match imageclientset_NewForConfig (clusterConfig o) with
      | Some err => fail (Errorf ("could not get image client for cluster config: " +:+ err_msg err))
      | None =>
          j <- getJob ;;
          r <- inEnv (ImageStreams_Create (job_namespace j)
                        {| StreamNamespace := job_namespace j;
                           StreamName := PipelineImageStream;
                           LookupLocal := true;
                           StreamUID := EmptyString |}) ;;
          let '(stream, err) := r in
          stream <- match err with
                | None => ret stream
                | Some _ =>
                    if negb (IsAlreadyExists err)
                    then fail (Errorf ("could not set up pipeline imagestream for test: " +:+
                                       errText err))
                    else
                      j <- getJob ;;
                      r <- inEnv (ImageStreams_Get (job_namespace j) PipelineImageStream) ;;
                      ret (fst r)
                end ;;
          match stream with
          | Some stream =>
              SetOwner {| APIVersion := "image.openshift.io/v1";
                          Kind := "ImageStream";
                          OwnerName := PipelineImageStream;
                          UID := StreamUID stream;
                          Controller := Some true |}
          | None => ret tt
          end ;;
          match coreclientset_NewForConfig (clusterConfig o) with
          | Some err => fail (Errorf ("could not get core client for cluster config: " +:+ err_msg err))
          | None => createSecrets o (secrets o)
          end
      end
  end.

(** [writeJUnit].  [suites.Suites[0]] panics when there is no suite. *)
Definition writeJUnit (o : options) (suites : option TestSuites) (name : string) : M unit :=
  if (String.length (artifactDir o) =? 0)%nat then ret tt else
  match suites with
  | None => ret tt
  | Some suites =>
      match Suites suites with
      | [] => panic "index out of range"
      | first :: others =>
          let suites := mkTestSuites (mkTestSuite name (Content first) :: others) in
          match xml_MarshalIndent suites with
          | (_, Some err) => fail err
          | (out, None) =>
              err <- inEnv (WriteFile (filepath_Join (artifactDir o) ("junit_" +:+ name +:+ ".xml")) out) ;;
              match err with
              | Some err => fail err
              | None => ret tt
              end
          end
      end
  end.
End Main.

Section Order.
Context `{StepAPI}.

Local Abbreviation M := (M Env).

(** [nodeNames] *)
Definition nodeNames (nodes : list StepNode) : list string :=
  map (fun node =>
         let name := Name (nodeStep node) in
         if (String.length name =? 0)%nat
         then "<" +:+ TypeName (nodeStep node) +:+ ">"
         else name)
      nodes.

(** [linkNames] *)
Definition linkNames (links : list StepLink) : list string :=
  map (fun link => "<" +:+ GoString link +:+ ">") links.

(** The variables of [topologicalSort] that live across the passes. *)
Record sortState : Type := mkSortState
  { sortedNodes : list StepNode;
    satisfied : list StepLink;
    seen : gset Step }.

(** With them, the variables of one pass of [for len(nodes) > 0]. *)
Record passState : Type := mkPassState
  { vars : sortState;
    changed : bool;
    waiting : list StepNode }.

(** The body of [for _, node := range nodes]. *)
Definition visit (p : passState) (node : StepNode) : passState :=
  let st := vars p in
  let waiting1 :=
    waiting p ++ filter (fun child => nodeStep child ∉ seen st) (Children node) in
  if bool_decide (nodeStep node ∈ seen st)
  then mkPassState st (changed p) waiting1
  else if negb (HasAllLinks (Requires (nodeStep node)) (satisfied st))
  then mkPassState st (changed p) (waiting1 ++ [node])
  else mkPassState
         (mkSortState (sortedNodes st ++ [node])
                      (satisfied st ++ Creates (nodeStep node))
                      ({[nodeStep node]} ∪ seen st))
         true waiting1.

Definition pass (nodes : list StepNode) (st : sortState) : passState :=
  fold_left visit nodes (mkPassState st false []).

(** How the loop of [topologicalSort] ends. *)
Inductive sortResult : Type :=
| Sorted (sortedNodes : list StepNode)
| Missing (waiting : list StepNode) (satisfied : list StepLink)
| Unfinished.

(** [for len(nodes) > 0 { ... nodes = waiting }], at most [fuel] passes. *)
Fixpoint sortLoop (fuel : nat) (nodes : list StepNode) (st : sortState) : sortResult :=
  match nodes with
  | [] => Sorted (sortedNodes st)
  | _ :: _ =>
      match fuel with
      | O => Unfinished
      | S fuel' =>
          let p := pass nodes st in
          if negb (changed p) && (0 <? length (waiting p))%nat
          then Missing (waiting p) (satisfied (vars p))
          else sortLoop fuel' (waiting p) (vars p)
      end
  end.

(** The lines logged for a node that waits, one for each link it requires. *)
Fixpoint logMissingLinks (node : StepNode) (links missing satisfied : list StepLink) : M unit :=
  match links with
  | [] => ret tt
  | link :: links' =>
      let missing :=
        if negb (HasAllLinks [link] satisfied) then missing ++ [link] else missing in
      logf ("step <" +:+ TypeName (nodeStep node) +:+ "> is missing dependencies: " +:+
            Join (linkNames missing) ", ") ;;
      logMissingLinks node links' missing satisfied
  end.

Fixpoint logMissing (waiting : list StepNode) (satisfied : list StepLink) : M unit :=
  match waiting with
  | [] => ret tt
  | node :: waiting' =>
      logMissingLinks node (Requires (nodeStep node)) [] satisfied ;;
      logMissing waiting' satisfied
  end.

(** The passes that [topologicalSort] is given: one more than there are
    nodes under the roots (the loop never needs more, see
    [sortOf_finishes]). *)
Definition sortBudget (nodes : list StepNode) : nat := S (length (graphNodes nodes)).

Definition sortOf (nodes : list StepNode) : sortResult :=
  sortLoop (sortBudget nodes) nodes (mkSortState [] [] ∅).

(** [topologicalSort] *)
Definition topologicalSort (nodes : list StepNode) : M (list StepNode) :=
  match sortOf nodes with
  | Sorted sortedNodes => ret sortedNodes
  | Missing waiting satisfied =>
      logMissing waiting satisfied ;;
      fail (Errorf "steps are missing dependencies")
  | Unfinished => spin
  end.

(** [printExecutionOrder] *)
Definition printExecutionOrder (nodes : list StepNode) : M unit :=
  ordered <- topologicalSort nodes ;;
  logf ("Running " +:+ Join (nodeNames ordered) ", ").
End Order.

Section Running.
Context `{StepAPI} `{!Platform}.

Local Abbreviation M := (M Env).

(** [for _, step := range postSteps] *)
Fixpoint runPostSteps (postSteps : list Step) (dry : bool) : M unit :=
  match postSteps with
  | [] => ret tt
  | step :: postSteps' => StepRun step dry ;; runPostSteps postSteps' dry
  end.

(** [Run] from [steps.Run] on: execute the graph, write the JUnit file,
    run the post steps. *)
Definition execute (o : options) (nodes : list StepNode) (postSteps : list Step) : M unit :=
  r <- stepsRun nodes (dry o) ;;
  let '(suites, err) := r in
  jerr <- errOf (writeJUnit o suites "operator") ;;
  match jerr with
  | Some _ => logf ("warning: Unable to write JUnit result: " +:+ errText jerr)
  | None => ret tt
  end ;;
  match err with
  | Some err => fail err
  | None => runPostSteps postSteps (dry o)
  end.

(** The function that [Run] hands to [interrupt.New(handler).Run].  The
    options that [resolveInputs] has written are returned next to the nil
    error. *)
Definition runSteps (fuel : nat) (o : options) (buildSteps postSteps : list Step) : M options :=
  o <- resolveInputs o buildSteps ;;
  nodes <- BuildPartialGraph buildSteps (targets o) ;;
  printExecutionOrder nodes ;;
  initializeNamespace fuel o ;;
  execute o nodes postSteps ;;
  ret o.

(** The same function from [api.BuildPartialGraph] on, with the options as
    [resolveInputs] left them. *)
Definition runResolved (fuel : nat) (o : options) (buildSteps postSteps : list Step)
  : M options :=
  nodes <- BuildPartialGraph buildSteps (targets o) ;;
  printExecutionOrder nodes ;;
  initializeNamespace fuel o ;;
  execute o nodes postSteps ;;
  ret o.

(** [Run].  Signals are not modelled: the handler never runs. *)
Definition Run (fuel : nat) (o : options) : M options :=
  defer
    (j <- getJob ;;
     r <- inEnv (FromConfig (configSpec o) j (templates o) (writeParams o) (artifactDir o)
                            (promote o) (clusterConfig o) (targets o)) ;;
     let '((buildSteps, postSteps), err) := r in
     match err with
     | Some _ => fail (Errorf ("failed to generate steps from config: " +:+ errText err))
     | None => runSteps fuel o buildSteps postSteps
     end)
    (fun w => logf ("Ran for " +:+ ranFor (env w)) w).
End Running.

(** ** What the properties are stated with *)

Section Specification.
Context `{StepAPI}.

(** The definitions of the steps, asked one after the other: what the spec
    calls querying [inputs] on every step, in order. *)
Fixpoint eachInputs (steps : list Step) (dry : bool) : M Env (list InputDefinition) :=
  match steps with
  | [] => ret []
  | step :: steps' =>
      definition <- Inputs step dry ;;
      definitions <- eachInputs steps' dry ;;
      ret (definition :: definitions)
  end.

(** The links created by a list of nodes. *)
Definition createsOf (nodes : list StepNode) : list StepLink :=
  flat_map (fun node => Creates (nodeStep node)) nodes.

(** A valid linearization: what a node requires is created by the nodes
    strictly before it. *)
Definition linearization (nodes : list StepNode) : Prop :=
  forall before node after,
    nodes = before ++ node :: after ->
    HasAllLinks (Requires (nodeStep node)) (createsOf before) = true.

(** The nodes that a pass over [nodes] adds to the sorted ones. *)
Definition emitted (nodes : list StepNode) (st : sortState) : list StepNode :=
  drop (length (sortedNodes st)) (sortedNodes (vars (pass nodes st))).

(** What holds of the variables of [topologicalSort] between two visits,
    for any roots: [satisfied] and [seen] are the links and the steps of the
    sorted nodes, no step is sorted twice, the sorted nodes are a valid
    linearization, and they are nodes of the graph. *)
Record sortInv (roots : list StepNode) (st : sortState) : Prop := mkSortInv
  { inv_satisfied : satisfied st = createsOf (sortedNodes st);
    inv_seen : forall s, s ∈ seen st <-> s ∈ map nodeStep (sortedNodes st);
    inv_nodup : NoDup (map nodeStep (sortedNodes st));
    inv_linear : linearization (sortedNodes st);
    inv_graph : forall n, n ∈ sortedNodes st -> n ∈ graphNodes roots }.

(** The frontier: a root whose step is not seen, and a child whose step is
    not seen under a node whose step is seen, is waiting or still to be
    visited in the pass. *)
Definition frontier (roots : list StepNode) (st : sortState)
    (waiting todo : list StepNode) : Prop :=
  (forall r, r ∈ roots -> nodeStep r ∉ seen st -> r ∈ waiting \/ r ∈ todo) /\
  (forall p c, p ∈ graphNodes roots -> nodeStep p ∈ seen st ->
               c ∈ Children p -> nodeStep c ∉ seen st -> c ∈ waiting \/ c ∈ todo).

(** In a graph of step nodes there is one node for a step. *)
Definition oneNodePerStep (roots : list StepNode) : Prop :=
  forall n m, n ∈ graphNodes roots -> m ∈ graphNodes roots ->
              nodeStep n = nodeStep m -> n = m.

(** [rank] numbers an acyclic graph in which what a node requires can be
    produced: a child comes after its parent, and every link that a node
    requires is created by a node of the graph that comes before it. *)
Definition ranked (roots : list StepNode) (rank : Step -> nat) : Prop :=
  (forall p c, p ∈ graphNodes roots -> c ∈ Children p ->
               rank (nodeStep p) < rank (nodeStep c)) /\
  (forall n link, n ∈ graphNodes roots -> link ∈ Requires (nodeStep n) ->
     exists m, m ∈ graphNodes roots /\ link ∈ Creates (nodeStep m) /\
               rank (nodeStep m) < rank (nodeStep n)).

(** [oneNodePerStep] and [ranked], computed on the nodes under the roots. *)
Fixpoint sameNode (n m : StepNode) : bool :=
match n, m with
| mkStepNode s children, mkStepNode t others =>
    bool_decide (s = t) &&
    (fix sameNodes (l k : list StepNode) : bool :=
       match l, k with
       | [], [] => true
       | c :: l', d :: k' => sameNode c d && sameNodes l' k'
       | _, _ => false
       end) children others
end.

Definition oneNodePerStepb (roots : list StepNode) : bool :=
forallb (fun n =>
  forallb (fun m => implb (bool_decide (nodeStep n = nodeStep m)) (sameNode n m))
          (graphNodes roots))
  (graphNodes roots).

Definition rankedb (roots : list StepNode) (rank : Step -> nat) : bool :=
forallb (fun p =>
  forallb (fun c => rank (nodeStep p) <? rank (nodeStep c))%nat (Children p) &&
  forallb (fun link =>
    existsb (fun m => bool_decide (link ∈ Creates (nodeStep m)) &&
                      (rank (nodeStep m) <? rank (nodeStep p))%nat)
            (graphNodes roots))
    (Requires (nodeStep p)))
  (graphNodes roots).
End Specification.

(** Induction on a node, with the property at hand for its children. *)
Section StepNodeInduction.
Context `{Types} (P : StepNode -> Prop).
Hypothesis Hnode : forall s children, Forall P children -> P (mkStepNode s children).

Fixpoint StepNode_children_ind (n : StepNode) : P n :=
  match n with
  | mkStepNode s children =>
      Hnode s children
        ((fix each (l : list StepNode) : Forall P l :=
            match l with
            | [] => @List.Forall_nil _ P
            | c :: l' => @List.Forall_cons _ P c l' (StepNode_children_ind c) (each l')
            end) children)
  end.
End StepNodeInduction.

(** Name order, as [sort.Strings] would give it. *)
Fixpoint nameOrdered (names : list string) : bool :=
  match names with
  | [] => true
  | x :: rest =>
      match rest with
      | [] => true
      | y :: _ => String.leb x y && nameOrdered rest
      end
  end.

(** The alphabet of the workspace identifier. *)
Definition alphabet : list ascii := list_ascii_of_string oneWayNameEncoding.

Definition lowerOrDigit (c : ascii) : bool :=
  let n := nat_of_ascii c in
  ((97 <=? n) && (n <=? 122) || (48 <=? n) && (n <=? 57))%nat.

Definition vowelOAEU (c : ascii) : bool :=
  existsb (Ascii.eqb c) ["o"; "a"; "e"; "u"]%char.

(** ** A small world to run the definitions on *)

Module Example.
(** A step that is its own description. *)
Record step : Type := mkStep
  { stepName : string;
    stepRequires : list string;
    stepCreates : list string;
    stepInputs : list string }.

#[global] Instance step_eq_dec : EqDecision step.
Proof. solve_decision. Defined.

#[global] Instance step_countable : Countable step :=
  inj_countable'
    (fun s => (stepName s, stepRequires s, stepCreates s, stepInputs s))
    (fun t => mkStep t.1.1.1 t.1.1.2 t.1.2 t.2)
    (fun s => match s with mkStep _ _ _ _ => eq_refl end).

(** The configuration lists the steps; the environment is the list of the
    calls made to the cluster and to the file system. *)
#[global] Instance types : Types :=
  {| Step := step;
     StepLink := string;
     Config := list step;
     Template := unit;
     RestConfig := unit;
     SuiteContent := unit;
     Env := list string |}.

Definition call {A} (a : A) (what : string) (e : list string) : A * list string :=
  (a, e ++ [what]).

#[global] Instance stepAPI : StepAPI :=
  {| Name := stepName;
     Requires := stepRequires;
     Creates := stepCreates;
     Inputs := fun s _ => ret (stepInputs s);
     StepRun := fun s (dry : bool) =>
       if dry then ret tt else inEnv (call tt ("run " +:+ stepName s));
     TypeName := fun _ => "*example.step";
     GoString := fun link => link |}.

(** A cluster that accepts every request, and a file system that refuses
    every write. *)
#[global] Instance platform : Platform :=
  {| json_Marshal := fun config => (Join (map stepName config) ",", None);
     xml_MarshalIndent := fun _ => ([60; 47; 62]%Z, None);
     filepath_Join := fun dir file => dir +:+ "/" +:+ file;
     WriteFile := fun path _ =>
       call (Some (Errorf ("open " +:+ path +:+ ": read-only file system"))) ("write " +:+ path);
     Sleep := fun _ => call tt "sleep";
     ranFor := fun _ => "0s";
     DurationString := fun _ => "10m0s";
     DurationSeconds := fun _ => "600";
     cleanupScript := "oc delete project ${NAMESPACE}";
     FromConfig := fun config _ _ _ _ _ _ _ e => ((config, []), None, e);
     stepsRun := fun _ _ =>
       inEnv (call (Some (mkTestSuites [mkTestSuite EmptyString tt]), None) "steps.Run");
     IsExternal := fun _ => false;
     versioned_NewForConfig := fun _ => None;
     imageclientset_NewForConfig := fun _ => None;
     coreclientset_NewForConfig := fun _ => None;
     rbacclientset_NewForConfig := fun _ => None;
     ProjectRequests_Create := fun req =>
       call ({| Phase := "Active" |}, None) ("create project " +:+ RequestName req);
     Projects_Get := fun name => call ({| Phase := "Active" |}, None) ("get project " +:+ name);
     ImageStreams_Create := fun ns stream =>
       call (Some stream, None) ("create imagestream " +:+ ns +:+ "/" +:+ StreamName stream);
     ImageStreams_Get := fun ns name =>
       call (None, Some (Error (Some StatusReasonNotFound) "not found"))
            ("get imagestream " +:+ ns +:+ "/" +:+ name);
     Secrets_Create := fun ns secret => call None ("create secret " +:+ ns +:+ "/" +:+ SecretName secret);
     Secrets_Get := fun ns name =>
       call (mkSecret name None, Some (Error (Some StatusReasonNotFound) "not found"))
            ("get secret " +:+ ns +:+ "/" +:+ name);
     Secrets_Update := fun ns secret => call None ("update secret " +:+ ns +:+ "/" +:+ SecretName secret);
     ServiceAccounts_Create := fun ns name => call None ("create serviceaccount " +:+ ns +:+ "/" +:+ name);
     RoleBindings_Create := fun ns name => call None ("create rolebinding " +:+ ns +:+ "/" +:+ name);
     Pods_Create := fun ns pod => call None ("create pod " +:+ ns +:+ "/" +:+ PodName pod) |}.

(** A chain [src], [build], [test], and next to it a step [lint] that
    nothing else needs. *)
Definition src : step := mkStep "src" [] ["src"] ["commit 4f2a91"].
Definition build : step := mkStep "build" ["src"] ["image"] ["base sha256:77c1"].
Definition test : step := mkStep "test" ["image"] ["result"] [].
Definition lint : step := mkStep "lint" [] ["report"] ["linter v2"].

Definition config : list step := [src; build; test; lint].

(** A diamond: [a] and [b] need [root], [join] needs both. *)
Definition root : step := mkStep "root" [] ["r"] [].
Definition a : step := mkStep "a" ["r"] ["x"] [].
Definition b : step := mkStep "b" ["r"] ["y"] [].
Definition join : step := mkStep "join" ["x"; "y"] ["z"] [].

Definition diamond : list StepNode := BuildGraph [root; a; b; join].

Definition diamondRank (s : step) : nat :=
  if decide (s = root) then 0
  else if decide (s = join) then 2
  else 1.

Definition job0 : JobSpec :=
  mkJobSpec "pull-ci-unit"
    {| Org := "openshift"; Repo := "origin"; BaseRef := "master"; BaseSHA := "4f2a91";
       Pulls := [] |}
    EmptyString None.

Definition world0 : world (list string) := World [] job0 [].

(** [-target test -dry-run=false -artifact-dir /tmp/artifacts] *)
Definition opts (dryRun : bool) : options :=
  mkOptions ["test"] false dryRun EmptyString "/tmp/artifacts" EmptyString
            600000000000 EmptyString [mkSecret "pull-secret" (Some ∅)] [] config tt.

(** [-namespace team-{id}-x-{id}] *)
Definition optsTemplate : options :=
  mkOptions ["test"] false true EmptyString "/tmp/artifacts" "team-{id}-x-{id}"
            600000000000 EmptyString [] [] config tt.

(** Another way to the same inputs: one step that has them all, in a world
    that has seen calls and lines already. *)
Definition merged : step :=
  mkStep "merged" [] [] ["commit 4f2a91"; "base sha256:77c1"; "linter v2"].

Definition world1 : world (list string) := World ["get project x"] job0 ["started"].

(** The suites that [steps.Run] returns here. *)
Definition suites0 : TestSuites := mkTestSuites [mkTestSuite EmptyString tt].

(** Two steps that need nothing, the later name first. *)
Definition unordered : list StepNode := BuildGraph [src; lint].

(** What [Run] returns for [-target test -dry-run], and what
    [resolveInputs] returns for the namespace with placeholders. *)
Definition ranOptions : options :=
Eval vm_compute in
  match Run 1 (opts true) world0 with (Ok o, _) => o | _ => opts true end.

Definition ranWorld : world (list string) :=
Eval vm_compute in snd (Run 1 (opts true) world0).

Definition resolvedOptions : options :=
Eval vm_compute in
  match resolveInputs optsTemplate config world0 with (Ok o, _) => o | _ => optsTemplate end.

Definition resolvedWorld : world (list string) :=
Eval vm_compute in snd (resolveInputs optsTemplate config world0).
End Example.

(** ** cmd/ci-operator/main.go, the functions around the run *)

(** [0-9a-fA-F] *)
Definition isHex (c : ascii) : bool :=
  let n := nat_of_ascii c in
  ((48 <=? n) && (n <=? 57) || (97 <=? n) && (n <=? 102) || (65 <=? n) && (n <=? 70))%nat.

(** [shaRegex.MatchString]: the text is one or more hexadecimal digits from
    its first byte to its last. *)
Definition shaRegex_MatchString (s : string) : bool :=
  (0 <? String.length s)%nat && forallb isHex (list_ascii_of_string s).

(** [shorten].  [value[:l]] panics when [l] is negative. *)
Definition shorten (value : string) (l : Z) : outcome string :=
  if (l <? Z.of_nat (String.length value))%Z && shaRegex_MatchString value
  then
    if (l <? 0)%Z then Panic "slice bounds out of range"
    else Ok (String.substring 0 (Z.to_nat l) value)
  else Ok value.

(** The scan of [strings.Split(s, sep)]: [piece] is what has been read of
    the piece at hand, [skip] counts the bytes of the separator found last
    that are still to be passed. *)
Fixpoint splitFrom (skip : nat) (s sep piece : string) : list string :=
  match s with
  | EmptyString => [piece]
  | String c s' =>
      match skip with
      | S k => splitFrom k s' sep piece
      | O =>
          if String.prefix sep s
          then piece :: splitFrom (String.length sep - 1) s' sep EmptyString
          else splitFrom 0 s' sep (piece +:+ String c EmptyString)
      end
  end.

(** [strings.Split(s, sep)] for a non-empty [sep].  (An empty [sep] splits
    between runes; the program never passes one, and that case is left as the
    one piece [s] here.) *)
Definition Split (s sep : string) : list string :=
  match sep with
  | EmptyString => [s]
  | _ => splitFrom 0 s sep EmptyString
  end.

Definition tab : string := String (ascii_of_nat 9) EmptyString.

(** [steps.PeriodicJob], the one job type that [main.go] names. *)
Inductive JobType : Type := PeriodicJob.

(** [exec.Command("git", "ls-remote", url, rev).Output()]: what the command
    printed, and its error. *)
Class Git `{Types} : Type :=
  { git_ls_remote : string -> string -> Env -> (string * option error) * Env }.

Section GitRef.
Context `{Types} `{!Git}.

(** [jobSpecFromGitRef].  The [Type] of the job, which the record [JobSpec]
    above does not carry, is returned next to it. *)
Definition jobSpecFromGitRef (ref : string) : M Env (JobType * JobSpec) :=
  match Split ref "@" with
  | [part0; part1] =>
      match Split part0 "/" with
      | [org; repo] =>
          r <- inEnv (git_ls_remote
                        ("https://github.com/" +:+ org +:+ "/" +:+ repo +:+ ".git") part1) ;;
          let '(out, err) := r in
          let sha := hd EmptyString (Split (hd EmptyString (Split out newline)) tab) in
          if (String.length sha =? 0)%nat || bool_decide (err <> None)
          then
            ret (PeriodicJob,
                 mkJobSpec "dev"
                   {| Org := org; Repo := repo; BaseRef := EmptyString; BaseSHA := part1;
                      Pulls := [] |}
                   EmptyString None)
          else
            logf ("Resolved " +:+ ref +:+ " to commit " +:+ sha) ;;
            ret (PeriodicJob,
                 mkJobSpec "dev"
                   {| Org := org; Repo := repo; BaseRef := part1; BaseSHA := sha;
                      Pulls := [] |}
                   EmptyString None)
      | _ => fail (Errorf "must be ORG/NAME@COMMIT")
      end
  | _ => fail (Errorf "must be ORG/NAME@COMMIT")
  end.
End GitRef.

(** The number of bytes of [s] that are [c]. *)
Fixpoint countByte (c : ascii) (s : string) : nat :=
  match s with
  | EmptyString => 0
  | String x s' => (if Ascii.eqb x c then 1 else 0) + countByte c s'
  end.

(** ** What a call leaves as it was *)

(** The one owner that [main.go] gives the job. *)
Definition pipelineOwner (uid : string) : OwnerReference :=
  {| APIVersion := "image.openshift.io/v1";
     Kind := "ImageStream";
     OwnerName := PipelineImageStream;
     UID := uid;
     Controller := Some true |}.

(** The job is as before but for its owner, which when it changed is the
    pipeline image stream. *)
Definition ownerOnly (j j' : JobSpec) : Prop :=
  Job j' = Job j /\ JobRefs j' = JobRefs j /\ job_namespace j' = job_namespace j /\
  (job_owner j' = job_owner j \/ exists uid, job_owner j' = Some (pipelineOwner uid)).

(** The log is as before but for lines at its end. *)
Definition extendsLog {Env} (w w' : world Env) : Prop :=
  exists lines, logged w' = logged w ++ lines.

Definition framed {Env A} (m : M Env A) : Prop :=
  forall w, ownerOnly (job w) (job (snd (m w))) /\ extendsLog w (snd (m w)).

(** ** The rounds of the project loop *)

Section Attempts.
Context `{Types} `{!Platform}.

(** The request that [initializeNamespace] sends for the project. *)
Definition projectRequest (o : options) (j : JobSpec) : ProjectRequest :=
  {| RequestName := namespace o;
     DisplayName := namespace o +:+ " - " +:+ Job j;
     Description := jobDescription j (configSpec o) |}.

(** The environment after the request, after the request and the read of
    the project, and after these and the second of sleep that comes before
    another attempt. *)
Definition asked (o : options) (j : JobSpec) (e : Env) : Env :=
  snd (ProjectRequests_Create (projectRequest o j) e).

Definition refused (o : options) (j : JobSpec) (e : Env) : Env :=
  snd (Projects_Get (namespace o) (asked o j e)).

Definition retried (o : options) (j : JobSpec) (e : Env) : Env :=
  snd (Sleep 1000000000 (refused o j e)).

(** In [e] the cluster says that the project is there, and refuses to show
    it. *)
Definition refuses (o : options) (j : JobSpec) (e : Env) : Prop :=
  IsAlreadyExists (snd (fst (ProjectRequests_Create (projectRequest o j) e))) = true /\
  IsForbidden (snd (fst (Projects_Get (namespace o) (asked o j e)))) = true.
End Attempts.

(** ** Reading an identifier back *)

(** The place of a character in the alphabet of [oneWayNameEncoding]. *)
Fixpoint indexOf (c : ascii) (l : list ascii) : Z :=
  match l with
  | [] => 0
  | x :: l' => if Ascii.eqb x c then 0 else 1 + indexOf c l'
  end.

(** Five bytes from the eight 5-bit groups that [Base32.unpack] makes of
    them. *)
Definition pack (groups : list Z) : list Z :=
  let g (i : nat) := nth i groups 0%Z in
  [ Z.lor (Z.shiftl (g 0%nat) 3) (Z.shiftr (g 1%nat) 2);
    Z.lor (Z.lor (Z.land (Z.shiftl (g 1%nat) 6) 0xFF) (Z.shiftl (g 2%nat) 1))
          (Z.shiftr (g 3%nat) 4);
    Z.lor (Z.land (Z.shiftl (g 3%nat) 4) 0xFF) (Z.shiftr (g 4%nat) 1);
    Z.lor (Z.lor (Z.land (Z.shiftl (g 4%nat) 7) 0xFF) (Z.shiftl (g 5%nat) 2))
          (Z.shiftr (g 6%nat) 3);
    Z.lor (Z.land (Z.shiftl (g 6%nat) 5) 0xFF) (g 7%nat) ]%Z.

Definition decodeGroups (s : string) : list Z :=
  map (fun c => indexOf c alphabet) (list_ascii_of_string s).

(** The values of a byte. *)
Definition byteValues : list Z := map Z.of_nat (seq 0 256).

Definition isByte (b : Z) : Prop := (0 <= b < 256)%Z.

(** ** Flags that may be given more than once *)

(** [stringSlice] *)
Record stringSlice : Type := mkStringSlice { values : list string }.

(** [stringSlice.String]; [Separator] is [filepath.Separator]. *)
Definition stringSlice_String (Separator : ascii) (s : stringSlice) : string :=
  Join (values s) (String Separator EmptyString).

(** [stringSlice.Set]: the slice as the call leaves it, and the nil
    error. *)
Definition stringSlice_Set (s : stringSlice) (value : string) : stringSlice * option error :=
  (mkStringSlice (values s ++ [value]), None).

(** ** More worlds to run the definitions on *)

Module Cases.
Import Example.

(** The diamond in the order that [topologicalSort] gives it. *)
Definition diamondSorted : list StepNode :=
Eval vm_compute in
  match sortOf diamond with Sorted sorted => sorted | _ => [] end.

(** Two steps that wait for one another, and a graph of them by hand. *)
Definition ping : step := mkStep "ping" ["pong"] ["ping"] [].
Definition pong : step := mkStep "pong" ["ping"] ["pong"] [].

Definition waitingPair : list StepNode := [mkStepNode ping [mkStepNode pong []]].

(** A world in which [deploy] and [verify] wait for one another under a
    step [base] that needs nothing, and the options that name [verify] as
    the target. *)
Definition base : step := mkStep "base" [] ["base"] ["commit 4f2a91"].
Definition deploy : step := mkStep "deploy" ["base"; "verified"] ["deployed"] [].
Definition verify : step := mkStep "verify" ["deployed"] ["verified"] [].

Definition knot : list step := [base; deploy; verify].

Definition knotOptions : options :=
  mkOptions ["verify"] false false EmptyString EmptyString EmptyString
            0 EmptyString [] [] knot tt.

Definition knotResolved : options :=
Eval vm_compute in
  match resolveInputs knotOptions knot world0 with (Ok o, _) => o | _ => knotOptions end.

Definition knotWorld : world (list string) :=
Eval vm_compute in snd (resolveInputs knotOptions knot world0).

Definition knotNodes : list StepNode :=
Eval vm_compute in
  match BuildPartialGraph knot ["verify"] knotWorld with (Ok nodes, _) => nodes | _ => [] end.

Definition knotWaiting : list StepNode :=
Eval vm_compute in
  match sortOf knotNodes with Missing waiting _ => waiting | _ => [] end.

Definition knotSatisfied : list string :=
Eval vm_compute in
  match sortOf knotNodes with Missing _ satisfied => satisfied | _ => [] end.

(** Three nodes in a row: [build] needs what [src] creates, [lint] needs
    nothing. *)
Definition chain : list StepNode :=
  [mkStepNode src []; mkStepNode build []; mkStepNode lint []].

(** Steps as in the example, but for [build], which fails. *)
Definition failing : StepAPI :=
  {| Name := stepName;
     Requires := stepRequires;
     Creates := stepCreates;
     Inputs := fun s _ =>
       if String.eqb (stepName s) "build" then fail (Errorf "no base image")
       else ret (stepInputs s);
     StepRun := fun s (dry : bool) =>
       if String.eqb (stepName s) "build" then fail (Errorf "build failed")
       else inEnv (call tt ("run " +:+ stepName s));
     TypeName := fun _ => "*example.step";
     GoString := fun link => link |}.

(** What [resolveInputs] returns for no namespace. *)
Definition defaultOptions : options :=
Eval vm_compute in
  match resolveInputs (opts true) config world0 with (Ok o, _) => o | _ => opts true end.

Definition defaultWorld : world (list string) :=
Eval vm_compute in snd (resolveInputs (opts true) config world0).

(** A remote that has the branch. *)
#[global] Instance git : Git :=
  {| git_ls_remote := fun url rev =>
       call ("4f2a91c07d5e" +:+ tab +:+ "refs/heads/" +:+ rev +:+ newline, None)
            ("git ls-remote " +:+ url +:+ " " +:+ rev) |}.

(** The cluster of the example, but for the two calls about the project. *)
Definition cluster
    (create : ProjectRequest -> list string -> (Project * option error) * list string)
    (get : string -> list string -> (Project * option error) * list string) : Platform :=
  {| json_Marshal := json_Marshal;
     xml_MarshalIndent := xml_MarshalIndent;
     filepath_Join := filepath_Join;
     WriteFile := WriteFile;
     Sleep := Sleep;
     ranFor := ranFor;
     DurationString := DurationString;
     DurationSeconds := DurationSeconds;
     cleanupScript := cleanupScript;
     FromConfig := FromConfig;
     stepsRun := stepsRun;
     IsExternal := IsExternal;
     versioned_NewForConfig := versioned_NewForConfig;
     imageclientset_NewForConfig := imageclientset_NewForConfig;
     coreclientset_NewForConfig := coreclientset_NewForConfig;
     rbacclientset_NewForConfig := rbacclientset_NewForConfig;
     ProjectRequests_Create := create;
     Projects_Get := get;
     ImageStreams_Create := ImageStreams_Create;
     ImageStreams_Get := ImageStreams_Get;
     Secrets_Create := Secrets_Create;
     Secrets_Get := Secrets_Get;
     Secrets_Update := Secrets_Update;
     ServiceAccounts_Create := ServiceAccounts_Create;
     RoleBindings_Create := RoleBindings_Create;
     Pods_Create := Pods_Create |}.

Definition alreadyExists : option error :=
  Some (Error (Some StatusReasonAlreadyExists) "project exists").

(** The project is there and may not be read. *)
Definition forbiddenCluster : Platform :=
  cluster (fun request => call ({| Phase := EmptyString |}, alreadyExists) "create project")
          (fun name =>
             call ({| Phase := EmptyString |},
                   Some (Error (Some StatusReasonForbidden) "forbidden"))
                  "get project").

(** The project is there and is not found. *)
Definition notFoundCluster : Platform :=
  cluster (fun request => call ({| Phase := EmptyString |}, alreadyExists) "create project")
          (fun name =>
             call ({| Phase := EmptyString |},
                   Some (Error (Some StatusReasonNotFound) "not found"))
                  "get project").

(** The namespace is terminating. *)
Definition terminatingCluster : Platform :=
  cluster (fun request => call ({| Phase := "Terminating" |}, None) "create project")
          (fun name => call ({| Phase := "Terminating" |}, None) "get project").

(** The project may not be read the first six times, and may be read from
    then on. *)
Definition patientCluster : Platform :=
  cluster (fun request => call ({| Phase := EmptyString |}, alreadyExists) "create project")
          (fun name e =>
             if (count_occ string_dec e "get project" <? 6)%nat
             then call ({| Phase := EmptyString |},
                        Some (Error (Some StatusReasonForbidden) "forbidden"))
                       "get project" e
             else call ({| Phase := "Active" |}, None) "get project" e).

(** Where [initializeNamespace] leaves that cluster. *)
Definition patientWorld : world (list string) :=
Eval vm_compute in snd (@initializeNamespace types patientCluster 6 (opts false) world0).

(** The cluster of the example, but for the secrets: the one named
    [pull-secret] is there already, with the data [existing]. *)
Definition secretCluster (existing : option (gmap string (list Z))) : Platform :=
  {| json_Marshal := json_Marshal;
     xml_MarshalIndent := xml_MarshalIndent;
     filepath_Join := filepath_Join;
     WriteFile := WriteFile;
     Sleep := Sleep;
     ranFor := ranFor;
     DurationString := DurationString;
     DurationSeconds := DurationSeconds;
     cleanupScript := cleanupScript;
     FromConfig := FromConfig;
     stepsRun := stepsRun;
     IsExternal := IsExternal;
     versioned_NewForConfig := versioned_NewForConfig;
     imageclientset_NewForConfig := imageclientset_NewForConfig;
     coreclientset_NewForConfig := coreclientset_NewForConfig;
     rbacclientset_NewForConfig := rbacclientset_NewForConfig;
     ProjectRequests_Create := ProjectRequests_Create;
     Projects_Get := Projects_Get;
     ImageStreams_Create := ImageStreams_Create;
     ImageStreams_Get := ImageStreams_Get;
     Secrets_Create := fun ns secret =>
       if String.eqb (SecretName secret) "pull-secret"
       then call (Some (Error (Some StatusReasonAlreadyExists) "secret exists"))
                 ("create secret " +:+ SecretName secret)
       else call None ("create secret " +:+ SecretName secret);
     Secrets_Get := fun ns name => call (mkSecret name existing, None) ("get secret " +:+ name);
     Secrets_Update := fun ns secret => call None ("update secret " +:+ SecretName secret);
     ServiceAccounts_Create := ServiceAccounts_Create;
     RoleBindings_Create := RoleBindings_Create;
     Pods_Create := Pods_Create |}.

(** A secret with a token, and one with nothing in it. *)
Definition pullSecret : Secret := mkSecret "pull-secret" (Some {[ "token" := [7%Z] ]}).
Definition registrySecret : Secret := mkSecret "registry" None.

(** The world after both have been sent to a cluster that holds an older
    [pull-secret]. *)
Definition secretsWorld : world (list string) :=
Eval vm_compute in
  snd (@createSecrets types (secretCluster (Some {[ "old" := [1%Z] ]})) (opts false)
         [pullSecret; registrySecret] world0).

(** The world after the secret of [opts] has been created. *)
Definition secretWorld : world (list string) :=
Eval vm_compute in snd (createSecrets (opts false) (secrets (opts false)) world0).
End Cases.

(** * Properties *)

(** ** The workspace identifier *)

Lemma be_bytes_length (n : nat) (x : Z) : length (Sha256.be_bytes n x) = n.
Proof. induction n as [|n IH]; cbn [Sha256.be_bytes length]; congruence. Qed.

(** A SHA-256 digest has 32 bytes. *)
Lemma Sum_length (d : Sha256.digest) : length (Sha256.Sum d) = 32%nat.
Proof.
  unfold Sha256.Sum.
  destruct (Sha256.blocks _ _ _).
  rewrite !length_app, !be_bytes_length. reflexivity.
Qed.

Lemma firstn_5_of_32 (l : list Z) :
  length l = 32%nat -> exists b0 b1 b2 b3 b4, firstn 5 l = [b0; b1; b2; b3; b4].
Proof.
  intros Hl.
  do 5 (destruct l as [|? l]; [discriminate Hl|]).
  eexists _, _, _, _, _. reflexivity.
Qed.

(** Five bytes are one quantum: eight characters, none left over. *)
Lemma EncodeToString_quantum (encoder : string) (b0 b1 b2 b3 b4 : Z) :
  Base32.EncodeToString encoder [b0; b1; b2; b3; b4] =
  string_of_list_ascii (map (Base32.encodeChar encoder) (Base32.unpack [b0; b1; b2; b3; b4])).
Proof.
  unfold Base32.EncodeToString.
  cbn [length Base32.encodeLoop skipn].
  change (Base32.EncodedLen 5) with 8%nat.
  rewrite app_nil_r. reflexivity.
Qed.

Lemma encodeChar_in_alphabet (b : Z) :
  Base32.encodeChar oneWayNameEncoding b ∈ alphabet.
Proof.
  unfold Base32.encodeChar.
  apply list_elem_of_In, nth_In.
  change (length alphabet) with 32%nat.
  change 31%Z with (Z.ones 5).
  rewrite Z.land_ones by lia.
  change (2 ^ 5)%Z with 32%Z.
  pose proof (Z.mod_pos_bound b 32 ltac:(lia)). lia.
Qed.

(** Writing the inputs one by one leaves the hash with their bytes, end to
    end. *)
Lemma writeInputs_app (hash : Sha256.digest) (inputs : InputDefinition) :
  writeInputs hash inputs = hash ++ flat_map bytes_of_string inputs.
Proof.
  revert hash. induction inputs as [|s inputs IH]; intros hash; cbn.
  - now rewrite app_nil_r.
  - unfold writeInputs in IH. rewrite IH. unfold Sha256.Write. now rewrite app_assoc.
Qed.

Lemma list_ascii_of_string_app (s t : string) :
  list_ascii_of_string (s +:+ t) = list_ascii_of_string s ++ list_ascii_of_string t.
Proof.
  induction s as [|c s IH]; [reflexivity|].
  change (String c s +:+ t) with (String c (s +:+ t)).
  cbn [list_ascii_of_string app]. now rewrite IH.
Qed.

Lemma bytes_of_string_app (s t : string) :
  bytes_of_string (s +:+ t) = bytes_of_string s ++ bytes_of_string t.
Proof. unfold bytes_of_string. now rewrite list_ascii_of_string_app, map_app. Qed.

Lemma bytes_of_concat (inputs : list string) :
  flat_map bytes_of_string inputs = bytes_of_string (String.concat EmptyString inputs).
Proof.
  induction inputs as [|s inputs IH]; [reflexivity|].
  cbn [flat_map]. rewrite IH.
  destruct inputs as [|t inputs].
  - cbn. now rewrite app_nil_r.
  - cbn [String.concat]. now rewrite !bytes_of_string_app.
Qed.

(** C2.  The workspace identifier has exactly 8 characters, each one from the
    alphabet of the encoding; that alphabet has 32 distinct symbols, all of
    them lowercase letters or digits and none of them [o], [a], [e] or [u];
    and the identifier is the encoding, without padding, of the first 5 bytes
    of the SHA-256 digest of the inputs. *)
Theorem inputHash_encoding (inputs : InputDefinition) :
  String.length (inputHash inputs) = 8%nat /\
  Forall (fun c => c ∈ alphabet) (list_ascii_of_string (inputHash inputs)) /\
  (length alphabet = 32%nat /\ NoDup alphabet /\
   Forall (fun c => lowerOrDigit c = true /\ vowelOAEU c = false) alphabet) /\
  exists b0 b1 b2 b3 b4,
    firstn 5 (Sha256.Sum (flat_map bytes_of_string inputs)) = [b0; b1; b2; b3; b4] /\
    inputHash inputs =
      string_of_list_ascii
        (map (Base32.encodeChar oneWayNameEncoding) (Base32.unpack [b0; b1; b2; b3; b4])).
Proof.
  destruct (firstn_5_of_32 (Sha256.Sum (flat_map bytes_of_string inputs)) (Sum_length _))
    as (b0 & b1 & b2 & b3 & b4 & Hfirst).
  assert (Hhash : inputHash inputs =
      string_of_list_ascii
        (map (Base32.encodeChar oneWayNameEncoding) (Base32.unpack [b0; b1; b2; b3; b4]))).
  { unfold inputHash. rewrite writeInputs_app. cbn [Sha256.New app].
    rewrite Hfirst. apply EncodeToString_quantum. }
  split; [|split; [|split]].
  - rewrite Hhash. reflexivity.
  - rewrite Hhash, list_ascii_of_string_of_list_ascii.
    apply Forall_forall. intros c Hc.
    apply list_elem_of_In, in_map_iff in Hc. destruct Hc as (b & <- & _).
    apply encodeChar_in_alphabet.
  - split; [reflexivity|]. split.
    + apply (bool_decide_unpack _). vm_compute. exact I.
    + apply Forall_forall. intros c Hc.
      revert c Hc. apply Forall_forall.
      repeat constructor.
  - exists b0, b1, b2, b3, b4. split; [exact Hfirst | exact Hhash].
Qed.

(** C9.  Two input definitions whose elements, put end to end, give the same
    string have the same workspace identifier: the boundaries between the
    elements are not hashed. *)
Theorem inputHash_concat (inputs1 inputs2 : InputDefinition) :
  String.concat EmptyString inputs1 = String.concat EmptyString inputs2 ->
  inputHash inputs1 = inputHash inputs2.
Proof.
  intros Heq. unfold inputHash.
  rewrite !writeInputs_app, !bytes_of_concat, Heq. reflexivity.
Qed.

Lemma inputHash_concat_witness :
  ["ab"; "c"] <> ["a"; "bc"] /\ inputHash ["ab"; "c"] = inputHash ["a"; "bc"].
Proof.
  split; [discriminate|].
  apply (inputHash_concat ["ab"; "c"] ["a"; "bc"]). reflexivity.
Defined.

(** ** strings.Replace on the placeholder *)

(** An occurrence of the placeholder cannot begin in a piece that holds none
    and end in the placeholder that follows the piece. *)
Lemma prefix_placeholder_app (c : ascii) (p rest : string) :
  String.prefix "{id}" (String c p) = false ->
  String.prefix "{id}" (String c (p +:+ "{id}" +:+ rest)) = false.
Proof.
  cbn [String.prefix].
  destruct (ascii_dec "{" c); [|reflexivity].
  destruct p as [|c2 p]; [reflexivity|].
  change (String c2 p +:+ "{id}" +:+ rest) with (String c2 (p +:+ "{id}" +:+ rest)).
  cbn [String.prefix].
  destruct (ascii_dec "i" c2); [|reflexivity].
  destruct p as [|c3 p]; [reflexivity|].
  change (String c3 p +:+ "{id}" +:+ rest) with (String c3 (p +:+ "{id}" +:+ rest)).
  cbn [String.prefix].
  destruct (ascii_dec "d" c3); [|reflexivity].
  destruct p as [|c4 p]; [reflexivity|].
  change (String c4 p +:+ "{id}" +:+ rest) with (String c4 (p +:+ "{id}" +:+ rest)).
  cbn [String.prefix].
  destruct (ascii_dec "}" c4); [|reflexivity].
  intros Hc. destruct p; discriminate Hc.
Qed.

Lemma append_empty_r (s : string) : s +:+ EmptyString = s.
Proof.
  induction s as [|c s IH]; [reflexivity|].
  change (String c s +:+ EmptyString) with (String c (s +:+ EmptyString)). now rewrite IH.
Qed.

Lemma prefix_empty (s : string) : String.prefix EmptyString s = true.
Proof. destruct s; reflexivity. Qed.

Lemma replaceFrom_placeholder (new rest : string) :
  replaceFrom 0 ("{id}" +:+ rest) "{id}" new = new +:+ replaceFrom 0 rest "{id}" new.
Proof.
  change ("{id}" +:+ rest) with (String "{" (String "i" (String "d" (String "}" rest)))).
  cbn [replaceFrom].
  assert (Hpre : String.prefix "{id}" (String "{" (String "i" (String "d" (String "}" rest))))
                 = true) by (cbn; apply prefix_empty).
  rewrite Hpre. reflexivity.
Qed.

Lemma replaceFrom_piece (new p rest : string) :
  Contains p "{id}" = false ->
  replaceFrom 0 (p +:+ "{id}" +:+ rest) "{id}" new =
  p +:+ new +:+ replaceFrom 0 rest "{id}" new.
Proof.
  induction p as [|c p IH]; intros Hp.
  - apply replaceFrom_placeholder.
  - cbn [Contains] in Hp. apply orb_false_elim in Hp. destruct Hp as [Hc Hp].
    change (String c p +:+ "{id}" +:+ rest) with (String c (p +:+ "{id}" +:+ rest)).
    cbn [replaceFrom].
    rewrite (prefix_placeholder_app c p rest Hc).
    rewrite (IH Hp). reflexivity.
Qed.

Lemma replaceFrom_without (new p : string) :
  Contains p "{id}" = false -> replaceFrom 0 p "{id}" new = p.
Proof.
  induction p as [|c p IH]; intros Hp; [reflexivity|].
  cbn [Contains] in Hp. apply orb_false_elim in Hp. destruct Hp as [Hc Hp].
  cbn [replaceFrom]. rewrite Hc, (IH Hp). reflexivity.
Qed.

(** Replacing the placeholder in pieces joined by it joins them by the new
    text instead. *)
Lemma Replace_Join (new : string) (pieces : list string) :
  Forall (fun p => Contains p "{id}" = false) pieces ->
  Replace (Join pieces "{id}") "{id}" new = Join pieces new.
Proof.
  unfold Replace.
  induction pieces as [|p pieces IH]; intros Hall; [reflexivity|].
  apply Forall_cons in Hall. destruct Hall as [Hp Hall].
  destruct pieces as [|q pieces].
  - apply replaceFrom_without, Hp.
  - change (Join (p :: q :: pieces) "{id}") with (p +:+ "{id}" +:+ Join (q :: pieces) "{id}").
    rewrite (replaceFrom_piece new p _ Hp), (IH Hall). reflexivity.
Qed.

(** ** resolveInputs *)

Section ResolveInputs.
Context `{StepAPI} `{!Platform}.

(** The loop of [resolveInputs] puts behind [inputs] what the steps answer,
    in their order, and stops at the first step that fails. *)
Lemma stepInputs_eachInputs (steps : list Step) (dry : bool) (inputs : InputDefinition)
    (w : world Env) :
  stepInputs steps dry inputs w =
  (definitions <- eachInputs steps dry ;; ret (inputs ++ List.concat definitions)) w.
Proof.
  revert inputs w. induction steps as [|step steps IH]; intros inputs w.
  - cbn. now rewrite app_nil_r.
  - cbn [stepInputs eachInputs]. unfold bind, ret.
    destruct (Inputs step dry w) as [[definition|e|msg|] w1]; try reflexivity.
    rewrite IH. unfold bind, ret.
    destruct (eachInputs steps dry w1) as [[definitions|e|msg|] w2]; try reflexivity.
    cbn [List.concat]. now rewrite app_assoc.
Qed.

Lemma inputDefinition_eachInputs (o : options) (steps : list Step) (w w1 : world Env)
    (definitions : list InputDefinition) (configText : string) :
  eachInputs steps (dry o) w = (Ok definitions, w1) ->
  json_Marshal (configSpec o) = (configText, None) ->
  inputDefinition o steps w = (Ok (List.concat definitions ++ [configText]), w1).
Proof.
  intros Heach Hjson. unfold inputDefinition, bind at 1.
  rewrite stepInputs_eachInputs. unfold bind, ret. rewrite Heach, Hjson. reflexivity.
Qed.

(** What [resolveInputs] leaves in the options and in the job. *)
Lemma resolveInputs_inv (o o' : options) (steps : list Step) (w w' : world Env) :
  resolveInputs o steps w = (Ok o', w') ->
  exists inputs w1,
    inputDefinition o steps w = (Ok inputs, w1) /\
    opt_inputHash o' = inputHash inputs /\
    namespace o' =
      Replace (if (String.length (namespace o) =? 0)%nat then "ci-op-{id}" else namespace o)
              "{id}" (inputHash inputs) /\
    job_namespace (job w') = namespace o' /\
    targets o' = targets o /\ dry o' = dry o /\ configSpec o' = configSpec o.
Proof.
  unfold resolveInputs, bind at 1.
  destruct (inputDefinition o steps w) as [[inputs|e|msg|] w1]; try discriminate.
  cbn. intros [= <- <-]. exists inputs, w1. cbn. repeat split; reflexivity.
Qed.

Lemma resolveInputs_ok (o : options) (steps : list Step) (w w1 : world Env)
    (inputs : InputDefinition) :
  inputDefinition o steps w = (Ok inputs, w1) ->
  exists o' w', resolveInputs o steps w = (Ok o', w').
Proof.
  intros Hdef. unfold resolveInputs, bind at 1. rewrite Hdef. cbn. eauto.
Qed.

Lemma resolveInputs_stores (o : options) (steps : list Step) (w w1 : world Env)
    (definitions : list InputDefinition) (configText : string) :
  eachInputs steps (dry o) w = (Ok definitions, w1) ->
  json_Marshal (configSpec o) = (configText, None) ->
  exists o' w',
    resolveInputs o steps w = (Ok o', w') /\
    opt_inputHash o' = inputHash (List.concat definitions ++ [configText]).
Proof.
  intros Heach Hjson.
  pose proof (inputDefinition_eachInputs o steps w w1 definitions configText Heach Hjson)
    as Hdef.
  destruct (resolveInputs_ok o steps w w1 _ Hdef) as (o' & w' & Hres).
  exists o', w'. split; [exact Hres|].
  destruct (resolveInputs_inv o o' steps w w' Hres) as (inputs & w2 & Hdef' & Hhash & _).
  rewrite Hdef in Hdef'. injection Hdef' as <- <-. exact Hhash.
Qed.

(** C3.  When every step answers and the configuration serializes, the
    input definition that [resolveInputs] hashes is the definitions of the
    steps, concatenated in the order of the steps, followed by exactly one
    more element, the serialized configuration, which is its last element;
    and the identifier it stores is [inputHash] of that list. *)
Theorem resolveInputs_definition (o : options) (steps : list Step) (w w1 : world Env)
    (definitions : list InputDefinition) (configText : string) :
  eachInputs steps (dry o) w = (Ok definitions, w1) ->
  json_Marshal (configSpec o) = (configText, None) ->
  inputDefinition o steps w = (Ok (List.concat definitions ++ [configText]), w1) /\
  last (List.concat definitions ++ [configText]) = Some configText /\
  length (List.concat definitions ++ [configText]) = S (length (List.concat definitions)) /\
  exists o' w',
    resolveInputs o steps w = (Ok o', w') /\
    opt_inputHash o' = inputHash (List.concat definitions ++ [configText]).
Proof.
  intros Heach Hjson.
  split; [now apply inputDefinition_eachInputs|]. split; [apply last_snoc|].
  split; [rewrite length_app; cbn; lia|].
  now apply (resolveInputs_stores o steps w w1).
Qed.

(** C4.  Two runs of [resolveInputs], whatever their options, steps and
    worlds, that collect the same input definition from their steps and
    serialize their configuration to the same bytes store the same
    identifier. *)
Theorem inputHash_deterministic (o1 o2 : options) (steps1 steps2 : list Step)
    (w1 w1' w2 w2' : world Env) (definitions1 definitions2 : list InputDefinition)
    (configText : string) :
  eachInputs steps1 (dry o1) w1 = (Ok definitions1, w1') ->
  eachInputs steps2 (dry o2) w2 = (Ok definitions2, w2') ->
  List.concat definitions1 = List.concat definitions2 ->
  json_Marshal (configSpec o1) = (configText, None) ->
  json_Marshal (configSpec o2) = (configText, None) ->
  exists o1' o2' v1 v2,
    resolveInputs o1 steps1 w1 = (Ok o1', v1) /\
    resolveInputs o2 steps2 w2 = (Ok o2', v2) /\
    opt_inputHash o1' = opt_inputHash o2' /\
    opt_inputHash o1' = inputHash (List.concat definitions1 ++ [configText]).
Proof.
  intros Heach1 Heach2 Hsame Hjson1 Hjson2.
  destruct (resolveInputs_stores o1 steps1 w1 w1' definitions1 configText Heach1 Hjson1)
    as (o1' & v1 & Hres1 & Hhash1).
  destruct (resolveInputs_stores o2 steps2 w2 w2' definitions2 configText Heach2 Hjson2)
    as (o2' & v2 & Hres2 & Hhash2).
  exists o1', o2', v1, v2. repeat split; try assumption.
  rewrite Hhash1, Hhash2, Hsame. reflexivity.
Qed.

(** C7.  After [resolveInputs]: a namespace that was not given is [ci-op-]
    followed by the identifier; a namespace that was given and does not
    contain the placeholder is kept as it is; in a namespace that was given,
    every occurrence of the placeholder is replaced by the identifier (the
    pieces between the occurrences are kept and joined by the identifier). *)
Theorem resolveInputs_namespace (o o' : options) (steps : list Step) (w w' : world Env) :
  resolveInputs o steps w = (Ok o', w') ->
  (namespace o = EmptyString -> namespace o' = "ci-op-" +:+ opt_inputHash o') /\
  (namespace o <> EmptyString -> Contains (namespace o) "{id}" = false ->
   namespace o' = namespace o) /\
  (namespace o <> EmptyString ->
   forall pieces : list string,
     Forall (fun p => Contains p "{id}" = false) pieces ->
     namespace o = Join pieces "{id}" ->
     namespace o' = Join pieces (opt_inputHash o')).
Proof.
  intros Hres.
  destruct (resolveInputs_inv o o' steps w w' Hres)
    as (inputs & w1 & _ & -> & Hns & _).
  assert (Hgiven : namespace o <> EmptyString ->
                   (String.length (namespace o) =? 0)%nat = false).
  { destruct (namespace o); [congruence | reflexivity]. }
  split; [|split].
  - intros Hempty. rewrite Hns, Hempty.
    change (if (String.length EmptyString =? 0)%nat then "ci-op-{id}" else EmptyString)
      with (Join ["ci-op-"; EmptyString] "{id}").
    rewrite Replace_Join by (repeat constructor).
    cbn [Join]. now rewrite append_empty_r.
  - intros Hne Hnone. rewrite Hns, (Hgiven Hne).
    apply (Replace_Join (inputHash inputs) [namespace o]).
    repeat constructor. exact Hnone.
  - intros Hne pieces Hpieces Hjoin. rewrite Hns, (Hgiven Hne), Hjoin.
    apply Replace_Join, Hpieces.
Qed.
End ResolveInputs.

(** ** Run *)

Lemma bind_Ok {Env A B} (m : M Env A) (k : A -> M Env B) (w w' : world Env) (b : B) :
  bind m k w = (Ok b, w') ->
  exists a w1, m w = (Ok a, w1) /\ k a w1 = (Ok b, w').
Proof.
  unfold bind. destruct (m w) as [[a|e|msg|] w1]; try discriminate.
  intros Hk. eauto.
Qed.

Section RunProperties.
Context `{StepAPI} `{!Platform}.

Lemma inputDefinition_inv (o : options) (steps : list Step) (w w1 : world Env)
    (inputs : InputDefinition) :
  inputDefinition o steps w = (Ok inputs, w1) ->
  exists definitions configText,
    eachInputs steps (dry o) w = (Ok definitions, w1) /\
    json_Marshal (configSpec o) = (configText, None) /\
    inputs = List.concat definitions ++ [configText].
Proof.
  unfold inputDefinition, bind at 1. rewrite stepInputs_eachInputs. unfold bind, ret.
  destruct (eachInputs steps (dry o) w) as [[definitions|e|msg|] w2]; try discriminate.
  destruct (json_Marshal (configSpec o)) as [configText [err|]]; [discriminate|].
  cbn. intros [= <- <-]. exists definitions, configText. auto.
Qed.

(** The options that [runSteps] returns are those that [resolveInputs] made
    from all the build steps. *)
Lemma runSteps_inv (fuel : nat) (o o' : options) (buildSteps postSteps : list Step)
    (w w' : world Env) :
  runSteps fuel o buildSteps postSteps w = (Ok o', w') ->
  exists w1, resolveInputs o buildSteps w = (Ok o', w1).
Proof.
  unfold runSteps. intros Hrun.
  apply bind_Ok in Hrun. destruct Hrun as (o1 & w1 & Hres & Hrun).
  apply bind_Ok in Hrun. destruct Hrun as (nodes & w2 & _ & Hrun).
  apply bind_Ok in Hrun. destruct Hrun as (? & w3 & _ & Hrun).
  apply bind_Ok in Hrun. destruct Hrun as (? & w4 & _ & Hrun).
  apply bind_Ok in Hrun. destruct Hrun as (? & w5 & _ & Hrun).
  injection Hrun as <- <-. eauto.
Qed.

(** What [runSteps] does once the inputs are resolved is [runResolved] with
    the options that [resolveInputs] returned. *)
Lemma runSteps_resolved (fuel : nat) (o o1 : options) (buildSteps postSteps : list Step)
    (w w2 : world Env) :
  resolveInputs o buildSteps w = (Ok o1, w2) ->
  runSteps fuel o buildSteps postSteps w = runResolved fuel o1 buildSteps postSteps w2.
Proof. intros Hres. unfold runSteps, bind at 1. now rewrite Hres. Qed.

Lemma runResolved_returns (fuel : nat) (o o' : options) (buildSteps postSteps : list Step)
    (w w' : world Env) :
  runResolved fuel o buildSteps postSteps w = (Ok o', w') -> o' = o.
Proof.
  unfold runResolved. intros Hrun.
  apply bind_Ok in Hrun. destruct Hrun as (nodes & w2 & _ & Hrun).
  apply bind_Ok in Hrun. destruct Hrun as (? & w3 & _ & Hrun).
  apply bind_Ok in Hrun. destruct Hrun as (? & w4 & _ & Hrun).
  apply bind_Ok in Hrun. destruct Hrun as (? & w5 & _ & Hrun).
  now injection Hrun as <- _.
Qed.

(** C1, as the code has it.  Once [steps.FromConfig] has returned its
    steps, the input definition behind the identifier is built by asking
    every one of them, in that order, for its inputs, before the graph is
    pruned to the targets, and by adding the serialized configuration; the
    targets do not select the steps that are asked.  This holds of every run
    in which the steps answer and the configuration serializes, however the
    run ends afterwards: the identifier is stored, the job has its namespace,
    and the rest of [Run] (the pruning of the graph, the namespace, the steps)
    works with these options, which are also the options of a run that
    succeeds.  And a run that succeeds is such a run. *)
Theorem Run_resolves_all_steps (fuel : nat) (o : options) (w : world Env)
    (buildSteps postSteps : list Step) (e1 : Env) :
  FromConfig (configSpec o) (job w) (templates o) (writeParams o) (artifactDir o)
             (promote o) (clusterConfig o) (targets o) (env w) =
    ((buildSteps, postSteps), None, e1) ->
  (forall definitions configText w1,
     eachInputs buildSteps (dry o) (World e1 (job w) (logged w)) = (Ok definitions, w1) ->
     json_Marshal (configSpec o) = (configText, None) ->
     exists o1 w2,
       resolveInputs o buildSteps (World e1 (job w) (logged w)) = (Ok o1, w2) /\
       opt_inputHash o1 = inputHash (List.concat definitions ++ [configText]) /\
       job_namespace (job w2) = namespace o1 /\
       targets o1 = targets o /\
       Run fuel o w =
         defer (runResolved fuel o1 buildSteps postSteps)
               (fun w' => logf ("Ran for " +:+ ranFor (env w')) w') w2 /\
       forall o' w', Run fuel o w = (Ok o', w') -> o' = o1) /\
  (forall o' w',
     Run fuel o w = (Ok o', w') ->
     exists definitions configText w1,
       eachInputs buildSteps (dry o) (World e1 (job w) (logged w)) = (Ok definitions, w1) /\
       json_Marshal (configSpec o) = (configText, None) /\
       opt_inputHash o' = inputHash (List.concat definitions ++ [configText])).
Proof.
  intros Hfrom.
  assert (Hbody : forall o1 w2,
            resolveInputs o buildSteps (World e1 (job w) (logged w)) = (Ok o1, w2) ->
            Run fuel o w =
              defer (runResolved fuel o1 buildSteps postSteps)
                    (fun w' => logf ("Ran for " +:+ ranFor (env w')) w') w2).
  { intros o1 w2 Hres. unfold Run, defer.
    unfold bind at 1, getJob. unfold bind at 1, inEnv. rewrite Hfrom.
    now rewrite (runSteps_resolved fuel o o1 buildSteps postSteps _ w2 Hres). }
  split.
  - intros definitions configText w1 Heach Hjson.
    destruct (resolveInputs_stores o buildSteps _ w1 definitions configText Heach Hjson)
      as (o1 & w2 & Hres & Hhash).
    destruct (resolveInputs_inv o o1 buildSteps _ w2 Hres)
      as (_ & _ & _ & _ & _ & Hjob & Htargets & _).
    exists o1, w2. repeat (split; [assumption|]). split; [now apply Hbody|].
    intros o' w' Hrun. rewrite (Hbody o1 w2 Hres) in Hrun. unfold defer in Hrun.
    destruct (runResolved fuel o1 buildSteps postSteps w2) as [r w3] eqn:Hrest.
    injection Hrun as -> _. now apply runResolved_returns in Hrest.
  - intros o' w' Hrun. unfold Run, defer in Hrun.
    match type of Hrun with
    | context [let '(_, _) := ?t in _] => destruct t as [r w2] eqn:Hbody'
    end.
    injection Hrun as -> <-.
    unfold bind at 1, getJob in Hbody'. unfold bind at 1, inEnv in Hbody'.
    rewrite Hfrom in Hbody'.
    apply runSteps_inv in Hbody'. destruct Hbody' as (w1 & Hres).
    apply resolveInputs_inv in Hres.
    destruct Hres as (inputs & w3 & Hdef & Hhash & _).
    apply inputDefinition_inv in Hdef.
    destruct Hdef as (definitions & configText & Heach & Hjson & ->).
    exists definitions, configText, w3. auto.
Qed.

(** C10.  In dry mode [initializeNamespace] returns nil at once: no call is
    made to the cluster, and the environment, the job and the log are what
    they were. *)
Theorem initializeNamespace_dry (fuel : nat) (o : options) (w : world Env) :
  dry o = true -> initializeNamespace fuel o w = (Ok tt, w).
Proof. intros Hdry. unfold initializeNamespace. rewrite Hdry. reflexivity. Qed.

(** C8.  Once [steps.Run] has returned, an error of [writeJUnit] (or none)
    only decides whether a warning is logged: what [Run] goes on to return
    is the error of [steps.Run] when there is one, and otherwise what the
    post steps return. *)
Theorem writeJUnit_error_is_logged (o : options) (nodes : list StepNode)
    (postSteps : list Step) (w w1 w2 : world Env)
    (suites : option TestSuites) (err jerr : option error) :
  stepsRun nodes (dry o) w = (Ok (suites, err), w1) ->
  errOf (writeJUnit o suites "operator") w1 = (Ok jerr, w2) ->
  execute o nodes postSteps w =
    let w3 :=
      match jerr with
      | Some e =>
          World (env w2) (job w2)
                (logged w2 ++ ["warning: Unable to write JUnit result: " +:+ err_msg e])
      | None => w2
      end in
    match err with
    | Some e => (Err e, w3)
    | None => runPostSteps postSteps (dry o) w3
    end.
Proof.
  intros Hsteps Hjunit. unfold execute, bind at 1. rewrite Hsteps.
  unfold bind at 1. rewrite Hjunit.
  destruct jerr as [e|]; destruct err as [e'|]; reflexivity.
Qed.
End RunProperties.

(** ** The graph under the roots *)

Lemma elem_of_flat_map {A B} (f : A -> list B) (l : list A) (y : B) :
  y ∈ flat_map f l <-> exists x, x ∈ l /\ y ∈ f x.
Proof.
  rewrite list_elem_of_In, in_flat_map.
  split; intros (x & Hx & Hy); exists x; now rewrite ?list_elem_of_In in *.
Qed.

Lemma elem_of_map {A B} (f : A -> B) (l : list A) (y : B) :
  y ∈ map f l <-> exists x, x ∈ l /\ y = f x.
Proof.
  rewrite list_elem_of_In, in_map_iff.
  split; intros (x & Hx & Hy); exists x; now rewrite ?list_elem_of_In in *.
Qed.

Section Graph.
Context `{StepAPI}.

Lemma subNodes_unfold (n m : StepNode) :
  m ∈ subNodes n <-> m = n \/ exists c, c ∈ Children n /\ m ∈ subNodes c.
Proof.
  destruct n as [s children]. cbn [subNodes Children].
  now rewrite elem_of_cons, elem_of_flat_map.
Qed.

Lemma subNodes_self (n : StepNode) : n ∈ subNodes n.
Proof. apply subNodes_unfold. now left. Qed.

Lemma subNodes_trans (n m c : StepNode) :
  m ∈ subNodes n -> c ∈ subNodes m -> c ∈ subNodes n.
Proof.
  revert m c. induction n as [s children IH] using StepNode_children_ind.
  intros m c Hm Hc. apply subNodes_unfold in Hm.
  destruct Hm as [-> | (k & Hk & Hm)]; [exact Hc|].
  apply subNodes_unfold. right. exists k. split; [exact Hk|].
  rewrite Forall_forall in IH. apply (IH k Hk) with (m := m); assumption.
Qed.

(** Below a node, a property of the node that passes from a node to its
    children holds everywhere. *)
Lemma subNodes_closed (P : StepNode -> Prop) (n : StepNode) :
  P n ->
  (forall p c, p ∈ subNodes n -> P p -> c ∈ Children p -> P c) ->
  forall m, m ∈ subNodes n -> P m.
Proof.
  induction n as [s children IH] using StepNode_children_ind.
  intros Hn Hstep m Hm. apply subNodes_unfold in Hm.
  destruct Hm as [-> | (k & Hk & Hm)]; [exact Hn|].
  rewrite Forall_forall in IH.
  apply (IH k Hk); [ | | exact Hm].
  - apply (Hstep (mkStepNode s children)); [apply subNodes_self | exact Hn | exact Hk].
  - intros p c Hp. apply Hstep.
    apply subNodes_unfold. right. exists k. split; assumption.
Qed.

Lemma subNodes_parent (n m : StepNode) :
  m ∈ subNodes n -> m = n \/ exists p, p ∈ subNodes n /\ m ∈ Children p.
Proof.
  intros Hm.
  apply (subNodes_closed
           (fun m => m = n \/ exists p, p ∈ subNodes n /\ m ∈ Children p) n);
    [now left | | exact Hm].
  intros p c Hp _ Hc. right. exists p. split; assumption.
Qed.

Lemma graphNodes_root (roots : list StepNode) (r : StepNode) :
  r ∈ roots -> r ∈ graphNodes roots.
Proof. intros Hr. apply elem_of_flat_map. exists r. split; [exact Hr | apply subNodes_self]. Qed.

Lemma graphNodes_child (roots : list StepNode) (p c : StepNode) :
  p ∈ graphNodes roots -> c ∈ Children p -> c ∈ graphNodes roots.
Proof.
  intros Hp Hc. apply elem_of_flat_map in Hp. destruct Hp as (r & Hr & Hp).
  apply elem_of_flat_map. exists r. split; [exact Hr|].
  apply (subNodes_trans r p c Hp).
  apply subNodes_unfold. right. exists c. split; [exact Hc | apply subNodes_self].
Qed.

Lemma graphNodes_parent (roots : list StepNode) (n : StepNode) :
  n ∈ graphNodes roots ->
  n ∈ roots \/ exists p, p ∈ graphNodes roots /\ n ∈ Children p.
Proof.
  intros Hn. apply elem_of_flat_map in Hn. destruct Hn as (r & Hr & Hn).
  destruct (subNodes_parent r n Hn) as [-> | (p & Hp & Hc)]; [now left|].
  right. exists p. split; [|exact Hc].
  apply elem_of_flat_map. exists r. split; assumption.
Qed.

(** Induction along the graph, from the roots down. *)
Lemma graphNodes_closed (P : StepNode -> Prop) (roots : list StepNode) :
  (forall r, r ∈ roots -> P r) ->
  (forall p c, p ∈ graphNodes roots -> P p -> c ∈ Children p -> P c) ->
  forall n, n ∈ graphNodes roots -> P n.
Proof.
  intros Hroots Hstep n Hn.
  apply elem_of_flat_map in Hn. destruct Hn as (r & Hr & Hn).
  apply (subNodes_closed P r); [now apply Hroots | | exact Hn].
  intros p c Hp. apply Hstep.
  apply elem_of_flat_map. exists r. split; assumption.
Qed.
End Graph.

(** ** topologicalSort *)

Section Sorting.
Context `{StepAPI}.

(** The three ways a visit goes: the step is seen already; it waits for a
    link; it is sorted. *)
Lemma visit_cases (p : passState) (node : StepNode) :
  let waiting1 :=
    waiting p ++ filter (fun child => nodeStep child ∉ seen (vars p)) (Children node) in
  (nodeStep node ∈ seen (vars p) /\
   visit p node = mkPassState (vars p) (changed p) waiting1) \/
  ((nodeStep node ∉ seen (vars p)) /\
   HasAllLinks (Requires (nodeStep node)) (satisfied (vars p)) = false /\
   visit p node = mkPassState (vars p) (changed p) (waiting1 ++ [node])) \/
  ((nodeStep node ∉ seen (vars p)) /\
   HasAllLinks (Requires (nodeStep node)) (satisfied (vars p)) = true /\
   visit p node =
     mkPassState
       (mkSortState (sortedNodes (vars p) ++ [node])
                    (satisfied (vars p) ++ Creates (nodeStep node))
                    ({[nodeStep node]} ∪ seen (vars p)))
       true waiting1).
Proof.
  intros waiting1. unfold visit. fold waiting1.
  destruct (bool_decide (nodeStep node ∈ seen (vars p))) eqn:Hseen.
  - left. split; [now apply bool_decide_eq_true in Hseen | reflexivity].
  - apply bool_decide_eq_false in Hseen. right.
    destruct (HasAllLinks (Requires (nodeStep node)) (satisfied (vars p))) eqn:Hready.
    + right. auto.
    + left. auto.
Qed.

Lemma createsOf_app (l k : list StepNode) : createsOf (l ++ k) = createsOf l ++ createsOf k.
Proof. unfold createsOf. apply flat_map_app. Qed.

Lemma linearization_snoc (l : list StepNode) (node : StepNode) :
  linearization l ->
  HasAllLinks (Requires (nodeStep node)) (createsOf l) = true ->
  linearization (l ++ [node]).
Proof.
  intros Hl Hnode before n after Heq.
  destruct after as [|x after _] using rev_ind.
  - apply app_inj_tail in Heq. destruct Heq as [<- <-]. exact Hnode.
  - rewrite app_comm_cons, app_assoc in Heq.
    apply app_inj_tail in Heq. destruct Heq as [-> _].
    now apply (Hl before n after).
Qed.

Lemma HasAllLinks_true (required satisfied : list StepLink) :
  HasAllLinks required satisfied = true <->
  forall link, link ∈ required -> link ∈ satisfied.
Proof.
  unfold HasAllLinks. rewrite forallb_forall. split.
  - intros Hall link Hlink. apply list_elem_of_In in Hlink.
    exact (bool_decide_eq_true_1 _ (Hall link Hlink)).
  - intros Hall link Hlink.
    apply bool_decide_eq_true_2, Hall. now apply list_elem_of_In.
Qed.

Variable roots : list StepNode.

Lemma sortInv_init : sortInv roots (mkSortState [] [] ∅).
Proof.
  constructor; cbn.
  - reflexivity.
  - intros s. rewrite elem_of_nil. split; [apply not_elem_of_empty | tauto].
  - constructor.
  - intros [|x before] node after Heq; discriminate Heq.
  - intros n Hn. now apply elem_of_nil in Hn.
Qed.

Lemma visit_inv (p : passState) (node : StepNode) :
  sortInv roots (vars p) ->
  (forall m, m ∈ waiting p -> m ∈ graphNodes roots) ->
  node ∈ graphNodes roots ->
  sortInv roots (vars (visit p node)) /\
  (forall m, m ∈ waiting (visit p node) -> m ∈ graphNodes roots).
Proof.
  intros Hinv Hwait Hnode.
  assert (Hwait1 : forall m,
    m ∈ waiting p ++ filter (fun child => nodeStep child ∉ seen (vars p)) (Children node) ->
    m ∈ graphNodes roots).
  { intros m Hm. apply elem_of_app in Hm. destruct Hm as [Hm | Hm]; [now apply Hwait|].
    apply list_elem_of_filter in Hm. destruct Hm as [_ Hm].
    now apply (graphNodes_child roots node m). }
  destruct (visit_cases p node) as [(Hseen & ->) | [(Hseen & Hready & ->) | (Hseen & Hready & ->)]];
    cbn [vars waiting].
  - auto.
  - split; [exact Hinv|]. intros m Hm. apply elem_of_app in Hm.
    destruct Hm as [Hm | Hm]; [now apply Hwait1|].
    apply list_elem_of_singleton in Hm. now subst m.
  - split; [|exact Hwait1]. destruct Hinv as [Hsat Hs Hnd Hlin Hg].
    constructor; cbn [sortedNodes satisfied seen].
    + rewrite createsOf_app, Hsat. unfold createsOf at 3. cbn. now rewrite app_nil_r.
    + intros s. rewrite map_app, elem_of_app, elem_of_union, elem_of_singleton, Hs.
      cbn [map]. rewrite list_elem_of_singleton. tauto.
    + rewrite map_app. apply NoDup_app. split; [exact Hnd|]. split; [|apply NoDup_singleton].
      intros s Hin Hs'. apply list_elem_of_singleton in Hs'. subst s.
      now apply Hseen, Hs.
    + apply linearization_snoc; [exact Hlin | now rewrite <- Hsat].
    + intros n Hn. apply elem_of_app in Hn. destruct Hn as [Hn | Hn]; [now apply Hg|].
      apply list_elem_of_singleton in Hn. now subst n.
Qed.

Lemma fold_visit_inv (nodes : list StepNode) (p : passState) :
  sortInv roots (vars p) ->
  (forall m, m ∈ waiting p -> m ∈ graphNodes roots) ->
  (forall m, m ∈ nodes -> m ∈ graphNodes roots) ->
  sortInv roots (vars (fold_left visit nodes p)) /\
  (forall m, m ∈ waiting (fold_left visit nodes p) -> m ∈ graphNodes roots).
Proof.
  revert p. induction nodes as [|node nodes IH]; intros p Hinv Hwait Hnodes; [auto|].
  cbn [fold_left].
  destruct (visit_inv p node Hinv Hwait) as [Hinv' Hwait'].
  { apply Hnodes. now left. }
  apply IH; [assumption..|]. intros m Hm. apply Hnodes. now right.
Qed.

(** A visit that leaves [changed] false has sorted nothing, and what it put
    in [waiting] are steps that are not seen. *)
Lemma visit_unchanged (p : passState) (node : StepNode) :
  changed (visit p node) = false ->
  changed p = false /\ vars (visit p node) = vars p /\
  (nodeStep node ∈ seen (vars p) \/
   HasAllLinks (Requires (nodeStep node)) (satisfied (vars p)) = false).
Proof.
  destruct (visit_cases p node) as [(Hseen & ->) | [(Hseen & Hready & ->) | (Hseen & Hready & ->)]];
    cbn [vars changed]; intros Hch; [auto | auto | discriminate].
Qed.

Lemma visit_waiting (p : passState) (node m : StepNode) :
  m ∈ waiting (visit p node) -> m ∈ waiting p \/ nodeStep m ∉ seen (vars p).
Proof.
  destruct (visit_cases p node) as [(Hseen & ->) | [(Hseen & Hready & ->) | (Hseen & Hready & ->)]];
    cbn [waiting]; rewrite ?elem_of_app, ?list_elem_of_filter, ?list_elem_of_singleton;
    intros Hm; intuition (subst; auto).
Qed.

Lemma fold_visit_unchanged (nodes : list StepNode) (p : passState) :
  changed (fold_left visit nodes p) = false ->
  changed p = false /\ vars (fold_left visit nodes p) = vars p /\
  (forall n, n ∈ nodes ->
     nodeStep n ∈ seen (vars p) \/
     HasAllLinks (Requires (nodeStep n)) (satisfied (vars p)) = false) /\
  (forall m, m ∈ waiting (fold_left visit nodes p) ->
     m ∈ waiting p \/ nodeStep m ∉ seen (vars p)).
Proof.
  revert p. induction nodes as [|node nodes IH]; intros p Hch; cbn [fold_left] in *.
  - repeat split; auto. intros n Hn. now apply elem_of_nil in Hn.
  - destruct (IH _ Hch) as (Hch1 & Hvars & Hnodes & Hwait).
    destruct (visit_unchanged p node Hch1) as (Hch0 & Hvars0 & Hnode).
    rewrite Hvars0 in *. repeat split; auto.
    + intros n Hn. apply elem_of_cons in Hn. destruct Hn as [-> | Hn]; auto.
    + intros m Hm. destruct (Hwait m Hm) as [Hm' | Hm']; [|now right].
      apply visit_waiting in Hm'. exact Hm'.
Qed.

(** The sorted nodes only grow, and they have grown when [changed] has
    become true. *)
Lemma fold_visit_length (nodes : list StepNode) (p : passState) :
  length (sortedNodes (vars p)) <= length (sortedNodes (vars (fold_left visit nodes p))) /\
  (changed (fold_left visit nodes p) = true ->
   changed p = true \/
   length (sortedNodes (vars p)) < length (sortedNodes (vars (fold_left visit nodes p)))).
Proof.
  revert p. induction nodes as [|node nodes IH]; intros p; cbn [fold_left].
  - split; [lia | auto].
  - destruct (IH (visit p node)) as [Hle Hlt].
    destruct (visit_cases p node) as [(Hseen & Heq) | [(Hseen & Hready & Heq) | (Hseen & Hready & Heq)]];
      rewrite Heq in *; cbn [vars changed sortedNodes] in *.
    + auto.
    + auto.
    + rewrite length_app in *. cbn [length] in *. split; [lia|]. intros _. right. lia.
Qed.

Lemma sortInv_length (st : sortState) :
  sortInv roots st -> length (sortedNodes st) <= length (graphNodes roots).
Proof.
  intros [_ _ Hnd _ Hg].
  rewrite <- (length_map nodeStep (sortedNodes st)), <- (length_map nodeStep (graphNodes roots)).
  apply submseteq_length, NoDup_submseteq; [exact Hnd|].
  intros s Hs. apply elem_of_map in Hs. destruct Hs as (n & Hn & ->).
  apply elem_of_map. exists n. split; [now apply Hg | reflexivity].
Qed.

(** The loop ends within its budget, whatever the nodes: a pass that does
    not end the loop sorts a step that was not sorted, and there are no more
    steps than nodes in the graph. *)
Lemma sortLoop_finishes (fuel : nat) (nodes : list StepNode) (st : sortState) :
  sortInv roots st ->
  (forall m, m ∈ nodes -> m ∈ graphNodes roots) ->
  length (graphNodes roots) - length (sortedNodes st) < fuel ->
  sortLoop fuel nodes st <> Unfinished.
Proof.
  revert nodes st. induction fuel as [|fuel IH]; intros nodes st Hinv Hnodes Hfuel; [lia|].
  destruct nodes as [|node nodes]; [discriminate|].
  cbn [sortLoop]. fold (pass (node :: nodes) st).
  destruct (fold_visit_inv (node :: nodes) (mkPassState st false []) Hinv) as [Hinv' Hwait'];
    [intros m Hm; now apply elem_of_nil in Hm | exact Hnodes |].
  fold (pass (node :: nodes) st) in Hinv', Hwait'.
  destruct (negb (changed (pass (node :: nodes) st)) &&
            (0 <? length (waiting (pass (node :: nodes) st)))) eqn:Hstuck; [discriminate|].
  destruct (changed (pass (node :: nodes) st)) eqn:Hch.
  - apply IH; [assumption..|].
    destruct (fold_visit_length (node :: nodes) (mkPassState st false [])) as [_ Hlt].
    fold (pass (node :: nodes) st) in Hlt. cbn [vars changed] in Hlt.
    destruct (Hlt Hch) as [Hfalse | Hlt']; [discriminate|].
    pose proof (sortInv_length _ Hinv'). lia.
  - cbn [negb andb] in Hstuck. apply Nat.ltb_ge in Hstuck.
    destruct (waiting (pass (node :: nodes) st)); [|cbn in Hstuck; lia].
    destruct fuel; discriminate.
Qed.
End Sorting.

Section Linearization.
Context `{StepAPI}.
Variable roots : list StepNode.

Lemma visit_frontier (p : passState) (node : StepNode) (todo : list StepNode) :
  oneNodePerStep roots ->
  node ∈ graphNodes roots ->
  frontier roots (vars p) (waiting p) (node :: todo) ->
  frontier roots (vars (visit p node)) (waiting (visit p node)) todo.
Proof.
  intros Hone Hnode [Hroots Hchildren].
  destruct (visit_cases p node) as [(Hseen & ->) | [(Hseen & Hready & ->) | (Hseen & Hready & ->)]];
    unfold frontier; cbn [vars waiting seen]; split.
  - intros r Hr Hunseen. destruct (Hroots r Hr Hunseen) as [Hw | Hw].
    + left. apply elem_of_app. now left.
    + apply elem_of_cons in Hw. destruct Hw as [-> | Hw]; [contradiction | now right].
  - intros q c Hq Hqseen Hc Hunseen.
    destruct (Hchildren q c Hq Hqseen Hc Hunseen) as [Hw | Hw].
    + left. apply elem_of_app. now left.
    + apply elem_of_cons in Hw. destruct Hw as [-> | Hw]; [contradiction | now right].
  - intros r Hr Hunseen. destruct (Hroots r Hr Hunseen) as [Hw | Hw].
    + left. rewrite !elem_of_app. auto.
    + apply elem_of_cons in Hw. destruct Hw as [-> | Hw]; [|now right].
      left. rewrite !elem_of_app, list_elem_of_singleton. auto.
  - intros q c Hq Hqseen Hc Hunseen.
    destruct (Hchildren q c Hq Hqseen Hc Hunseen) as [Hw | Hw].
    + left. rewrite !elem_of_app. auto.
    + apply elem_of_cons in Hw. destruct Hw as [-> | Hw]; [|now right].
      left. rewrite !elem_of_app, list_elem_of_singleton. auto.
  - intros r Hr Hunseen.
    assert (Hunseen0 : nodeStep r ∉ seen (vars p)).
    { intros Hin. apply Hunseen, elem_of_union. now right. }
    destruct (Hroots r Hr Hunseen0) as [Hw | Hw].
    + left. apply elem_of_app. now left.
    + apply elem_of_cons in Hw. destruct Hw as [-> | Hw]; [|now right].
      exfalso. apply Hunseen, elem_of_union. left. now apply elem_of_singleton.
  - intros q c Hq Hqseen Hc Hunseen.
    assert (Hunseen0 : nodeStep c ∉ seen (vars p)).
    { intros Hin. apply Hunseen, elem_of_union. now right. }
    apply elem_of_union in Hqseen. destruct Hqseen as [Hqnode | Hqseen].
    + apply elem_of_singleton in Hqnode.
      assert (q = node) as -> by now apply Hone.
      left. apply elem_of_app. right. apply list_elem_of_filter. auto.
    + destruct (Hchildren q c Hq Hqseen Hc Hunseen0) as [Hw | Hw].
      * left. apply elem_of_app. now left.
      * apply elem_of_cons in Hw. destruct Hw as [-> | Hw]; [|now right].
        exfalso. apply Hunseen, elem_of_union. left. now apply elem_of_singleton.
Qed.

Lemma fold_visit_frontier (nodes : list StepNode) (p : passState) :
  oneNodePerStep roots ->
  (forall m, m ∈ nodes -> m ∈ graphNodes roots) ->
  frontier roots (vars p) (waiting p) nodes ->
  frontier roots (vars (fold_left visit nodes p)) (waiting (fold_left visit nodes p)) [].
Proof.
  intros Hone. revert p. induction nodes as [|node nodes IH]; intros p Hnodes Hfront; [exact Hfront|].
  cbn [fold_left]. apply IH.
  - intros m Hm. apply Hnodes. now right.
  - apply visit_frontier; [exact Hone | apply Hnodes; now left | exact Hfront].
Qed.

(** When nothing waits and nothing is left to visit, every node of the
    graph has its step seen. *)
Lemma frontier_done (st : sortState) :
  frontier roots st [] [] ->
  forall n, n ∈ graphNodes roots -> nodeStep n ∈ seen st.
Proof.
  intros [Hroots Hchildren]. apply graphNodes_closed.
  - intros r Hr. destruct (decide (nodeStep r ∈ seen st)) as [|Hunseen]; [assumption|].
    destruct (Hroots r Hr Hunseen) as [Hw | Hw]; now apply elem_of_nil in Hw.
  - intros p c Hp Hpseen Hc.
    destruct (decide (nodeStep c ∈ seen st)) as [|Hunseen]; [assumption|].
    destruct (Hchildren p c Hp Hpseen Hc Hunseen) as [Hw | Hw]; now apply elem_of_nil in Hw.
Qed.

(** In a ranked graph, a pass that changes nothing has nothing left to
    sort: a node of least rank among those not seen would be in the pass
    and would have all it requires. *)
Lemma unchanged_all_seen (rank : Step -> nat) (nodes : list StepNode) (st : sortState) :
  ranked roots rank ->
  sortInv roots st ->
  frontier roots st [] nodes ->
  changed (pass nodes st) = false ->
  forall n, n ∈ graphNodes roots -> nodeStep n ∈ seen st.
Proof.
  intros [Hrank_child Hrank_link] Hinv [Hroots Hchildren] Hch.
  destruct (fold_visit_unchanged nodes (mkPassState st false []) Hch)
    as (_ & _ & Hnodes & _). cbn [vars] in Hnodes.
  intros n. remember (rank (nodeStep n)) as k eqn:Hk. revert n Hk.
  induction k as [k IH] using lt_wf_ind. intros n Hk Hn.
  destruct (decide (nodeStep n ∈ seen st)) as [|Hunseen]; [assumption|]. exfalso.
  assert (Hin : n ∈ nodes).
  { destruct (graphNodes_parent roots n Hn) as [Hr | (p & Hp & Hc)].
    - destruct (Hroots n Hr Hunseen) as [Hw | Hw]; [now apply elem_of_nil in Hw | exact Hw].
    - assert (Hpseen : nodeStep p ∈ seen st).
      { apply (IH (rank (nodeStep p))); [|reflexivity | exact Hp].
        rewrite Hk. now apply Hrank_child. }
      destruct (Hchildren p n Hp Hpseen Hc Hunseen) as [Hw | Hw];
        [now apply elem_of_nil in Hw | exact Hw]. }
  destruct (Hnodes n Hin) as [Hseen | Hwaits]; [contradiction|].
  assert (Hready : HasAllLinks (Requires (nodeStep n)) (satisfied st) = true).
  { apply HasAllLinks_true. intros link Hlink.
    destruct (Hrank_link n link Hn Hlink) as (m & Hm & Hcreates & Hlt).
    assert (Hmseen : nodeStep m ∈ seen st).
    { apply (IH (rank (nodeStep m))); [now rewrite Hk | reflexivity | exact Hm]. }
    apply (inv_seen roots st Hinv) in Hmseen.
    apply elem_of_map in Hmseen. destruct Hmseen as (m' & Hm' & Heq).
    rewrite (inv_satisfied roots st Hinv). unfold createsOf.
    apply elem_of_flat_map. exists m'. split; [exact Hm' | now rewrite <- Heq]. }
  congruence.
Qed.

Lemma frontier_swap (st : sortState) (l k : list StepNode) :
  frontier roots st l k -> frontier roots st k l.
Proof.
  intros [Hroots Hchildren]. split.
  - intros r Hr Hu. destruct (Hroots r Hr Hu); auto.
  - intros p c Hp Hs Hc Hu. destruct (Hchildren p c Hp Hs Hc Hu); auto.
Qed.

(** The loop on a ranked graph with one node per step: it ends with every
    node sorted. *)
Lemma sortLoop_complete (rank : Step -> nat) (fuel : nat) (nodes : list StepNode)
    (st : sortState) :
  oneNodePerStep roots ->
  ranked roots rank ->
  sortInv roots st ->
  (forall m, m ∈ nodes -> m ∈ graphNodes roots) ->
  frontier roots st nodes [] ->
  length (graphNodes roots) - length (sortedNodes st) < fuel ->
  exists st',
    sortLoop fuel nodes st = Sorted (sortedNodes st') /\
    sortInv roots st' /\ frontier roots st' [] [].
Proof.
  intros Hone Hranked. revert nodes st.
  induction fuel as [|fuel IH]; intros nodes st Hinv Hnodes Hfront Hfuel; [lia|].
  destruct nodes as [|node nodes]; [exists st; auto|].
  cbn [sortLoop]. fold (pass (node :: nodes) st).
  destruct (fold_visit_inv roots (node :: nodes) (mkPassState st false []) Hinv)
    as [Hinv' Hwait'];
    [intros m Hm; now apply elem_of_nil in Hm | exact Hnodes |].
  pose proof (fold_visit_frontier (node :: nodes) (mkPassState st false []) Hone Hnodes
                (frontier_swap _ _ _ Hfront)) as Hfront'.
  fold (pass (node :: nodes) st) in Hinv', Hwait', Hfront'.
  destruct (changed (pass (node :: nodes) st)) eqn:Hch; cbn [negb andb].
  - apply IH; [assumption..|].
    destruct (fold_visit_length (node :: nodes) (mkPassState st false [])) as [_ Hlt].
    fold (pass (node :: nodes) st) in Hlt. cbn [vars changed] in Hlt.
    destruct (Hlt Hch) as [Hfalse | Hlt']; [discriminate|].
    pose proof (sortInv_length roots _ Hinv'). lia.
  - pose proof (unchanged_all_seen rank (node :: nodes) st Hranked Hinv
                  (frontier_swap _ _ _ Hfront) Hch) as Hall.
    destruct (fold_visit_unchanged (node :: nodes) (mkPassState st false []) Hch)
      as (_ & Hvars & _ & Hunseen).
    fold (pass (node :: nodes) st) in Hvars, Hunseen. cbn [vars waiting] in Hvars, Hunseen.
    destruct (waiting (pass (node :: nodes) st)) as [|m rest] eqn:Hw.
    + exists (vars (pass (node :: nodes) st)). cbn [length Nat.ltb Nat.leb].
      split; [destruct fuel; reflexivity | auto].
    + exfalso. destruct (Hunseen m) as [Hm | Hm]; [now left | now apply elem_of_nil in Hm |].
      apply Hm, Hall, Hwait'. now left.
Qed.

(** C5.  On an acyclic graph of step nodes in which what every node
    requires can be produced ([ranked]), with one node for a step,
    [topologicalSort] returns without an error, and what it returns is a
    valid linearization that holds every step once and has the nodes under
    the roots, no more and no fewer, as its members. *)
Theorem topologicalSort_linearizes (rank : Step -> nat) :
  oneNodePerStep roots ->
  ranked roots rank ->
  exists sorted,
    (forall w : world Env, topologicalSort roots w = (Ok sorted, w)) /\
    linearization sorted /\
    NoDup (map nodeStep sorted) /\
    (forall n, n ∈ sorted <-> n ∈ graphNodes roots).
Proof.
  intros Hone Hranked.
  destruct (sortLoop_complete rank (sortBudget roots) roots (mkSortState [] [] ∅) Hone Hranked)
    as (st' & Hsort & Hinv & Hfront).
  - apply sortInv_init.
  - apply graphNodes_root.
  - split.
    + intros r Hr _. now left.
    + intros p c _ Hp. cbn [seen] in Hp. now apply not_elem_of_empty in Hp.
  - unfold sortBudget. cbn [sortedNodes length]. lia.
  - exists (sortedNodes st'). split; [|split; [|split]].
    + intros w. unfold topologicalSort, sortOf. rewrite Hsort. reflexivity.
    + apply (inv_linear roots st' Hinv).
    + apply (inv_nodup roots st' Hinv).
    + intros n. split; [apply (inv_graph roots st' Hinv)|].
      intros Hn. pose proof (frontier_done st' Hfront n Hn) as Hseen.
      apply (inv_seen roots st' Hinv), elem_of_map in Hseen.
      destruct Hseen as (m & Hm & Heq).
      assert (n = m) as -> by (apply Hone; [exact Hn | now apply (inv_graph roots st' Hinv) | exact Heq]).
      exact Hm.
Qed.
End Linearization.

Section VisitOrder.
Context `{StepAPI}.

(** What a run of visits adds to the sorted nodes: a sublist of the visited
    nodes, in their order, each one not seen before and with all it
    requires satisfied by then. *)
Lemma fold_visit_emits (nodes : list StepNode) (p : passState) :
  exists l,
    sortedNodes (vars (fold_left visit nodes p)) = sortedNodes (vars p) ++ l /\
    satisfied (vars (fold_left visit nodes p)) = satisfied (vars p) ++ createsOf l /\
    (forall s, s ∈ seen (vars (fold_left visit nodes p)) <->
               s ∈ seen (vars p) \/ s ∈ map nodeStep l) /\
    l `sublist_of` nodes /\
    (forall before node after,
       l = before ++ node :: after ->
       (nodeStep node ∉ seen (vars p)) /\
       (nodeStep node ∉ map nodeStep before) /\
       HasAllLinks (Requires (nodeStep node)) (satisfied (vars p) ++ createsOf before) = true).
Proof.
  revert p. induction nodes as [|n nodes IH]; intros p; cbn [fold_left].
  - exists []. rewrite !app_nil_r. repeat split; auto.
    + intros [Hs | Hs]; [exact Hs | now apply elem_of_nil in Hs].
    + destruct before; discriminate.
    + destruct before; discriminate.
    + destruct before; discriminate.
  - destruct (IH (visit p n)) as (l & Hsorted & Hsat & Hseen & Hsub & Hsplit).
    destruct (visit_cases p n) as [(Hn & Heq) | [(Hn & Hready & Heq) | (Hn & Hready & Heq)]];
      rewrite Heq in *; cbn [vars sortedNodes satisfied seen] in *.
    + exists l. split; [exact Hsorted|]. split; [exact Hsat|]. split; [exact Hseen|].
      split; [now apply sublist_cons | exact Hsplit].
    + exists l. split; [exact Hsorted|]. split; [exact Hsat|]. split; [exact Hseen|].
      split; [now apply sublist_cons | exact Hsplit].
    + exists (n :: l). rewrite <- !app_assoc in *. cbn [app] in *.
      split; [exact Hsorted|]. split.
      { rewrite Hsat. unfold createsOf. cbn [flat_map]. now rewrite app_assoc. }
      split.
      { intros s. rewrite Hseen, elem_of_union, elem_of_singleton. cbn [map].
        rewrite elem_of_cons. tauto. }
      split; [now apply sublist_skip|].
      intros before node after Hl. destruct before as [|b before].
      * injection Hl as <- _. cbn [createsOf flat_map map]. rewrite app_nil_r.
        split; [exact Hn|]. split; [apply not_elem_of_nil | exact Hready].
      * injection Hl as <- Hl. destruct (Hsplit before node after Hl) as (Hu & Hb & Hr).
        split; [|split].
        -- intros Hin. apply Hu, elem_of_union. now right.
        -- cbn [map]. rewrite elem_of_cons. intros [Hnode | Hin]; [|contradiction].
           apply Hu, elem_of_union. left. now apply elem_of_singleton.
        -- unfold createsOf in *. cbn [flat_map]. now rewrite <- app_assoc in Hr.
Qed.

(** A node that a run of visits leaves with its step not seen did not have
    all it requires when the run began. *)
Lemma fold_visit_leaves (nodes : list StepNode) (p : passState) (node : StepNode) :
  node ∈ nodes ->
  nodeStep node ∈ seen (vars (fold_left visit nodes p)) \/
  HasAllLinks (Requires (nodeStep node)) (satisfied (vars p)) = false.
Proof.
  revert p. induction nodes as [|n nodes IH]; intros p Hin; [now apply elem_of_nil in Hin|].
  cbn [fold_left]. apply elem_of_cons in Hin.
  destruct (fold_visit_emits nodes (visit p n)) as (l & _ & _ & Hseen & _).
  destruct Hin as [-> | Hin].
  - destruct (visit_cases p n) as [(Hn & Heq) | [(Hn & Hready & Heq) | (Hn & Hready & Heq)]].
    + left. apply Hseen. left. now rewrite Heq.
    + now right.
    + left. apply Hseen. left. rewrite Heq. cbn [vars seen].
      apply elem_of_union. left. now apply elem_of_singleton.
  - destruct (IH (visit p n) Hin) as [Hs | Hwaits]; [now left|]. right.
    destruct (visit_cases p n) as [(Hn & Heq) | [(Hn & Hready & Heq) | (Hn & Hready & Heq)]];
      rewrite Heq in Hwaits; cbn [vars satisfied] in Hwaits; try exact Hwaits.
    destruct (HasAllLinks (Requires (nodeStep node)) (satisfied (vars p))) eqn:Hall;
      [|reflexivity].
    rewrite <- Hwaits. symmetry. apply HasAllLinks_true. intros link Hlink.
    apply elem_of_app. left. revert link Hlink. now apply HasAllLinks_true.
Qed.

(** [topologicalSort] returns, with the nodes or with its error, whatever
    the nodes are: the budget of [sortOf] is never used up. *)
Lemma sortOf_finishes (nodes : list StepNode) : sortOf nodes <> Unfinished.
Proof.
  unfold sortOf, sortBudget. apply (sortLoop_finishes nodes).
  - apply sortInv_init.
  - apply graphNodes_root.
  - cbn [sortedNodes length]. lia.
Qed.

Lemma printExecutionOrder_log (nodes ordered : list StepNode) (w : world Env) :
  sortOf nodes = Sorted ordered ->
  printExecutionOrder nodes w =
    (Ok tt, World (env w) (job w)
                  (logged w ++ ["Running " +:+ Join (nodeNames ordered) ", "])).
Proof.
  intros Hsort. unfold printExecutionOrder, topologicalSort, bind. rewrite Hsort. reflexivity.
Qed.

(** What a visit does to the variables of the sort depends on them alone. *)
Lemma visit_vars (p q : passState) (node : StepNode) :
  vars p = vars q -> vars (visit p node) = vars (visit q node).
Proof.
  intros Hvars. unfold visit. rewrite Hvars.
  destruct (bool_decide _); [reflexivity|]. now destruct (negb _).
Qed.

Lemma fold_visit_vars (nodes : list StepNode) :
  forall p q, vars p = vars q -> vars (fold_left visit nodes p) = vars (fold_left visit nodes q).
Proof.
  induction nodes as [|n nodes IH]; intros p q Hvars; cbn [fold_left]; [exact Hvars|].
  apply IH. now apply visit_vars.
Qed.

Lemma pass_app (before after : list StepNode) (st : sortState) :
  vars (pass (before ++ after) st) = vars (pass after (vars (pass before st))).
Proof. unfold pass. rewrite fold_left_app. now apply fold_visit_vars. Qed.

Lemma pass_sorted (nodes : list StepNode) (st : sortState) :
  sortedNodes (vars (pass nodes st)) = sortedNodes st ++ emitted nodes st /\
  satisfied (vars (pass nodes st)) = satisfied st ++ createsOf (emitted nodes st) /\
  (forall s, s ∈ seen (vars (pass nodes st)) <->
             s ∈ seen st \/ s ∈ map nodeStep (emitted nodes st)).
Proof.
  destruct (fold_visit_emits nodes (mkPassState st false []))
    as (l & Hsorted & Hsat & Hseen & _).
  cbn [vars] in Hsorted, Hsat, Hseen.
  assert (Hl : emitted nodes st = l).
  { unfold emitted, pass. rewrite Hsorted. apply drop_app_length. }
  rewrite Hl. auto.
Qed.

Lemma emitted_app (before after : list StepNode) (st : sortState) :
  emitted (before ++ after) st =
  emitted before st ++ emitted after (vars (pass before st)).
Proof.
  unfold emitted at 1. rewrite pass_app.
  rewrite (proj1 (pass_sorted after _)), (proj1 (pass_sorted before st)).
  rewrite <- app_assoc. apply drop_app_length.
Qed.

Lemma emitted_one (node : StepNode) (st : sortState) :
  emitted [node] st =
  if bool_decide (nodeStep node ∉ seen st) &&
     HasAllLinks (Requires (nodeStep node)) (satisfied st)
  then [node] else [].
Proof.
  unfold emitted, pass. cbn [fold_left].
  destruct (visit_cases (mkPassState st false []) node)
    as [(Hn & Heq) | [(Hn & Hready & Heq) | (Hn & Hready & Heq)]];
    rewrite Heq; cbn [vars sortedNodes] in *.
  - rewrite bool_decide_eq_false_2 by (intros Hnot; now apply Hnot).
    cbn [andb]. apply drop_all.
  - rewrite Hready, andb_false_r. apply drop_all.
  - rewrite Hready, bool_decide_eq_true_2 by exact Hn. cbn [andb]. apply drop_app_length.
Qed.

(** C6, as the code has it.  A pass visits the nodes in the order of its
    list and sorts a node at its visit when its step is not seen and all it
    requires is satisfied by then, the links of the nodes sorted earlier in
    the same pass included: the nodes that a pass sorts are a sublist of the
    list it visits, in that order, and no order by name is applied; a visited
    node that had all it requires when the pass began has its step sorted
    when the pass ends; the line that is logged names the sorted nodes in the
    order they were sorted.  And visit by visit: what the pass has sorted up
    to a node and that node is what it had sorted before it, and then that
    node exactly when its step was not seen when the pass began, is not the
    step of a node sorted earlier in the pass, and all it requires is among
    the links satisfied when the pass began or created by the nodes sorted
    earlier in the pass; this stays the beginning of what the pass sorts. *)
Theorem pass_emits_in_visit_order (nodes : list StepNode) (st : sortState) :
  sortedNodes (vars (pass nodes st)) = sortedNodes st ++ emitted nodes st /\
  emitted nodes st `sublist_of` nodes /\
  (forall before node after,
     emitted nodes st = before ++ node :: after ->
     (nodeStep node ∉ seen st) /\
     (nodeStep node ∉ map nodeStep before) /\
     HasAllLinks (Requires (nodeStep node)) (satisfied st ++ createsOf before) = true) /\
  (forall node,
     node ∈ nodes ->
     HasAllLinks (Requires (nodeStep node)) (satisfied st) = true ->
     nodeStep node ∈ seen (vars (pass nodes st))) /\
  (forall ordered (w : world Env),
     sortOf nodes = Sorted ordered ->
     printExecutionOrder nodes w =
       (Ok tt, World (env w) (job w)
                     (logged w ++ ["Running " +:+ Join (nodeNames ordered) ", "]))) /\
  (forall before node after,
     nodes = before ++ node :: after ->
     emitted (before ++ [node]) st =
       emitted before st ++
       (if bool_decide (nodeStep node ∉ seen st) &&
           bool_decide (nodeStep node ∉ map nodeStep (emitted before st)) &&
           HasAllLinks (Requires (nodeStep node))
                       (satisfied st ++ createsOf (emitted before st))
        then [node] else []) /\
     emitted (before ++ [node]) st `prefix_of` emitted nodes st).
Proof.
  destruct (fold_visit_emits nodes (mkPassState st false []))
    as (l & Hsorted & _ & _ & Hsub & Hsplit).
  cbn [vars] in Hsorted, Hsplit.
  assert (Hl : emitted nodes st = l).
  { unfold emitted, pass. rewrite Hsorted. apply drop_app_length. }
  rewrite Hl. split; [exact Hsorted|]. split; [exact Hsub|]. split; [exact Hsplit|].
  split.
  - intros node Hnode Hready.
    destruct (fold_visit_leaves nodes (mkPassState st false []) node Hnode) as [Hs | Hwaits];
      [exact Hs|].
    cbn [vars] in Hwaits. congruence.
  - split; [intros ordered w; apply printExecutionOrder_log|].
    intros before node after Hnodes. split.
    + rewrite emitted_app, emitted_one.
      destruct (pass_sorted before st) as (_ & -> & Hseen').
      assert (Hcond :
        bool_decide (nodeStep node ∉ seen (vars (pass before st))) =
        bool_decide (nodeStep node ∉ seen st) &&
        bool_decide (nodeStep node ∉ map nodeStep (emitted before st))).
      { rewrite <- bool_decide_and. apply bool_decide_ext. rewrite Hseen'. tauto. }
      now rewrite Hcond.
    + exists (emitted after (vars (pass (before ++ [node]) st))).
      rewrite <- Hl, Hnodes, <- emitted_app. now rewrite <- app_assoc.
Qed.
End VisitOrder.

(** ** The hypotheses of the linearization, computed *)

Section Checks.
Context `{StepAPI}.

Lemma sameNode_eq (n m : StepNode) : sameNode n m = true -> n = m.
Proof.
  revert m. induction n as [s children IH] using StepNode_children_ind.
  intros [t others]. cbn [sameNode].
  intros Hsame. apply andb_prop in Hsame. destruct Hsame as [Hstep Hchildren].
  apply bool_decide_eq_true_1 in Hstep. subst t. f_equal.
  revert others Hchildren. induction IH as [|c children Hc _ IHchildren]; intros [|d others] Hall;
    try discriminate; [reflexivity|].
  apply andb_prop in Hall. destruct Hall as [Hhead Htail].
  f_equal; [now apply Hc | now apply IHchildren].
Qed.

Lemma oneNodePerStepb_sound (roots : list StepNode) :
  oneNodePerStepb roots = true -> oneNodePerStep roots.
Proof.
  unfold oneNodePerStepb. rewrite forallb_forall. intros Hall n m Hn Hm Heq.
  apply list_elem_of_In in Hn, Hm.
  specialize (Hall n Hn). rewrite forallb_forall in Hall. specialize (Hall m Hm).
  rewrite (bool_decide_eq_true_2 _ Heq) in Hall. now apply sameNode_eq.
Qed.

Lemma rankedb_sound (roots : list StepNode) (rank : Step -> nat) :
  rankedb roots rank = true -> ranked roots rank.
Proof.
  unfold rankedb. rewrite forallb_forall. intros Hall. split.
  - intros p c Hp Hc. apply list_elem_of_In in Hp, Hc.
    specialize (Hall p Hp). apply andb_prop in Hall. destruct Hall as [Hchildren _].
    rewrite forallb_forall in Hchildren. now apply Nat.ltb_lt, Hchildren.
  - intros n link Hn Hlink. apply list_elem_of_In in Hn, Hlink.
    specialize (Hall n Hn). apply andb_prop in Hall. destruct Hall as [_ Hlinks].
    rewrite forallb_forall in Hlinks. specialize (Hlinks link Hlink).
    apply existsb_exists in Hlinks. destruct Hlinks as (m & Hm & Hcheck).
    apply andb_prop in Hcheck. destruct Hcheck as [Hcreates Hlt].
    exists m. split; [now apply list_elem_of_In|]. split.
    + now apply bool_decide_eq_true_1 in Hcreates.
    + now apply Nat.ltb_lt.
Qed.
End Checks.

(** ** The properties on the small world *)

Import Example.

Lemma resolveInputs_definition_witness :
  eachInputs config (dry (opts true)) world0 = (Ok (map stepInputs config), world0) /\
  json_Marshal (configSpec (opts true)) = ("src,build,test,lint", None) /\
  inputDefinition (opts true) config world0 =
    (Ok ["commit 4f2a91"; "base sha256:77c1"; "linter v2"; "src,build,test,lint"], world0).
Proof.
  split; [reflexivity|]. split; [reflexivity|].
  exact (proj1 (@resolveInputs_definition types stepAPI platform (opts true) config
                  world0 world0 (map stepInputs config) "src,build,test,lint"
                  (eq_refl : eachInputs config (dry (opts true)) world0 = _) eq_refl)).
Defined.

Lemma inputHash_deterministic_witness :
  opts true <> optsTemplate /\ config <> [merged] /\ world0 <> world1 /\
  exists o1' o2' v1 v2,
    resolveInputs (opts true) config world0 = (Ok o1', v1) /\
    resolveInputs optsTemplate [merged] world1 = (Ok o2', v2) /\
    opt_inputHash o1' = opt_inputHash o2' /\
    opt_inputHash o1' =
      inputHash (List.concat (map stepInputs config) ++ ["src,build,test,lint"]).
Proof.
  split; [discriminate|]. split; [discriminate|]. split; [discriminate|].
  exact (@inputHash_deterministic types stepAPI platform (opts true) optsTemplate
           config [merged] world0 world0 world1 world1
           (map stepInputs config) [stepInputs merged] "src,build,test,lint"
           (eq_refl : eachInputs config (dry (opts true)) world0 = _)
           (eq_refl : eachInputs [merged] (dry optsTemplate) world1 = _)
           eq_refl eq_refl eq_refl).
Defined.

Lemma resolveInputs_namespace_witness :
  resolveInputs optsTemplate config world0 = (Ok resolvedOptions, resolvedWorld) /\
  namespace optsTemplate = Join ["team-"; "-x-"; EmptyString] "{id}" /\
  namespace resolvedOptions =
    Join ["team-"; "-x-"; EmptyString] (opt_inputHash resolvedOptions) /\
  namespace resolvedOptions = "team-qf9v43ix-x-qf9v43ix".
Proof.
  assert (Hres : resolveInputs optsTemplate config world0 = (Ok resolvedOptions, resolvedWorld))
    by (vm_compute; reflexivity).
  split; [exact Hres|]. split; [reflexivity|]. split; [|reflexivity].
  exact (proj2 (proj2 (@resolveInputs_namespace types stepAPI platform optsTemplate
                         resolvedOptions config world0 resolvedWorld Hres))
           ltac:(discriminate) ["team-"; "-x-"; EmptyString]
           ltac:(repeat constructor) eq_refl).
Defined.

Lemma Run_resolves_all_steps_witness :
  @FromConfig types Cases.forbiddenCluster
     (configSpec (opts false)) (job world0) (templates (opts false))
     (writeParams (opts false)) (artifactDir (opts false)) (promote (opts false))
     (clusterConfig (opts false)) (targets (opts false)) (env world0) =
    ((config, []), None, []) /\
  eachInputs config (dry (opts false)) (World [] (job world0) (logged world0)) =
    (Ok [["commit 4f2a91"]; ["base sha256:77c1"]; []; ["linter v2"]], world0) /\
  @json_Marshal types Cases.forbiddenCluster (configSpec (opts false)) =
    ("src,build,test,lint", None) /\
  targets (opts false) = ["test"] /\
  (exists e w', @Run types stepAPI Cases.forbiddenCluster 6 (opts false) world0 = (Err e, w')) /\
  exists o1 w2,
    @resolveInputs types stepAPI Cases.forbiddenCluster (opts false) config
       (World [] (job world0) (logged world0)) = (Ok o1, w2) /\
    opt_inputHash o1 =
      inputHash (List.concat [["commit 4f2a91"]; ["base sha256:77c1"]; []; ["linter v2"]] ++
                 ["src,build,test,lint"]) /\
    job_namespace (job w2) = namespace o1 /\
    targets o1 = targets (opts false) /\
    @Run types stepAPI Cases.forbiddenCluster 6 (opts false) world0 =
      defer (@runResolved types stepAPI Cases.forbiddenCluster 6 o1 config [])
            (fun w' => logf ("Ran for " +:+ @ranFor types Cases.forbiddenCluster (env w')) w')
            w2 /\
    forall o' w',
      @Run types stepAPI Cases.forbiddenCluster 6 (opts false) world0 = (Ok o', w') -> o' = o1.
Proof.
  split; [reflexivity|]. split; [reflexivity|]. split; [reflexivity|].
  split; [reflexivity|]. split.
  - eexists _, _. vm_compute. reflexivity.
  - exact (proj1 (@Run_resolves_all_steps types stepAPI Cases.forbiddenCluster 6 (opts false)
                    world0 config [] [] eq_refl)
             [["commit 4f2a91"]; ["base sha256:77c1"]; []; ["linter v2"]]
             "src,build,test,lint" world0 eq_refl eq_refl).
Defined.

(** C1, as it is claimed, fails here: the target is [test], whose closure
    is [src], [build], [test]; the identifier that [Run] stores is the hash
    of a definition that holds the input of [lint] too, and is not the hash
    of the definition that the closure gives. *)
Lemma Run_resolves_pruned_counterexample :
  targets (opts true) <> [] /\
  ancestorClosure config (targets (opts true)) = [src; build; test] /\
  inputDefinition (opts true) (ancestorClosure config (targets (opts true))) world0 =
    (Ok ["commit 4f2a91"; "base sha256:77c1"; "src,build,test,lint"], world0) /\
  Run 1 (opts true) world0 = (Ok ranOptions, ranWorld) /\
  opt_inputHash ranOptions =
    inputHash ["commit 4f2a91"; "base sha256:77c1"; "linter v2"; "src,build,test,lint"] /\
  opt_inputHash ranOptions <>
    inputHash ["commit 4f2a91"; "base sha256:77c1"; "src,build,test,lint"].
Proof.
  split; [discriminate|]. split; [vm_compute; reflexivity|].
  split; [vm_compute; reflexivity|]. split; [vm_compute; reflexivity|].
  split; [vm_compute; reflexivity|]. vm_compute. discriminate.
Defined.

Lemma initializeNamespace_dry_witness :
  dry (opts true) = true /\
  initializeNamespace 5 (opts true) world0 = (Ok tt, world0) /\
  env (snd (initializeNamespace 5 (opts false) world0)) <> env world0.
Proof.
  split; [reflexivity|]. split.
  - exact (@initializeNamespace_dry types platform 5 (opts true) world0 eq_refl).
  - vm_compute. discriminate.
Defined.

Lemma writeJUnit_error_is_logged_witness :
  writeJUnit (opts true) (Some suites0) "operator" (World ["steps.Run"] job0 []) =
    (Err (Errorf "open /tmp/artifacts/junit_operator.xml: read-only file system"),
     World ["steps.Run"; "write /tmp/artifacts/junit_operator.xml"] job0 []) /\
  execute (opts true) diamond [] world0 =
    (Ok tt,
     World ["steps.Run"; "write /tmp/artifacts/junit_operator.xml"] job0
           ["warning: Unable to write JUnit result: open /tmp/artifacts/junit_operator.xml: read-only file system"]).
Proof.
  split; [vm_compute; reflexivity|].
  exact (@writeJUnit_error_is_logged types stepAPI platform (opts true) diamond [] world0
           (World ["steps.Run"] job0 [])
           (World ["steps.Run"; "write /tmp/artifacts/junit_operator.xml"] job0 [])
           (Some suites0) None
           (Some (Errorf "open /tmp/artifacts/junit_operator.xml: read-only file system"))
           ltac:(vm_compute; reflexivity) ltac:(vm_compute; reflexivity)).
Defined.

Lemma topologicalSort_linearizes_witness :
  oneNodePerStep diamond /\ ranked diamond diamondRank /\
  exists sorted,
    (forall w : world Env, topologicalSort diamond w = (Ok sorted, w)) /\
    linearization sorted /\
    NoDup (map nodeStep sorted) /\
    (forall n, n ∈ sorted <-> n ∈ graphNodes diamond).
Proof.
  assert (Hone : oneNodePerStep diamond)
    by (apply oneNodePerStepb_sound; vm_compute; reflexivity).
  assert (Hranked : ranked diamond diamondRank)
    by (apply rankedb_sound; vm_compute; reflexivity).
  split; [exact Hone|]. split; [exact Hranked|].
  exact (@topologicalSort_linearizes types stepAPI diamond diamondRank Hone Hranked).
Defined.

Lemma pass_emits_in_visit_order_witness :
  sortOf Cases.chain = Sorted Cases.chain /\
  emitted Cases.chain (mkSortState [] [] ∅) `sublist_of` Cases.chain /\
  printExecutionOrder Cases.chain world0 =
    (Ok tt, World [] job0 ["Running src, build, lint"]) /\
  emitted Cases.chain (mkSortState [] [] ∅) = Cases.chain /\
  emitted (firstn 1 Cases.chain) (mkSortState [] [] ∅) = firstn 1 Cases.chain /\
  HasAllLinks (Requires build) [] = false /\
  emitted (firstn 1 Cases.chain ++ [mkStepNode build []]) (mkSortState [] [] ∅) =
    emitted (firstn 1 Cases.chain) (mkSortState [] [] ∅) ++
    (if bool_decide (build ∉ (∅ : gset step)) &&
        bool_decide (build ∉ map nodeStep (emitted (firstn 1 Cases.chain)
                                                    (mkSortState [] [] ∅))) &&
        HasAllLinks (Requires build)
          ([] ++ createsOf (emitted (firstn 1 Cases.chain) (mkSortState [] [] ∅)))
     then [mkStepNode build []] else []) /\
  emitted (firstn 1 Cases.chain ++ [mkStepNode build []]) (mkSortState [] [] ∅)
    `prefix_of` emitted Cases.chain (mkSortState [] [] ∅).
Proof.
  assert (Hsort : sortOf Cases.chain = Sorted Cases.chain) by (vm_compute; reflexivity).
  pose proof (@pass_emits_in_visit_order types stepAPI Cases.chain (mkSortState [] [] ∅))
    as (_ & Hsub & _ & _ & Hlog & Hvisit).
  split; [exact Hsort|]. split; [exact Hsub|].
  split; [exact (Hlog Cases.chain world0 Hsort)|].
  split; [vm_compute; reflexivity|].
  split; [vm_compute; reflexivity|]. split; [vm_compute; reflexivity|].
  exact (Hvisit (firstn 1 Cases.chain) (mkStepNode build []) (skipn 2 Cases.chain) eq_refl).
Defined.

(** C6, as it is claimed, fails here: [src] and [lint] need nothing, so
    both are sorted in the first pass; they are sorted in the order of the
    list, [src] before [lint], which is not the order of their names. *)
Lemma pass_name_order_counterexample :
  Forall (fun node =>
            (nodeStep node ∉ (∅ : gset step)) /\
            HasAllLinks (Requires (nodeStep node)) [] = true) unordered /\
  nodeNames (emitted unordered (mkSortState [] [] ∅)) = ["src"; "lint"] /\
  nameOrdered (nodeNames (emitted unordered (mkSortState [] [] ∅))) = false /\
  nameOrdered ["lint"; "src"] = true /\
  printExecutionOrder unordered world0 = (Ok tt, World [] job0 ["Running src, lint"]).
Proof.
  split.
  - repeat constructor; apply not_elem_of_empty.
  - repeat split; vm_compute; reflexivity.
Defined.

(** * More properties *)

(** ** topologicalSort, whatever the graph *)

Section SortOutcome.
Context `{StepAPI}.

(** What the loop returns as sorted comes with the invariant, and, in a
    graph with one node per step, with an empty frontier. *)
Lemma sortLoop_Sorted_inv (roots : list StepNode) (fuel : nat) (nodes : list StepNode)
    (st : sortState) (sorted : list StepNode) :
  sortInv roots st ->
  (forall m, m ∈ nodes -> m ∈ graphNodes roots) ->
  sortLoop fuel nodes st = Sorted sorted ->
  exists st',
    sorted = sortedNodes st' /\ sortInv roots st' /\
    (oneNodePerStep roots -> frontier roots st nodes [] -> frontier roots st' [] []).
Proof.
  revert nodes st. induction fuel as [|fuel IH]; intros nodes st Hinv Hnodes Hsort.
  - destruct nodes as [|node nodes]; [|discriminate Hsort].
    injection Hsort as <-. exists st. auto.
  - destruct nodes as [|node nodes].
    + injection Hsort as <-. exists st. auto.
    + cbn [sortLoop] in Hsort. fold (pass (node :: nodes) st) in Hsort.
      destruct (fold_visit_inv roots (node :: nodes) (mkPassState st false []) Hinv)
        as [Hinv' Hwait'];
        [intros m Hm; now apply elem_of_nil in Hm | exact Hnodes |].
      fold (pass (node :: nodes) st) in Hinv', Hwait'.
      destruct (negb (changed (pass (node :: nodes) st)) &&
                (0 <? length (waiting (pass (node :: nodes) st)))); [discriminate Hsort|].
      destruct (IH _ _ Hinv' Hwait' Hsort) as (st' & Hsorted & Hinv'' & Hfront'').
      exists st'. split; [exact Hsorted|]. split; [exact Hinv''|].
      intros Hone Hfront. apply Hfront''; [exact Hone|].
      apply (fold_visit_frontier roots (node :: nodes) (mkPassState st false []) Hone Hnodes).
      now apply frontier_swap.
Qed.

Lemma sortOf_Sorted_inv (roots sorted : list StepNode) :
  sortOf roots = Sorted sorted ->
  exists st',
    sorted = sortedNodes st' /\ sortInv roots st' /\
    (oneNodePerStep roots -> frontier roots st' [] []).
Proof.
  intros Hsort.
  destruct (sortLoop_Sorted_inv roots (sortBudget roots) roots (mkSortState [] [] ∅) sorted)
    as (st' & Hsorted & Hinv & Hfront).
  - apply sortInv_init.
  - apply graphNodes_root.
  - exact Hsort.
  - exists st'. split; [exact Hsorted|]. split; [exact Hinv|].
    intros Hone. apply Hfront; [exact Hone|]. split.
    + intros r Hr _. now left.
    + intros p c _ Hp. cbn [seen] in Hp. now apply not_elem_of_empty in Hp.
Qed.

(** The lines for the nodes that wait: they are added to the log, one for
    each link that each node requires, and nothing else changes. *)
Lemma logMissingLinks_log (node : StepNode) (links missing satisfied : list StepLink)
    (w : world Env) :
  exists lines,
    logMissingLinks node links missing satisfied w =
      (Ok tt, World (env w) (job w) (logged w ++ lines)) /\
    length lines = length links.
Proof.
  revert missing w. induction links as [|link links IH]; intros missing w.
  - exists []. cbn. rewrite app_nil_r. destruct w. auto.
  - cbn [logMissingLinks]. unfold bind, logf.
    match goal with
    | |- context [logMissingLinks node links ?m satisfied ?w1] =>
        destruct (IH m w1) as (lines & Hlog & Hlen)
    end.
    eexists (_ :: lines). rewrite Hlog. cbn [env job logged].
    rewrite <- app_assoc. split; [reflexivity | cbn; now rewrite Hlen].
Qed.

Lemma logMissing_log (waiting : list StepNode) (satisfied : list StepLink) (w : world Env) :
  exists lines,
    logMissing waiting satisfied w = (Ok tt, World (env w) (job w) (logged w ++ lines)) /\
    length lines = length (flat_map (fun node => Requires (nodeStep node)) waiting).
Proof.
  revert w. induction waiting as [|node waiting IH]; intros w.
  - exists []. cbn. rewrite app_nil_r. destruct w. auto.
  - cbn [logMissing flat_map]. unfold bind.
    destruct (logMissingLinks_log node (Requires (nodeStep node)) [] satisfied w)
      as (lines1 & Hlog1 & Hlen1).
    rewrite Hlog1.
    destruct (IH (World (env w) (job w) (logged w ++ lines1))) as (lines2 & Hlog2 & Hlen2).
    rewrite Hlog2. cbn [env job logged]. exists (lines1 ++ lines2).
    rewrite <- app_assoc, !length_app, Hlen1, Hlen2. auto.
Qed.

Lemma topologicalSort_outcome (nodes : list StepNode) (w : world Env) :
  (exists sorted, sortOf nodes = Sorted sorted /\ topologicalSort nodes w = (Ok sorted, w)) \/
  (exists waiting satisfied lines,
     sortOf nodes = Missing waiting satisfied /\
     topologicalSort nodes w =
       (Err (Errorf "steps are missing dependencies"),
        World (env w) (job w) (logged w ++ lines)) /\
     length lines = length (flat_map (fun node => Requires (nodeStep node)) waiting)).
Proof.
  unfold topologicalSort.
  destruct (sortOf nodes) as [sorted | waiting satisfied |] eqn:Hsort.
  - left. exists sorted. auto.
  - right. destruct (logMissing_log waiting satisfied w) as (lines & Hlog & Hlen).
    exists waiting, satisfied, lines. unfold bind. rewrite Hlog. auto.
  - now apply sortOf_finishes in Hsort.
Qed.

(** X1.  [topologicalSort] returns for every list of nodes, cyclic or not: it
    gives the sorted nodes and leaves the world as it was, or it gives the
    error [steps are missing dependencies] after adding lines to the log, one
    for each link required by each node that was still waiting, with the
    environment, the job and the earlier lines untouched. *)
Theorem topologicalSort_returns (nodes : list StepNode) (w : world Env) :
  (exists sorted, sortOf nodes = Sorted sorted /\ topologicalSort nodes w = (Ok sorted, w)) \/
  (exists waiting satisfied lines,
     sortOf nodes = Missing waiting satisfied /\
     topologicalSort nodes w =
       (Err (Errorf "steps are missing dependencies"),
        World (env w) (job w) (logged w ++ lines)) /\
     length lines = length (flat_map (fun node => Requires (nodeStep node)) waiting)).
Proof.
  destruct (topologicalSort_outcome nodes w) as [Hsorted | Hmissing]; [left | right]; assumption.
Qed.

(** X2.  Whatever the graph, what [topologicalSort] returns without an error
    is a valid linearization (each node after the nodes that create what it
    requires), holds no step twice, and holds only nodes found under the
    roots. *)
Theorem topologicalSort_sound (roots sorted : list StepNode) (w w' : world Env) :
  topologicalSort roots w = (Ok sorted, w') ->
  linearization sorted /\
  NoDup (map nodeStep sorted) /\
  (forall n, n ∈ sorted -> n ∈ graphNodes roots) /\
  w' = w.
Proof.
  intros Hsort.
  destruct (topologicalSort_outcome roots w)
    as [(sorted' & Hof & Heq) | (waiting & satisfied & lines & _ & Heq & _)];
    rewrite Heq in Hsort; [|discriminate Hsort].
  injection Hsort as -> ->.
  destruct (sortOf_Sorted_inv roots sorted Hof) as (st' & -> & Hinv & _).
  split; [apply (inv_linear roots st' Hinv)|].
  split; [apply (inv_nodup roots st' Hinv)|].
  split; [apply (inv_graph roots st' Hinv) | reflexivity].
Qed.
End SortOutcome.

Section SortVerdict.
Context `{StepAPI}.

(** In a valid linearization there is no node of a set of steps that closes
    on itself: a first node of the set would require a link that only nodes
    of the set create, and none of them comes before it. *)
Lemma linearization_avoids (P : Step -> Prop) (l : list StepNode) :
  linearization l ->
  (forall n, n ∈ l -> P (nodeStep n) ->
     exists link, link ∈ Requires (nodeStep n) /\
       forall m, m ∈ l -> link ∈ Creates (nodeStep m) -> P (nodeStep m)) ->
  forall n, n ∈ l -> ~ P (nodeStep n).
Proof.
  induction l as [|x l IH] using rev_ind; intros Hlin Hclosed n Hn.
  - now apply elem_of_nil in Hn.
  - assert (Hl : forall y, y ∈ l -> ~ P (nodeStep y)).
    { apply IH.
      - intros before node after Heq. apply (Hlin before node (after ++ [x])).
        rewrite Heq, <- app_assoc. reflexivity.
      - intros y Hy HP. destruct (Hclosed y) as (link & Hlink & Hmakers);
          [apply elem_of_app; now left | exact HP |].
        exists link. split; [exact Hlink|]. intros m Hm. apply Hmakers.
        apply elem_of_app. now left. }
    apply elem_of_app in Hn. destruct Hn as [Hn | Hn]; [now apply Hl|].
    apply list_elem_of_singleton in Hn. subst n. intros HP.
    destruct (Hclosed x) as (link & Hlink & Hmakers);
      [apply elem_of_app; right; now apply list_elem_of_singleton | exact HP |].
    pose proof (Hlin l x [] eq_refl) as Hready.
    rewrite HasAllLinks_true in Hready. specialize (Hready link Hlink).
    unfold createsOf in Hready. apply elem_of_flat_map in Hready.
    destruct Hready as (m & Hm & Hcreates).
    apply (Hl m Hm), Hmakers; [apply elem_of_app; now left | exact Hcreates].
Qed.

(** X3.  In a graph with one node per step, when [topologicalSort] returns
    without an error every node under the roots is among the nodes it
    returns: a success never leaves a step out. *)
Theorem topologicalSort_complete (roots sorted : list StepNode) (w w' : world Env) :
  oneNodePerStep roots ->
  topologicalSort roots w = (Ok sorted, w') ->
  forall n, n ∈ graphNodes roots -> n ∈ sorted.
Proof.
  intros Hone Hsort n Hn.
  destruct (topologicalSort_outcome roots w)
    as [(sorted' & Hof & Heq) | (waiting & satisfied & lines & _ & Heq & _)];
    rewrite Heq in Hsort; [|discriminate Hsort].
  injection Hsort as -> _.
  destruct (sortOf_Sorted_inv roots sorted Hof) as (st' & -> & Hinv & Hfront).
  pose proof (frontier_done roots st' (Hfront Hone) n Hn) as Hseen.
  apply (inv_seen roots st' Hinv), elem_of_map in Hseen.
  destruct Hseen as (m & Hm & Heq').
  assert (n = m) as -> by (apply Hone; [exact Hn | now apply (inv_graph roots st' Hinv) | exact Heq']).
  exact Hm.
Qed.

(** X4.  In a graph with one node per step, [topologicalSort] returns its
    error as soon as the graph holds a set of steps that closes on itself:
    each node of the set requires a link that no node outside the set
    creates.  A step that requires a link nothing creates is one case, steps
    that wait for one another in a cycle another. *)
Theorem topologicalSort_detects_unproducible (roots : list StepNode) (P : Step -> Prop)
    (w : world Env) :
  oneNodePerStep roots ->
  (exists n, n ∈ graphNodes roots /\ P (nodeStep n)) ->
  (forall n, n ∈ graphNodes roots -> P (nodeStep n) ->
     exists link, link ∈ Requires (nodeStep n) /\
       forall m, m ∈ graphNodes roots -> link ∈ Creates (nodeStep m) -> P (nodeStep m)) ->
  exists w', topologicalSort roots w = (Err (Errorf "steps are missing dependencies"), w').
Proof.
  intros Hone (n & Hn & HP) Hclosed.
  destruct (topologicalSort_outcome roots w)
    as [(sorted & Hof & _) | (waiting & satisfied & lines & _ & Heq & _)]; [|eauto].
  exfalso.
  destruct (sortOf_Sorted_inv roots sorted Hof) as (st' & -> & Hinv & Hfront).
  pose proof (frontier_done roots st' (Hfront Hone) n Hn) as Hseen.
  apply (inv_seen roots st' Hinv), elem_of_map in Hseen.
  destruct Hseen as (m & Hm & Heq).
  apply (linearization_avoids P (sortedNodes st') (inv_linear roots st' Hinv)) with (n := m);
    [|exact Hm | now rewrite <- Heq].
  intros x Hx HPx.
  destruct (Hclosed x (inv_graph roots st' Hinv x Hx) HPx) as (link & Hlink & Hmakers).
  exists link. split; [exact Hlink|]. intros y Hy. apply Hmakers.
  now apply (inv_graph roots st' Hinv).
Qed.
End SortVerdict.

(** ** The namespace that resolveInputs leaves *)

(** The identifier, character by character. *)
Lemma inputHash_chars (inputs : InputDefinition) :
  exists c0 c1 c2 c3 c4 c5 c6 c7,
    inputHash inputs = string_of_list_ascii [c0; c1; c2; c3; c4; c5; c6; c7] /\
    Forall (fun c => c ∈ alphabet) [c0; c1; c2; c3; c4; c5; c6; c7].
Proof.
  destruct (firstn_5_of_32 (Sha256.Sum (flat_map bytes_of_string inputs)) (Sum_length _))
    as (b0 & b1 & b2 & b3 & b4 & Hfirst).
  unfold inputHash. rewrite writeInputs_app. cbn [Sha256.New app].
  rewrite Hfirst, EncodeToString_quantum. cbn [Base32.unpack map].
  eexists _, _, _, _, _, _, _, _. split; [reflexivity|].
  repeat (apply List.Forall_cons; [apply encodeChar_in_alphabet|]). apply List.Forall_nil.
Qed.

Lemma alphabet_plain (c : ascii) :
  c ∈ alphabet ->
  lowerOrDigit c = true /\ c <> "{"%char /\ c <> "}"%char /\ c <> "-"%char.
Proof.
  revert c. apply Forall_forall. repeat constructor; discriminate.
Qed.

Section Resolved.
Variable h : string.
Variables a b c : ascii.
Variable h' : string.
Hypothesis Hh : h = String a (String b (String c h')).
Hypothesis Hopen : forall x, x ∈ list_ascii_of_string h -> x <> "{"%char.
Hypothesis Hclose : forall x, x ∈ list_ascii_of_string h -> x <> "}"%char.

Lemma close_a : a <> "}"%char.
Proof. apply Hclose. rewrite Hh. cbn. apply elem_of_cons. now left. Qed.

Lemma close_b : b <> "}"%char.
Proof. apply Hclose. rewrite Hh. cbn. rewrite !elem_of_cons. auto. Qed.

Lemma close_c : c <> "}"%char.
Proof. apply Hclose. rewrite Hh. cbn. rewrite !elem_of_cons. auto. Qed.

Lemma replaced_prefix_1 (s : string) :
  String.prefix "}" (replaceFrom 0 s "{id}" h) = true -> String.prefix "}" s = true.
Proof.
  destruct s as [|x s]; [discriminate|]. cbn [replaceFrom].
  destruct (String.prefix "{id}" (String x s)).
  - rewrite Hh.
    change (String a (String b (String c h')) +:+ ?t)
      with (String a (String b (String c (h' +:+ t)))).
    cbn [String.prefix].
    destruct (ascii_dec "}" a) as [Heq|]; [|discriminate].
    exfalso. apply close_a. now symmetry.
  - cbn [String.prefix]. destruct (ascii_dec "}" x); [|discriminate].
    intros _. apply prefix_empty.
Qed.

Lemma replaced_prefix_2 (s : string) :
  String.prefix "d}" (replaceFrom 0 s "{id}" h) = true -> String.prefix "d}" s = true.
Proof.
  destruct s as [|x s]; [discriminate|]. cbn [replaceFrom].
  destruct (String.prefix "{id}" (String x s)).
  - rewrite Hh.
    change (String a (String b (String c h')) +:+ ?t)
      with (String a (String b (String c (h' +:+ t)))).
    cbn [String.prefix].
    destruct (ascii_dec "d" a); [|discriminate].
    destruct (ascii_dec "}" b) as [Heq|]; [|discriminate].
    exfalso. apply close_b. now symmetry.
  - change (String.prefix "d}" (String x ?t)) with
      (if ascii_dec "d" x then String.prefix "}" t else false).
    destruct (ascii_dec "d" x); [|discriminate]. apply replaced_prefix_1.
Qed.

Lemma replaced_prefix_3 (s : string) :
  String.prefix "id}" (replaceFrom 0 s "{id}" h) = true -> String.prefix "id}" s = true.
Proof.
  destruct s as [|x s]; [discriminate|]. cbn [replaceFrom].
  destruct (String.prefix "{id}" (String x s)).
  - rewrite Hh.
    change (String a (String b (String c h')) +:+ ?t)
      with (String a (String b (String c (h' +:+ t)))).
    cbn [String.prefix].
    destruct (ascii_dec "i" a); [|discriminate].
    destruct (ascii_dec "d" b); [|discriminate].
    destruct (ascii_dec "}" c) as [Heq|]; [|discriminate].
    exfalso. apply close_c. now symmetry.
  - change (String.prefix "id}" (String x ?t)) with
      (if ascii_dec "i" x then String.prefix "d}" t else false).
    destruct (ascii_dec "i" x); [|discriminate]. apply replaced_prefix_2.
Qed.

Lemma replaced_prefix (x : ascii) (s : string) :
  String.prefix "{id}" (String x s) = false ->
  String.prefix "{id}" (String x (replaceFrom 0 s "{id}" h)) = false.
Proof.
  change (String.prefix "{id}" (String x ?t)) with
    (if ascii_dec "{" x then String.prefix "id}" t else false).
  destruct (ascii_dec "{" x); [|reflexivity].
  intros Hs. destruct (String.prefix "id}" (replaceFrom 0 s "{id}" h)) eqn:Hr; [|reflexivity].
  apply replaced_prefix_3 in Hr. congruence.
Qed.

(** No placeholder begins in a text without [{]. *)
Lemma Contains_plain_app (p rest : string) :
  (forall x, x ∈ list_ascii_of_string p -> x <> "{"%char) ->
  Contains rest "{id}" = false ->
  Contains (p +:+ rest) "{id}" = false.
Proof.
  induction p as [|x p IH]; intros Hp Hrest; [exact Hrest|].
  change (String x p +:+ rest) with (String x (p +:+ rest)).
  cbn [Contains String.prefix].
  destruct (ascii_dec "{" x) as [Heq|].
  - exfalso. apply (Hp x); [cbn; apply elem_of_cons; now left | now symmetry].
  - apply IH; [|exact Hrest]. intros y Hy. apply Hp. cbn. apply elem_of_cons. now right.
Qed.

(** What [strings.Replace] returns holds no placeholder any more. *)
Lemma replaceFrom_resolved (skip : nat) (s : string) :
  Contains (replaceFrom skip s "{id}" h) "{id}" = false.
Proof.
  revert skip. induction s as [|x s IH]; intros skip; [reflexivity|].
  cbn [replaceFrom]. destruct skip as [|skip]; [|apply IH].
  destruct (String.prefix "{id}" (String x s)) eqn:Hp.
  - apply Contains_plain_app; [exact Hopen | apply IH].
  - cbn [Contains]. change (String.prefix "{id}" (String x (replaceFrom 0 s "{id}" h)) ||
                            Contains (replaceFrom 0 s "{id}" h) "{id}" = false).
    rewrite (replaced_prefix x s Hp), IH. reflexivity.
Qed.

Lemma replaceFrom_nonempty (s : string) :
  s <> EmptyString -> replaceFrom 0 s "{id}" h <> EmptyString.
Proof.
  destruct s as [|x s]; [congruence|]. intros _. cbn [replaceFrom].
  destruct (String.prefix "{id}" (String x s)); [|discriminate].
  rewrite Hh. discriminate.
Qed.
End Resolved.

Lemma inputHash_plain (inputs : InputDefinition) :
  String.length (inputHash inputs) = 8%nat /\
  (forall x, x ∈ list_ascii_of_string (inputHash inputs) -> x ∈ alphabet) /\
  exists a b c h', inputHash inputs = String a (String b (String c h')).
Proof.
  destruct (inputHash_chars inputs) as (c0 & c1 & c2 & c3 & c4 & c5 & c6 & c7 & -> & Hall).
  split; [reflexivity|]. split.
  - rewrite list_ascii_of_string_of_list_ascii. now apply Forall_forall.
  - eexists _, _, _, _. reflexivity.
Qed.

Section ResolvedNamespace.
Context `{StepAPI} `{!Platform}.

Lemma eachInputs_fails_at (before after : list Step) (step : Step) (dry : bool)
    (w w1 w2 : world Env) (definitions : list InputDefinition) (e : error) :
  eachInputs before dry w = (Ok definitions, w1) ->
  Inputs step dry w1 = (Err e, w2) ->
  eachInputs (before ++ step :: after) dry w = (Err e, w2).
Proof.
  revert w definitions. induction before as [|s before IH]; intros w definitions Hbefore Hstep.
  - injection Hbefore as _ <-. cbn [app eachInputs]. unfold bind. now rewrite Hstep.
  - cbn [app eachInputs] in *. unfold bind in *.
    destruct (Inputs s dry w) as [[d|?|?|] w0]; try discriminate.
    destruct (eachInputs before dry w0) as [[ds|?|?|] w3] eqn:Hrest; try discriminate.
    injection Hbefore as _ <-. now rewrite (IH w0 ds Hrest Hstep).
Qed.

(** X5.  [resolveInputs] stops at the first step whose [Inputs] fails: it
    returns the error of that step, the world is as that call left it (the
    steps after it are not asked and the job is given no namespace), and no
    options are returned. *)
Theorem resolveInputs_stops_at_failure (o : options) (before after : list Step) (step : Step)
    (w w1 w2 : world Env) (definitions : list InputDefinition) (e : error) :
  eachInputs before (dry o) w = (Ok definitions, w1) ->
  Inputs step (dry o) w1 = (Err e, w2) ->
  resolveInputs o (before ++ step :: after) w = (Err e, w2).
Proof.
  intros Hbefore Hstep.
  unfold resolveInputs, bind at 1. unfold inputDefinition, bind at 1.
  rewrite stepInputs_eachInputs. unfold bind at 1.
  now rewrite (eachInputs_fails_at before after step (dry o) w w1 w2 definitions e).
Qed.

(** X6.  The namespace that [resolveInputs] leaves in the options is never
    empty and holds no placeholder any more, whatever namespace was given;
    and it is the namespace of the job. *)
Theorem resolveInputs_namespace_resolved (o o' : options) (steps : list Step)
    (w w' : world Env) :
  resolveInputs o steps w = (Ok o', w') ->
  namespace o' <> EmptyString /\
  Contains (namespace o') "{id}" = false /\
  job_namespace (job w') = namespace o'.
Proof.
  intros Hres.
  destruct (resolveInputs_inv o o' steps w w' Hres) as (inputs & w1 & _ & _ & Hns & Hjob & _).
  destruct (inputHash_plain inputs) as (_ & Hchars & a & b & c & h' & Hh).
  assert (Hopen : forall x, x ∈ list_ascii_of_string (inputHash inputs) -> x <> "{"%char)
    by (intros x Hx; apply (alphabet_plain x (Hchars x Hx))).
  assert (Hclose : forall x, x ∈ list_ascii_of_string (inputHash inputs) -> x <> "}"%char)
    by (intros x Hx; apply (alphabet_plain x (Hchars x Hx))).
  rewrite Hns. unfold Replace. split; [|split; [|now rewrite Hjob, Hns]].
  - apply (replaceFrom_nonempty (inputHash inputs) a b c h' Hh).
    destruct (namespace o); [discriminate | discriminate].
  - apply (replaceFrom_resolved (inputHash inputs) a b c h' Hh Hopen Hclose).
Qed.

(** X7.  When no namespace is given, the namespace that [resolveInputs]
    leaves can name a Kubernetes namespace: it has 14 characters, which are
    lowercase letters, digits or [-]; it begins with [ci-op-] and ends with
    the 8 characters of the identifier, none of which is [-]. *)
Theorem default_namespace_is_label (o o' : options) (steps : list Step) (w w' : world Env) :
  namespace o = EmptyString ->
  resolveInputs o steps w = (Ok o', w') ->
  String.length (namespace o') = 14%nat /\
  Forall (fun c => lowerOrDigit c = true \/ c = "-"%char)
         (list_ascii_of_string (namespace o')) /\
  String.prefix "ci-op-" (namespace o') = true /\
  String.substring 6 8 (namespace o') = opt_inputHash o' /\
  Forall (fun c => lowerOrDigit c = true) (list_ascii_of_string (opt_inputHash o')).
Proof.
  intros Hempty Hres.
  destruct (resolveInputs_inv o o' steps w w' Hres) as (inputs & w1 & _ & -> & Hns & _).
  rewrite Hempty in Hns.
  change (if (String.length EmptyString =? 0)%nat then "ci-op-{id}" else EmptyString)
    with (Join ["ci-op-"; EmptyString] "{id}") in Hns.
  rewrite Replace_Join in Hns by (repeat constructor).
  cbn [Join] in Hns. rewrite append_empty_r in Hns. rewrite Hns.
  destruct (inputHash_chars inputs) as (c0 & c1 & c2 & c3 & c4 & c5 & c6 & c7 & -> & Hall).
  assert (Hplain : Forall (fun c => lowerOrDigit c = true) [c0; c1; c2; c3; c4; c5; c6; c7]).
  { eapply Forall_impl; [exact Hall|]. intros c Hc. apply (alphabet_plain c Hc). }
  split; [reflexivity|]. split; [|split; [|split]].
  - change (list_ascii_of_string ("ci-op-" +:+ string_of_list_ascii [c0; c1; c2; c3; c4; c5; c6; c7]))
      with (list_ascii_of_string "ci-op-" ++ [c0; c1; c2; c3; c4; c5; c6; c7]).
    apply Forall_app. split.
    + repeat (apply List.Forall_cons; [first [left; reflexivity | right; reflexivity]|]).
      apply List.Forall_nil.
    + eapply Forall_impl; [exact Hplain|]. intros c Hc. now left.
  - reflexivity.
  - reflexivity.
  - now rewrite list_ascii_of_string_of_list_ascii.
Qed.
End ResolvedNamespace.

(** ** The steps after the graph, and the order of a run *)

Section AfterTheGraph.
Context `{StepAPI} `{!Platform}.

Lemma runPostSteps_app (before after : list Step) (dry : bool) (w : world Env) :
  runPostSteps (before ++ after) dry w =
  (runPostSteps before dry ;; runPostSteps after dry) w.
Proof.
  revert w. induction before as [|step before IH]; intros w; [reflexivity|].
  cbn [app runPostSteps]. unfold bind in IH |- *.
  destruct (StepRun step dry w) as [[[]|e|msg|] w1]; try reflexivity.
  apply IH.
Qed.

(** X8.  The post steps run in their order and stop at the first that
    fails: [runPostSteps] returns the error of that step, with the world as
    that step left it, and the post steps after it are not run. *)
Theorem runPostSteps_stops_at_failure (before after : list Step) (step : Step) (dry : bool)
    (w w1 w2 : world Env) (e : error) :
  runPostSteps before dry w = (Ok tt, w1) ->
  StepRun step dry w1 = (Err e, w2) ->
  runPostSteps (before ++ step :: after) dry w = (Err e, w2).
Proof.
  intros Hbefore Hstep. rewrite runPostSteps_app. unfold bind. rewrite Hbefore.
  cbn [runPostSteps]. unfold bind. now rewrite Hstep.
Qed.

Ltac frame_no_panic :=
  split; [reflexivity | split; [reflexivity | split; [ | split]]];
  [ first [ intros _; reflexivity | intros [Hf | Hf]; discriminate Hf ]
  | intros (msg & Hmsg); discriminate Hmsg
  | intros [Hne (s & Hs & Hempty)];
    first [ now destruct Hne | discriminate Hs | injection Hs as <-; discriminate Hempty ] ].

(** X9.  [writeJUnit] never logs and never touches the job; it does nothing
    at all when no artifact directory is set or when there are no suites; and
    the one case in which it panics is a suites value without a suite while an
    artifact directory is set. *)
Theorem writeJUnit_frame (o : options) (suites : option TestSuites) (name : string)
    (w : world Env) :
  job (snd (writeJUnit o suites name w)) = job w /\
  logged (snd (writeJUnit o suites name w)) = logged w /\
  (artifactDir o = EmptyString \/ suites = None -> writeJUnit o suites name w = (Ok tt, w)) /\
  ((exists msg, fst (writeJUnit o suites name w) = Panic msg) <->
   artifactDir o <> EmptyString /\ exists s, suites = Some s /\ Suites s = []).
Proof.
  unfold writeJUnit.
  destruct (artifactDir o) as [|c dir] eqn:Hdir; cbn [String.length Nat.eqb];
    [frame_no_panic|].
  destruct suites as [[[|first others]]|]; cbn [Suites]; [|  |frame_no_panic].
  - split; [reflexivity|split; [reflexivity|split; [|split]]].
    + intros [Hfalse | Hfalse]; discriminate Hfalse.
    + intros _. split; [discriminate|eauto].
    + intros _. cbn. eauto.
  - destruct (xml_MarshalIndent _) as [out [err|]]; [frame_no_panic|].
    unfold bind, inEnv, fail, ret. destruct (WriteFile _ _ _) as [[err|] e']; cbn;
      frame_no_panic.
Qed.

(** X10.  When the execution order cannot be computed, the run stops there:
    [runSteps] returns the error of [topologicalSort] with the world as the
    graph builder left it but for the lines logged about the missing links;
    the namespace is not initialized and no step is run. *)
Theorem runSteps_unsortable_stops (fuel : nat) (o o1 : options)
    (buildSteps postSteps : list Step) (w w1 w2 : world Env) (nodes waiting : list StepNode)
    (satisfied : list StepLink) :
  resolveInputs o buildSteps w = (Ok o1, w1) ->
  BuildPartialGraph buildSteps (targets o1) w1 = (Ok nodes, w2) ->
  sortOf nodes = Missing waiting satisfied ->
  exists lines,
    runSteps fuel o buildSteps postSteps w =
      (Err (Errorf "steps are missing dependencies"),
       World (env w2) (job w2) (logged w2 ++ lines)).
Proof.
  intros Hres Hgraph Hsort.
  destruct (topologicalSort_outcome nodes w2)
    as [(sorted & Hof & _) | (waiting' & satisfied' & lines & _ & Htopo & _)];
    [congruence|].
  exists lines. unfold runSteps, bind at 1. rewrite Hres.
  unfold bind at 1. rewrite Hgraph.
  unfold bind at 1. unfold printExecutionOrder, bind at 1. now rewrite Htopo.
Qed.
End AfterTheGraph.

(** ** Commit names *)

Lemma substring_prefix (n : nat) (s : string) :
  String.prefix (String.substring 0 n s) s = true.
Proof.
  revert s. induction n as [|n IH]; intros [|c s]; cbn; try reflexivity.
  destruct (ascii_dec c c) as [_|Hne]; [apply IH | now destruct Hne].
Qed.

Lemma substring_length (n : nat) (s : string) :
  n <= String.length s -> String.length (String.substring 0 n s) = n.
Proof.
  revert s. induction n as [|n IH]; intros [|c s] Hn; cbn in *; try reflexivity; try lia.
  f_equal. apply IH. lia.
Qed.

Lemma substring_hex (n : nat) (s : string) :
  forallb isHex (list_ascii_of_string s) = true ->
  forallb isHex (list_ascii_of_string (String.substring 0 n s)) = true.
Proof.
  revert s. induction n as [|n IH]; intros [|c s] Hs; cbn in *; try reflexivity.
  apply andb_true_iff in Hs as [Hc Hs]. rewrite Hc. cbn. now apply IH.
Qed.

Lemma prefix_length (p s : string) :
  String.prefix p s = true -> String.length p <= String.length s.
Proof.
  revert s. induction p as [|c p IH]; intros [|x s] Hp; cbn in *; try lia; try discriminate.
  destruct (ascii_dec c x); [|discriminate]. apply IH in Hp. lia.
Qed.

Lemma prefix_refl (s : string) : String.prefix s s = true.
Proof.
  induction s as [|c s IH]; cbn; [reflexivity|].
  destruct (ascii_dec c c) as [_|Hne]; [exact IH | now destruct Hne].
Qed.

(** X11.  For a length [l] that is not negative, [shorten] returns a prefix
    of the value: the value itself when it is not all hexadecimal digits, and
    otherwise its first [l] bytes, or all of it when it has no more. *)
Theorem shorten_prefix (value : string) (l : Z) :
  (0 <= l)%Z ->
  exists short,
    shorten value l = Ok short /\
    String.prefix short value = true /\
    (shaRegex_MatchString value = false -> short = value) /\
    (shaRegex_MatchString value = true ->
     String.length short = Nat.min (String.length value) (Z.to_nat l) /\
     (short <> EmptyString -> shaRegex_MatchString short = true)).
Proof.
  intros Hl. unfold shorten.
  destruct (l <? Z.of_nat (String.length value))%Z eqn:Hlong;
    destruct (shaRegex_MatchString value) eqn:Hsha; cbn [andb].
  - apply Z.ltb_lt in Hlong. destruct (l <? 0)%Z eqn:Hneg; [apply Z.ltb_lt in Hneg; lia|].
    eexists. split; [reflexivity|]. split; [apply substring_prefix|].
    split; [discriminate|]. intros _. split.
    + rewrite substring_length by lia. lia.
    + intros Hne. unfold shaRegex_MatchString in *.
      apply andb_true_iff in Hsha as [_ Hhex]. apply andb_true_iff. split.
      * destruct (String.substring 0 (Z.to_nat l) value); [now destruct Hne | reflexivity].
      * now apply substring_hex.
  - exists value. split; [reflexivity|]. split; [|split; [reflexivity | discriminate]].
    apply prefix_refl.
  - apply Z.ltb_ge in Hlong. exists value. split; [reflexivity|]. split.
    + apply prefix_refl.
    + split; [discriminate|]. intros _. split; [lia | intros _; exact Hsha].
  - exists value. split; [reflexivity|]. split; [|split; [reflexivity | discriminate]].
    apply prefix_refl.
Qed.

(** X12.  [shorten] leaves what it returned as it is: a shortened value is
    not shortened again. *)
Theorem shorten_idempotent (value short : string) (l : Z) :
  shorten value l = Ok short -> shorten short l = Ok short.
Proof.
  unfold shorten at 1.
  destruct ((l <? Z.of_nat (String.length value))%Z && shaRegex_MatchString value) eqn:Hcut.
  - apply andb_true_iff in Hcut as [Hlong _]. apply Z.ltb_lt in Hlong.
    destruct (l <? 0)%Z eqn:Hneg; [discriminate|]. apply Z.ltb_ge in Hneg.
    intros [= <-]. unfold shorten. rewrite substring_length by lia.
    rewrite Z2Nat.id by lia. now rewrite Z.ltb_irrefl.
  - intros [= <-]. unfold shorten. now rewrite Hcut.
Qed.

(** ** The job of a git reference *)

Ltac string_app :=
  repeat match goal with
  | |- context [String ?c ?s +:+ ?t] => change (String c s +:+ t) with (String c (s +:+ t))
  | |- context [EmptyString +:+ ?t] => change (EmptyString +:+ t) with t
  end.

Ltac string_app_in H :=
  repeat match type of H with
  | context [String ?c ?s +:+ ?t] => change (String c s +:+ t) with (String c (s +:+ t)) in H
  | context [EmptyString +:+ ?t] => change (EmptyString +:+ t) with t in H
  end.

Lemma string_app_assoc (s t u : string) : (s +:+ t) +:+ u = s +:+ t +:+ u.
Proof. induction s as [|c s IH]; string_app; congruence. Qed.

Lemma countByte_app (c : ascii) (s t : string) :
  countByte c (s +:+ t) = countByte c s + countByte c t.
Proof.
  induction s as [|x s IH]; string_app; cbn [countByte]; [reflexivity | rewrite IH; lia].
Qed.

Lemma splitFrom_byte (c x : ascii) (s piece : string) :
  splitFrom 0 (String x s) (String c EmptyString) piece =
  if Ascii.eqb x c
  then piece :: splitFrom 0 s (String c EmptyString) EmptyString
  else splitFrom 0 s (String c EmptyString) (piece +:+ String x EmptyString).
Proof.
  cbn. destruct (ascii_dec c x) as [->|Hne].
  - now rewrite prefix_empty, Ascii.eqb_refl.
  - destruct (Ascii.eqb_spec x c) as [->|_]; [now destruct Hne | reflexivity].
Qed.

Lemma splitFrom_whole (c : ascii) (s piece : string) :
  countByte c s = 0 ->
  splitFrom 0 s (String c EmptyString) piece = [piece +:+ s].
Proof.
  revert piece. induction s as [|x s IH]; intros piece Hs.
  - cbn. now rewrite append_empty_r.
  - rewrite splitFrom_byte. cbn [countByte] in Hs.
    destruct (Ascii.eqb x c); [discriminate|].
    rewrite IH by exact Hs. now rewrite string_app_assoc.
Qed.

Lemma splitFrom_first (c : ascii) (p rest piece : string) :
  countByte c p = 0 ->
  splitFrom 0 (p +:+ String c rest) (String c EmptyString) piece =
  (piece +:+ p) :: splitFrom 0 rest (String c EmptyString) EmptyString.
Proof.
  revert piece. induction p as [|x p IH]; intros piece Hp.
  - string_app. rewrite splitFrom_byte, Ascii.eqb_refl. now rewrite append_empty_r.
  - string_app. rewrite splitFrom_byte. cbn [countByte] in Hp.
    destruct (Ascii.eqb x c); [discriminate|].
    rewrite IH by exact Hp. now rewrite string_app_assoc.
Qed.

Lemma splitFrom_nonempty (c : ascii) (s piece : string) :
  splitFrom 0 s (String c EmptyString) piece <> [].
Proof.
  revert piece. induction s as [|x s IH]; intros piece; [discriminate|].
  rewrite splitFrom_byte. destruct (Ascii.eqb x c); [discriminate | apply IH].
Qed.

Lemma splitFrom_Join (c : ascii) (s piece : string) :
  Join (splitFrom 0 s (String c EmptyString) piece) (String c EmptyString) = piece +:+ s.
Proof.
  revert piece. induction s as [|x s IH]; intros piece.
  - cbn. now rewrite append_empty_r.
  - rewrite splitFrom_byte. destruct (Ascii.eqb_spec x c) as [->|_].
    + specialize (IH EmptyString). pose proof (splitFrom_nonempty c s EmptyString) as Hne.
      destruct (splitFrom 0 s (String c EmptyString) EmptyString) as [|q l];
        [now destruct Hne|].
      cbn [Join]. cbn [Join] in IH. string_app_in IH. string_app. now rewrite IH.
    + rewrite IH. now rewrite string_app_assoc.
Qed.

Lemma splitFrom_pieces (c : ascii) (s piece : string) :
  countByte c piece = 0 ->
  List.Forall (fun p => countByte c p = 0) (splitFrom 0 s (String c EmptyString) piece).
Proof.
  revert piece. induction s as [|x s IH]; intros piece Hpiece.
  - cbn. repeat constructor. exact Hpiece.
  - rewrite splitFrom_byte. destruct (Ascii.eqb x c) eqn:Hx.
    + apply List.Forall_cons; [exact Hpiece | now apply IH].
    + apply IH. rewrite countByte_app. cbn. rewrite Hx. lia.
Qed.

(** The first piece is the text before the first separator. *)
Lemma splitFrom_hd (c : ascii) (s piece : string) :
  exists p rest,
    s = p +:+ rest /\ countByte c p = 0 /\
    (rest = EmptyString \/ String.prefix (String c EmptyString) rest = true) /\
    hd EmptyString (splitFrom 0 s (String c EmptyString) piece) = piece +:+ p.
Proof.
  revert piece. induction s as [|x s IH]; intros piece.
  - exists EmptyString, EmptyString. cbn. string_app. rewrite append_empty_r.
    split; [reflexivity|]. split; [reflexivity|]. split; [now left | reflexivity].
  - rewrite splitFrom_byte. destruct (Ascii.eqb_spec x c) as [->|Hne].
    + exists EmptyString, (String c s). cbn [hd countByte]. string_app.
      rewrite append_empty_r.
      split; [reflexivity|]. split; [reflexivity|]. split; [|reflexivity].
      right. cbn.
      destruct (ascii_dec c c) as [_|Hne]; [apply prefix_empty | now destruct Hne].
    + destruct (IH (piece +:+ String x EmptyString)) as (p & rest & -> & Hp & Hrest & Hhd).
      exists (String x p), rest. split; [reflexivity|]. split.
      * cbn [countByte]. apply Ascii.eqb_neq in Hne. rewrite Hne. exact Hp.
      * split; [exact Hrest|]. rewrite Hhd. now rewrite string_app_assoc.
Qed.

Section GitRefProperties.
Context `{Types} `{!Git}.

Lemma Split_ref (org repo rev : string) :
  countByte "/" org = 0 -> countByte "@" org = 0 ->
  countByte "/" repo = 0 -> countByte "@" repo = 0 ->
  countByte "@" rev = 0 ->
  Split (org +:+ "/" +:+ repo +:+ "@" +:+ rev) "@" = [org +:+ "/" +:+ repo; rev] /\
  Split (org +:+ "/" +:+ repo) "/" = [org; repo].
Proof.
  intros Horg Horg' Hrepo Hrepo' Hrev. unfold Split. split.
  - replace (org +:+ "/" +:+ repo +:+ "@" +:+ rev)
      with ((org +:+ "/" +:+ repo) +:+ String "@" rev)
      by (now rewrite !string_app_assoc).
    rewrite splitFrom_first.
    + now rewrite splitFrom_whole.
    + rewrite !countByte_app. cbn. lia.
  - change (org +:+ "/" +:+ repo) with (org +:+ String "/" repo).
    rewrite splitFrom_first by exact Horg. now rewrite splitFrom_whole.
Qed.

(** X13.  A reference written as organisation, [/], repository, [@] and
    revision, with no further [/] or [@] before the [@] and no [@] after it,
    is taken apart into these three, and [jobSpecFromGitRef] returns a
    periodic job named [dev] for them whatever [git ls-remote] does.  When the
    command fails, or prints nothing before the first tab or line end, the
    revision is kept as the base commit, the base reference is empty and
    nothing is logged; otherwise the revision is the base reference, the base
    commit is what the command printed before the first tab or line end, and
    one line is logged. *)
Theorem jobSpecFromGitRef_parses (org repo rev : string) (w : world Env) :
  countByte "/" org = 0 -> countByte "@" org = 0 ->
  countByte "/" repo = 0 -> countByte "@" repo = 0 ->
  countByte "@" rev = 0 ->
  let ref := org +:+ "/" +:+ repo +:+ "@" +:+ rev in
  let r := git_ls_remote ("https://github.com/" +:+ org +:+ "/" +:+ repo +:+ ".git") rev (env w) in
  let out := fst (fst r) in
  let err := snd (fst r) in
  exists spec w',
    jobSpecFromGitRef ref w = (Ok (PeriodicJob, spec), w') /\
    env w' = snd r /\ job w' = job w /\
    Job spec = "dev" /\ Org (JobRefs spec) = org /\ Repo (JobRefs spec) = repo /\
    Pulls (JobRefs spec) = [] /\
    exists sha rest,
      out = sha +:+ rest /\
      countByte (ascii_of_nat 9) sha = 0 /\ countByte (ascii_of_nat 10) sha = 0 /\
      (rest = EmptyString \/ String.prefix tab rest = true \/
       String.prefix newline rest = true) /\
      if (String.length sha =? 0)%nat || bool_decide (err <> None)
      then BaseSHA (JobRefs spec) = rev /\ BaseRef (JobRefs spec) = EmptyString /\
           logged w' = logged w
      else BaseSHA (JobRefs spec) = sha /\ BaseRef (JobRefs spec) = rev /\
           logged w' = logged w ++ ["Resolved " +:+ ref +:+ " to commit " +:+ sha].
Proof.
  intros Horg Horg' Hrepo Hrepo' Hrev ref r out err.
  destruct (Split_ref org repo rev Horg Horg' Hrepo Hrepo' Hrev) as [Hparts Hprefix].
  subst ref r out err. unfold jobSpecFromGitRef. rewrite Hparts, Hprefix.
  unfold bind at 1, inEnv.
  destruct (git_ls_remote _ _ _) as [[out err] e']. cbn [fst snd].
  destruct (splitFrom_hd (ascii_of_nat 10) out EmptyString)
    as (line & rest1 & Hout & Hline & Hrest1 & Hhd1).
  destruct (splitFrom_hd (ascii_of_nat 9) line EmptyString)
    as (sha & rest2 & Hsha & Hnotab & Hrest2 & Hhd2).
  assert (Hfield : hd EmptyString (Split (hd EmptyString (Split out newline)) tab) = sha).
  { unfold Split, newline, tab. rewrite Hhd1. string_app. now rewrite Hhd2. }
  rewrite Hfield.
  assert (Hshape : out = sha +:+ rest2 +:+ rest1 /\
                   countByte (ascii_of_nat 10) sha = 0 /\
                   (rest2 +:+ rest1 = EmptyString \/
                    String.prefix tab (rest2 +:+ rest1) = true \/
                    String.prefix newline (rest2 +:+ rest1) = true)).
  { split; [now rewrite Hout, Hsha, string_app_assoc|]. split.
    - rewrite Hsha, countByte_app in Hline. lia.
    - destruct Hrest2 as [-> | Htab].
      + string_app. destruct Hrest1 as [-> | Hnl]; auto.
      + right. left. destruct rest2 as [|x rest2]; [discriminate Htab|].
        unfold tab in *. string_app. cbn in Htab |- *.
        destruct (ascii_dec (ascii_of_nat 9) x); [apply prefix_empty | discriminate]. }
  destruct Hshape as (Hshape & Hnonl & Hrest).
  destruct ((String.length sha =? 0)%nat || bool_decide (err <> None)) eqn:Hkeep.
  - eexists _, _. split; [reflexivity|]. cbn.
    repeat (split; [reflexivity|]).
    exists sha, (rest2 +:+ rest1). rewrite Hkeep. auto 10.
  - eexists _, _. split; [reflexivity|]. cbn.
    repeat (split; [reflexivity|]).
    exists sha, (rest2 +:+ rest1). rewrite Hkeep. auto 10.
Qed.

(** X14.  Every other reference is refused: unless it is organisation, [/],
    repository, [@] and revision as above, [jobSpecFromGitRef] returns the
    error [must be ORG/NAME@COMMIT], without running [git] and with nothing
    logged. *)
Theorem jobSpecFromGitRef_rejects (ref : string) (w : world Env) :
  (exists org repo rev,
     ref = org +:+ "/" +:+ repo +:+ "@" +:+ rev /\
     countByte "/" org = 0 /\ countByte "@" org = 0 /\
     countByte "/" repo = 0 /\ countByte "@" repo = 0 /\
     countByte "@" rev = 0) \/
  jobSpecFromGitRef ref w = (Err (Errorf "must be ORG/NAME@COMMIT"), w).
Proof.
  pose proof (splitFrom_Join "@" ref EmptyString) as Hjoin.
  pose proof (splitFrom_pieces "@" ref EmptyString eq_refl) as Hpieces.
  unfold jobSpecFromGitRef. unfold Split at 1.
  destruct (splitFrom 0 ref "@" EmptyString) as [|part0 [|part1 [|part2 parts]]];
    try (right; reflexivity).
  pose proof (splitFrom_Join "/" part0 EmptyString) as Hjoin0.
  pose proof (splitFrom_pieces "/" part0 EmptyString eq_refl) as Hpieces0.
  unfold Split at 1.
  destruct (splitFrom 0 part0 "/" EmptyString) as [|org [|repo [|part parts]]];
    try (right; reflexivity).
  left. exists org, repo, part1.
  cbn [Join String.append] in Hjoin, Hjoin0.
  apply List.Forall_cons_iff in Hpieces as [Hpart0 Hpieces].
  apply List.Forall_cons_iff in Hpieces as [Hpart1 _].
  apply List.Forall_cons_iff in Hpieces0 as [Horg Hpieces0].
  apply List.Forall_cons_iff in Hpieces0 as [Hrepo _].
  string_app_in Hjoin. string_app_in Hjoin0. subst part0 ref.
  rewrite !countByte_app in Hpart0. cbn [countByte] in Hpart0.
  split; [now rewrite !string_app_assoc|].
  repeat split; auto; lia.
Qed.
End GitRefProperties.

(** ** The namespace *)

Lemma ownerOnly_refl (j : JobSpec) : ownerOnly j j.
Proof. unfold ownerOnly. auto. Qed.

Lemma ownerOnly_trans (j1 j2 j3 : JobSpec) :
  ownerOnly j1 j2 -> ownerOnly j2 j3 -> ownerOnly j1 j3.
Proof.
  intros (Hjob & Hrefs & Hns & Howner) (Hjob' & Hrefs' & Hns' & Howner').
  unfold ownerOnly. repeat split; try congruence.
  destruct Howner' as [Hsame | Hset]; [|now right].
  rewrite Hsame. exact Howner.
Qed.

Lemma extendsLog_refl {Env} (w : world Env) : extendsLog w w.
Proof. exists []. now rewrite app_nil_r. Qed.

Lemma extendsLog_trans {Env} (w1 w2 w3 : world Env) :
  extendsLog w1 w2 -> extendsLog w2 w3 -> extendsLog w1 w3.
Proof.
  intros [lines H12] [lines' H23]. exists (lines ++ lines').
  now rewrite H23, H12, app_assoc.
Qed.

Section Framed.
Context {Env : Type}.

Lemma framed_ret {A} (a : A) : framed (Env := Env) (ret a).
Proof. intros w. split; [apply ownerOnly_refl | apply extendsLog_refl]. Qed.

Lemma framed_fail {A} (e : error) : framed (Env := Env) (A := A) (fail e).
Proof. intros w. split; [apply ownerOnly_refl | apply extendsLog_refl]. Qed.

Lemma framed_panic {A} (msg : string) : framed (Env := Env) (A := A) (panic msg).
Proof. intros w. split; [apply ownerOnly_refl | apply extendsLog_refl]. Qed.

Lemma framed_spin {A} : framed (Env := Env) (A := A) spin.
Proof. intros w. split; [apply ownerOnly_refl | apply extendsLog_refl]. Qed.

Lemma framed_getJob : framed (Env := Env) getJob.
Proof. intros w. split; [apply ownerOnly_refl | apply extendsLog_refl]. Qed.

Lemma framed_logf (line : string) : framed (Env := Env) (logf line).
Proof. intros w. split; [apply ownerOnly_refl | now exists [line]]. Qed.

Lemma framed_inEnv {A} (f : Env -> A * Env) : framed (inEnv f).
Proof.
  intros w. unfold inEnv. destruct (f (env w)) as [a e]. cbn.
  split; [apply ownerOnly_refl | exists []; now rewrite app_nil_r].
Qed.

Lemma framed_SetOwner (uid : string) : framed (Env := Env) (SetOwner (pipelineOwner uid)).
Proof.
  intros w. split; [|exists []; cbn; now rewrite app_nil_r].
  unfold ownerOnly. cbn. repeat split. right. now exists uid.
Qed.

Lemma framed_bind {A B} (m : M Env A) (k : A -> M Env B) :
  framed m -> (forall a, framed (k a)) -> framed (bind m k).
Proof.
  intros Hm Hk w. unfold bind. specialize (Hm w).
  destruct (m w) as [[a|e|msg|] w1]; cbn [snd] in Hm |- *; try exact Hm.
  destruct Hm as [Hjob Hlog]. destruct (Hk a w1) as [Hjob' Hlog'].
  split; [eapply ownerOnly_trans | eapply extendsLog_trans]; eassumption.
Qed.
End Framed.

Ltac framed_step :=
  first
    [ apply framed_ret | apply framed_fail | apply framed_panic | apply framed_spin
    | apply framed_getJob
    | apply framed_logf | apply framed_inEnv | apply framed_SetOwner
    | apply framed_bind; [|intros ?]
    | match goal with
      | IH : forall _, framed _ |- _ => apply IH
      | |- framed (match ?x with _ => _ end) => destruct x
      end ].

Section Namespace.
Context `{Types} `{!Platform}.

Lemma requestProject_framed (o : options) (fuel : nat) :
  forall retries, framed (requestProject fuel retries o).
Proof.
  induction fuel as [|fuel IH]; intros retries; cbn [requestProject];
    repeat framed_step.
Qed.

Lemma createSecrets_framed (o : options) (l : list Secret) : framed (createSecrets o l).
Proof.
  induction l as [|secret l IH]; cbn [createSecrets]; unfold mergeData;
    repeat framed_step; exact IH.
Qed.

Lemma createNamespaceCleanupPod_framed (o : options) : framed (createNamespaceCleanupPod o).
Proof. unfold createNamespaceCleanupPod, unlessAlreadyExists. repeat framed_step. Qed.

(** X15.  Whatever the cluster answers and however it ends (with or
    without an error, with the panic of a write to the nil map of a secret, or
    not at all), [initializeNamespace] only adds lines at the end of the log,
    and leaves the job as it was but for its owner, which it sets to nothing
    else than the pipeline image stream. *)
Theorem initializeNamespace_frame (fuel : nat) (o : options) (w : world Env) :
  ownerOnly (job w) (job (snd (initializeNamespace fuel o w))) /\
  exists lines, logged (snd (initializeNamespace fuel o w)) = logged w ++ lines.
Proof.
  revert w. change (framed (initializeNamespace fuel o)).
  unfold initializeNamespace.
  repeat first
    [ apply requestProject_framed | apply createSecrets_framed
    | apply createNamespaceCleanupPod_framed
    | apply (framed_SetOwner (Env := Env)) | framed_step ].
Qed.
End Namespace.

Lemma bind_inEnv {Env A B} (f : Env -> A * Env) (k : A -> M Env B) (w : world Env) :
  bind (inEnv f) k w = k (fst (f (env w))) (World (snd (f (env w))) (job w) (logged w)).
Proof. unfold bind, inEnv. now destruct (f (env w)). Qed.

Lemma IsForbidden_inv (err : option error) :
  IsForbidden err = true -> IsNotFound err = false /\ err <> None.
Proof. destruct err as [[[[]|] msg]|]; cbn; intros; try discriminate; now split. Qed.

Lemma IsAlreadyExists_inv (err : option error) :
  IsAlreadyExists err = true -> exists e, err = Some e.
Proof. destruct err as [e|]; [eauto | discriminate]. Qed.

Lemma IsNotFound_inv (err : option error) :
  IsNotFound err = true -> exists e, err = Some e.
Proof. destruct err as [e|]; [eauto | discriminate]. Qed.

Section ProjectLoop.
Context `{Types} `{!Platform}.
Variable o : options.

Lemma requestProject_step (fuel : nat) (retries : Z) (w : world Env) :
  requestProject (S fuel) retries o w =
  let request :=
    {| RequestName := namespace o;
       DisplayName := namespace o +:+ " - " +:+ Job (job w);
       Description := jobDescription (job w) (configSpec o) |} in
  let created := ProjectRequests_Create request (env w) in
  let w1 := World (snd created) (job w) (logged w) in
  let afterProject (project : Project) (w' : world Env) :=
    if String.eqb (Phase project) NamespaceTerminating
    then requestProject fuel retries o
           (World (snd (Sleep 3000000000 (env w'))) (job w')
              (logged w' ++
               ["Waiting for namespace to finish terminating before creating another"]))
    else (Ok tt, w') in
  match snd (fst created) with
  | None => afterProject (fst (fst created)) w1
  | Some _ =>
      if negb (IsAlreadyExists (snd (fst created)))
      then (Err (Errorf ("could not set up namespace for test: " +:+
                         errText (snd (fst created)))), w1)
      else
        let got := Projects_Get (namespace o) (snd created) in
        let w2 := World (snd got) (job w) (logged w) in
        match snd (fst got) with
        | None => afterProject (fst (fst got)) w2
        | Some _ =>
            if IsNotFound (snd (fst got)) then requestProject fuel retries o w2
            else if IsForbidden (snd (fst got)) && (0 <? retries)%Z
            then requestProject fuel (retries - 1)%Z o
                   (World (snd (Sleep 1000000000 (snd got))) (job w) (logged w))
            else (Err (Errorf ("cannot retrieve test namespace: " +:+
                               errText (snd (fst got)))), w2)
        end
  end.
Proof.
  cbn [requestProject]. unfold bind at 1, getJob. rewrite bind_inEnv. cbn zeta.
  destruct (ProjectRequests_Create _ (env w)) as [[project err] e1]. cbn [fst snd].
  assert (Hafter : forall (project : Project) (w' : world Env),
    (if String.eqb (Phase project) NamespaceTerminating
     then
       logf "Waiting for namespace to finish terminating before creating another" ;;
       inEnv (Sleep 3000000000) ;; requestProject fuel retries o
     else ret tt)%go w' =
    if String.eqb (Phase project) NamespaceTerminating
    then requestProject fuel retries o
           (World (snd (Sleep 3000000000 (env w'))) (job w')
              (logged w' ++
               ["Waiting for namespace to finish terminating before creating another"]))
    else (Ok tt, w')).
  { intros p w'. destruct (String.eqb (Phase p) NamespaceTerminating); [|reflexivity].
    unfold bind at 1, logf. rewrite bind_inEnv. reflexivity. }
  destruct err as [e|]; [|rewrite Hafter; reflexivity].
  destruct (negb (IsAlreadyExists (Some e))); [reflexivity|].
  rewrite bind_inEnv. cbn [env job logged].
  destruct (Projects_Get (namespace o) e1) as [[project' err'] e2]. cbn [fst snd].
  destruct err' as [e'|]; [|rewrite Hafter; reflexivity].
  destruct (IsNotFound (Some e')); [reflexivity|].
  destruct (IsForbidden (Some e') && (0 <? retries)%Z); [|reflexivity].
  rewrite bind_inEnv. reflexivity.
Qed.

End ProjectLoop.

Section Forbidden.
Context `{Types} `{!Platform}.
Variable o : options.
Variable j : JobSpec.
Variable lines : list string.

Lemma requestProject_forbidden (fuel : nat) :
  forall (n : nat) (e : Env),
    (forall k, k <= n -> refuses o j (Nat.iter k (retried o j) e)) ->
    (fuel <= n -> fst (requestProject fuel (Z.of_nat n) o (World e j lines)) = Spin) /\
    (n < fuel ->
     requestProject fuel (Z.of_nat n) o (World e j lines) =
       (Err (Errorf ("cannot retrieve test namespace: " +:+
                     errText (snd (fst (Projects_Get (namespace o)
                                          (asked o j (Nat.iter n (retried o j) e))))))),
        World (refused o j (Nat.iter n (retried o j) e)) j lines)).
Proof.
  induction fuel as [|fuel IH]; intros n e Hrefuses.
  - split; [reflexivity | lia].
  - rewrite requestProject_step. cbn zeta. cbn [env job logged].
    destruct (Hrefuses 0 ltac:(lia)) as [Halready Hforbidden].
    change (Nat.iter 0 (retried o j) e) with e in Halready, Hforbidden.
    unfold asked, projectRequest in Halready, Hforbidden.
    destruct (IsAlreadyExists_inv _ Halready) as [err He]. rewrite He.
    rewrite He in Halready. rewrite Halready. cbn [negb].
    destruct (IsForbidden_inv _ Hforbidden) as [Hfound Hsome].
    destruct (snd (fst (Projects_Get (namespace o) _))) as [err'|] eqn:Hgot;
      [|now destruct Hsome].
    rewrite Hfound, Hforbidden. cbn [andb].
    destruct n as [|n].
    + cbn [Z.of_nat Z.ltb Z.compare]. split; [lia|]. intros _.
      change (Nat.iter 0 (retried o j) e) with e.
      unfold refused, asked, projectRequest. now rewrite Hgot.
    + replace (0 <? Z.of_nat (S n))%Z with true by (symmetry; apply Z.ltb_lt; lia).
      replace (Z.of_nat (S n) - 1)%Z with (Z.of_nat n) by lia.
      destruct (IH n (retried o j e)) as [Hspin Hgives].
      { intros k Hk. rewrite <- Nat.iter_succ_r. apply Hrefuses. lia. }
      rewrite <- !Nat.iter_succ_r in Hgives.
      split; [intros Hfuel; apply Hspin; lia | intros Hfuel; apply Hgives; lia].
Qed.
End Forbidden.

Section ProjectLoopForever.
Context `{Types} `{!Platform}.
Variable o : options.
Variable stays : Env -> Prop.
Hypothesis stays_Sleep : forall d e, stays e -> stays (snd (Sleep d e)).

Section NotFound.
Hypothesis exists_already : forall request e,
  stays e ->
  IsAlreadyExists (snd (fst (ProjectRequests_Create request e))) = true /\
  stays (snd (ProjectRequests_Create request e)).
Hypothesis not_found : forall name e,
  stays e ->
  IsNotFound (snd (fst (Projects_Get name e))) = true /\
  stays (snd (Projects_Get name e)).

Lemma requestProject_not_found (fuel : nat) :
  forall (retries : Z) (w : world Env),
    stays (env w) ->
    fst (requestProject fuel retries o w) = Spin /\
    job (snd (requestProject fuel retries o w)) = job w /\
    logged (snd (requestProject fuel retries o w)) = logged w.
Proof.
  induction fuel as [|fuel IH]; intros retries w Hstays; [now cbn|].
  rewrite requestProject_step. cbn zeta.
  destruct (exists_already
              {| RequestName := namespace o;
                 DisplayName := namespace o +:+ " - " +:+ Job (job w);
                 Description := jobDescription (job w) (configSpec o) |} (env w) Hstays)
    as [Halready Hstays1].
  destruct (IsAlreadyExists_inv _ Halready) as [e He]. rewrite He.
  rewrite He in Halready. rewrite Halready. cbn [negb].
  destruct (not_found (namespace o) _ Hstays1) as [Hnot Hstays2].
  destruct (IsNotFound_inv _ Hnot) as [e' He']. rewrite He'.
  rewrite He' in Hnot. rewrite Hnot.
  match goal with
  | |- context [requestProject fuel retries o ?w1] =>
      destruct (IH retries w1 Hstays2) as (Hspin & Hjob & Hlog)
  end.
  rewrite Hspin, Hjob, Hlog. cbn [job logged]. auto.
Qed.
End NotFound.

Section Terminating.
Hypothesis terminating : forall request e,
  stays e ->
  snd (fst (ProjectRequests_Create request e)) = None /\
  Phase (fst (fst (ProjectRequests_Create request e))) = NamespaceTerminating /\
  stays (snd (ProjectRequests_Create request e)).

Lemma requestProject_terminating (fuel : nat) :
  forall (retries : Z) (w : world Env),
    stays (env w) ->
    fst (requestProject fuel retries o w) = Spin /\
    job (snd (requestProject fuel retries o w)) = job w /\
    logged (snd (requestProject fuel retries o w)) =
      logged w ++
      repeat "Waiting for namespace to finish terminating before creating another" fuel.
Proof.
  induction fuel as [|fuel IH]; intros retries w Hstays.
  - cbn. now rewrite app_nil_r.
  - rewrite requestProject_step. cbn zeta.
    destruct (terminating
                {| RequestName := namespace o;
                   DisplayName := namespace o +:+ " - " +:+ Job (job w);
                   Description := jobDescription (job w) (configSpec o) |} (env w) Hstays)
      as (Hnone & Hphase & Hstays1).
    rewrite Hnone, Hphase. cbn [String.eqb]. rewrite String.eqb_refl.
    match goal with
    | |- context [requestProject fuel retries o ?w1] =>
        destruct (IH retries w1) as (Hspin & Hjob & Hlog)
    end.
    + cbn [env]. now apply stays_Sleep.
    + rewrite Hspin, Hjob, Hlog. cbn [job logged repeat].
      repeat split. now rewrite <- app_assoc.
Qed.
End Terminating.
End ProjectLoopForever.

Section ProjectLoopOutcomes.
Context `{Types} `{!Platform}.

Lemma initializeNamespace_requests (fuel : nat) (o : options) (w : world Env) :
  dry o = false -> versioned_NewForConfig (clusterConfig o) = None ->
  forall outcome w',
    requestProject fuel 5 o
      (World (env w) (job w) (logged w ++ ["Creating namespace " +:+ namespace o])) =
      (outcome, w') ->
    (forall u, outcome <> Ok u) ->
    initializeNamespace fuel o w =
      (match outcome with Ok _ => Ok tt | Err e => Err e | Panic msg => Panic msg
                     | Spin => Spin end, w').
Proof.
  intros Hdry Hclient outcome w' Hloop Hnot. unfold initializeNamespace.
  rewrite Hdry, Hclient. unfold bind at 1, logf. unfold bind at 1. rewrite Hloop.
  destruct outcome as [u|e|msg|]; [now destruct (Hnot u)| | |]; reflexivity.
Qed.

(** X16.  While the project is there but may not be read,
    [initializeNamespace] asks again five times, a second of sleep before
    each, and then gives up.  On a cluster that answers the first six
    requests for the project with [AlreadyExists] and the six reads of it
    with [Forbidden], whatever it would answer later: the loop is still
    running after five rounds or fewer; given a sixth, [initializeNamespace]
    returns the error [cannot retrieve test namespace] with the answer to the
    sixth read, in the environment that six requests, six reads and five
    sleeps of one second have made, having logged its one line and left the
    job as it was. *)
Theorem initializeNamespace_forbidden_gives_up (o : options) (fuel : nat) (w : world Env) :
  dry o = false -> versioned_NewForConfig (clusterConfig o) = None ->
  (forall k, k <= 5 ->
     IsAlreadyExists
       (snd (fst (ProjectRequests_Create (projectRequest o (job w))
                    (Nat.iter k (retried o (job w)) (env w))))) = true /\
     IsForbidden
       (snd (fst (Projects_Get (namespace o)
                    (asked o (job w) (Nat.iter k (retried o (job w)) (env w)))))) = true) ->
  (fuel <= 5 -> fst (initializeNamespace fuel o w) = Spin) /\
  (5 < fuel ->
   initializeNamespace fuel o w =
     (Err (Errorf ("cannot retrieve test namespace: " +:+
                   errText (snd (fst (Projects_Get (namespace o)
                                        (asked o (job w)
                                           (Nat.iter 5 (retried o (job w)) (env w)))))))),
      World (refused o (job w) (Nat.iter 5 (retried o (job w)) (env w))) (job w)
            (logged w ++ ["Creating namespace " +:+ namespace o]))).
Proof.
  intros Hdry Hclient Hrefuses.
  destruct (requestProject_forbidden o (job w)
              (logged w ++ ["Creating namespace " +:+ namespace o]) fuel 5 (env w) Hrefuses)
    as [Hspin Hgives].
  change (Z.of_nat 5) with 5%Z in Hspin, Hgives.
  split; intros Hfuel.
  - specialize (Hspin Hfuel).
    destruct (requestProject fuel 5 o _) as [outcome w'] eqn:Hloop.
    cbn [fst] in Hspin. subst outcome.
    now rewrite (initializeNamespace_requests fuel o w Hdry Hclient _ _ Hloop).
  - specialize (Hgives Hfuel).
    now rewrite (initializeNamespace_requests fuel o w Hdry Hclient _ _ Hgives).
Qed.

(** X17.  There is no such bound when the project is there and not found:
    on a cluster that answers every request for the project with
    [AlreadyExists] and every read of it with [NotFound],
    [initializeNamespace] is still asking after any number of rounds, and has
    logged nothing but its first line. *)
Theorem initializeNamespace_not_found_never_returns (o : options) (stays : Env -> Prop)
    (fuel : nat) (w : world Env) :
  (forall request e,
     stays e ->
     IsAlreadyExists (snd (fst (ProjectRequests_Create request e))) = true /\
     stays (snd (ProjectRequests_Create request e))) ->
  (forall name e,
     stays e ->
     IsNotFound (snd (fst (Projects_Get name e))) = true /\
     stays (snd (Projects_Get name e))) ->
  dry o = false -> versioned_NewForConfig (clusterConfig o) = None ->
  stays (env w) ->
  fst (initializeNamespace fuel o w) = Spin /\
  job (snd (initializeNamespace fuel o w)) = job w /\
  logged (snd (initializeNamespace fuel o w)) =
    logged w ++ ["Creating namespace " +:+ namespace o].
Proof.
  intros Hcreate Hget Hdry Hclient Hstays.
  destruct (requestProject_not_found o stays Hcreate Hget fuel 5
              (World (env w) (job w) (logged w ++ ["Creating namespace " +:+ namespace o]))
              Hstays) as (Hspin & Hjob & Hlog).
  destruct (requestProject fuel 5 o _) as [outcome w'] eqn:Hloop.
  cbn [fst snd] in Hspin, Hjob, Hlog. subst outcome.
  rewrite (initializeNamespace_requests fuel o w Hdry Hclient _ _ Hloop) by discriminate.
  cbn [fst snd]. auto.
Qed.

(** X18.  Nor while the namespace is terminating: on a cluster that answers
    every request for the project with a project in phase [Terminating],
    [initializeNamespace] is still asking after any number of rounds, and has
    logged, after its first line, one line for each round. *)
Theorem initializeNamespace_waits_for_termination (o : options) (stays : Env -> Prop)
    (fuel : nat) (w : world Env) :
  (forall d e, stays e -> stays (snd (Sleep d e))) ->
  (forall request e,
     stays e ->
     snd (fst (ProjectRequests_Create request e)) = None /\
     Phase (fst (fst (ProjectRequests_Create request e))) = NamespaceTerminating /\
     stays (snd (ProjectRequests_Create request e))) ->
  dry o = false -> versioned_NewForConfig (clusterConfig o) = None ->
  stays (env w) ->
  fst (initializeNamespace fuel o w) = Spin /\
  job (snd (initializeNamespace fuel o w)) = job w /\
  logged (snd (initializeNamespace fuel o w)) =
    logged w ++
    ("Creating namespace " +:+ namespace o) ::
    repeat "Waiting for namespace to finish terminating before creating another" fuel.
Proof.
  intros Hsleep Hcreate Hdry Hclient Hstays.
  destruct (requestProject_terminating o stays Hsleep Hcreate fuel 5
              (World (env w) (job w) (logged w ++ ["Creating namespace " +:+ namespace o]))
              Hstays) as (Hspin & Hjob & Hlog).
  destruct (requestProject fuel 5 o _) as [outcome w'] eqn:Hloop.
  cbn [fst snd] in Hspin, Hjob, Hlog. subst outcome.
  rewrite (initializeNamespace_requests fuel o w Hdry Hclient _ _ Hloop) by discriminate.
  cbn [fst snd job logged] in *. rewrite Hlog, <- app_assoc. auto.
Qed.

(** X19.  When [createSecrets], the loop over the secrets at the end of
    [initializeNamespace], returns without error, it has logged one line for
    each secret, in their order, which says that the secret was created or
    that it was updated; and it has left the job as it was. *)
Theorem createSecrets_logs (o : options) (l : list Secret) (w w' : world Env) :
  createSecrets o l w = (Ok tt, w') ->
  job w' = job w /\
  exists lines,
    logged w' = logged w ++ lines /\
    Forall2 (fun secret line =>
               line = "Created secret " +:+ SecretName secret \/
               line = "Updated secret " +:+ SecretName secret) l lines.
Proof.
  revert w. induction l as [|secret l IH]; intros w.
  - intros [= <-]. split; [reflexivity|]. exists []. split; [now rewrite app_nil_r|].
    constructor.
  - cbn [createSecrets]. rewrite bind_inEnv.
    destruct (Secrets_Create (namespace o) secret (env w)) as [err e1]. cbn [fst snd].
    destruct (IsAlreadyExists err).
    + rewrite bind_inEnv. cbn [env job logged].
      destruct (Secrets_Get (namespace o) (SecretName secret) e1) as [[existing err'] e2].
      cbn [fst snd]. destruct err' as [e'|]; [discriminate|].
      unfold bind at 1.
      destruct (mergeData (Data secret) (Data existing) _) as [[data|?|?|] w1] eqn:Hmerge;
        try discriminate.
      assert (w1 = World e2 (job w) (logged w)) as ->.
      { unfold mergeData in Hmerge.
        destruct (Data secret) as [new|]; [|now injection Hmerge].
        destruct (bool_decide (new = ∅)); [now injection Hmerge|].
        destruct (Data existing); [now injection Hmerge | discriminate Hmerge]. }
      rewrite bind_inEnv. cbn [env job logged].
      destruct (Secrets_Update (namespace o) _ e2) as [err'' e3]. cbn [fst snd].
      destruct err'' as [e''|]; [discriminate|].
      unfold bind at 1, logf. cbn [env job logged]. intros Hrest.
      destruct (IH _ Hrest) as (Hjob & lines & Hlog & Hlines). cbn [job logged] in *.
      split; [exact Hjob|]. eexists (_ :: lines). split.
      * rewrite Hlog, <- app_assoc. reflexivity.
      * constructor; [now right | exact Hlines].
    + destruct err as [e|]; [discriminate|].
      unfold bind at 1, logf. cbn [env job logged]. intros Hrest.
      destruct (IH _ Hrest) as (Hjob & lines & Hlog & Hlines). cbn [job logged] in *.
      split; [exact Hjob|]. eexists (_ :: lines). split.
      * rewrite Hlog, <- app_assoc. reflexivity.
      * constructor; [now left | exact Hlines].
Qed.

(** X25.  The loop over the secrets panics on a secret that is there
    already with a nil map of data, when the secret to write has data: the
    first key is written to the nil map.  Nothing is updated and nothing more
    is logged; the secrets after it are not sent. *)
Theorem createSecrets_nil_map_panics (o : options) (secret existing : Secret)
    (l : list Secret) (w : world Env) (err : option error) (e1 e2 : Env)
    (new : gmap string (list Z)) :
  Secrets_Create (namespace o) secret (env w) = (err, e1) ->
  IsAlreadyExists err = true ->
  Secrets_Get (namespace o) (SecretName secret) e1 = ((existing, None), e2) ->
  Data existing = None ->
  Data secret = Some new -> new <> ∅ ->
  createSecrets o (secret :: l) w =
    (Panic "assignment to entry in nil map", World e2 (job w) (logged w)).
Proof.
  intros Hcreate Halready Hget Hnil Hnew Hsome.
  cbn [createSecrets]. rewrite bind_inEnv, Hcreate. cbn [fst snd]. rewrite Halready.
  rewrite bind_inEnv. cbn [env job logged]. rewrite Hget. cbn [fst snd].
  unfold bind at 1, mergeData. rewrite Hnew, Hnil.
  now rewrite bool_decide_eq_false_2 by exact Hsome.
Qed.

(** X20.  [createNamespaceCleanupPod] can be run again: on a cluster that
    answers the creation of the service account, of the role binding and of
    the pod with no error or with [AlreadyExists], and with both clients at
    hand, it returns no error and logs its one line. *)
Theorem createNamespaceCleanupPod_again (o : options) (w : world Env) :
  coreclientset_NewForConfig (clusterConfig o) = None ->
  rbacclientset_NewForConfig (clusterConfig o) = None ->
  (forall ns name e,
     let err := fst (ServiceAccounts_Create ns name e) in
     err = None \/ IsAlreadyExists err = true) ->
  (forall ns name e,
     let err := fst (RoleBindings_Create ns name e) in
     err = None \/ IsAlreadyExists err = true) ->
  (forall ns pod e,
     let err := fst (Pods_Create ns pod e) in
     err = None \/ IsAlreadyExists err = true) ->
  exists e',
    createNamespaceCleanupPod o w =
      (Ok tt,
       World e' (job w)
         (logged w ++ ["Namespace will be deleted after " +:+
                       DurationString (idleCleanupDuration o) +:+ " of idle time"])).
Proof.
  intros Hcore Hrbac Haccount Hbinding Hpod.
  assert (Hunless : forall (err : option error) (what : string) (w1 : world Env),
            err = None \/ IsAlreadyExists err = true ->
            unlessAlreadyExists err what w1 = (Ok tt, w1)).
  { intros err what w1 [-> | Halready]; [reflexivity|].
    unfold unlessAlreadyExists. rewrite Halready. now destruct err. }
  unfold createNamespaceCleanupPod. unfold bind at 1, logf. rewrite Hcore, Hrbac.
  rewrite bind_inEnv. unfold bind at 1. rewrite Hunless by apply Haccount.
  rewrite bind_inEnv. unfold bind at 1. rewrite Hunless by apply Hbinding.
  rewrite bind_inEnv. unfold bind at 1. rewrite Hunless by apply Hpod.
  cbn. eauto.
Qed.
End ProjectLoopOutcomes.

(** ** Names and descriptions *)

Lemma prefix_app (p s : string) : String.prefix p (p +:+ s) = true.
Proof.
  induction p as [|c p IH]; string_app; [apply prefix_empty|].
  cbn. destruct (ascii_dec c c) as [_|Hne]; [exact IH | now destruct Hne].
Qed.

Lemma prefix_cancel (a p s : string) :
  String.prefix p s = true -> String.prefix (a +:+ p) (a +:+ s) = true.
Proof.
  intros Hp. induction a as [|c a IH]; string_app; [exact Hp|].
  cbn. destruct (ascii_dec c c) as [_|Hne]; [exact IH | now destruct Hne].
Qed.

(** X21.  [nodeNames] gives every node a name, in the order of the nodes,
    and no name is empty: a step that has a name is shown by it, and a step
    without a name by its type between angle brackets. *)
Theorem nodeNames_named `{StepAPI} (nodes : list StepNode) :
  length (nodeNames nodes) = length nodes /\
  Forall (fun name => name <> EmptyString) (nodeNames nodes) /\
  (forall i node,
     nodes !! i = Some node -> Name (nodeStep node) <> EmptyString ->
     nodeNames nodes !! i = Some (Name (nodeStep node))) /\
  (forall i node,
     nodes !! i = Some node -> Name (nodeStep node) = EmptyString ->
     nodeNames nodes !! i = Some ("<" +:+ TypeName (nodeStep node) +:+ ">")).
Proof.
  unfold nodeNames. split; [apply length_map|]. split; [|split].
  - apply Forall_forall. intros name Hname.
    apply list_elem_of_fmap in Hname as (node & -> & _).
    destruct (Name (nodeStep node)) as [|c name] eqn:Hn; cbn [String.length Nat.eqb].
    + string_app. discriminate.
    + discriminate.
  - intros i node Hi Hname.
    change (map ?f nodes) with (f <$> nodes). rewrite list_lookup_fmap, Hi. cbn.
    destruct (Name (nodeStep node)) as [|c name]; [now destruct Hname | reflexivity].
  - intros i node Hi Hname.
    change (map ?f nodes) with (f <$> nodes). rewrite list_lookup_fmap, Hi. cbn.
    now rewrite Hname.
Qed.

(** X22.  A description made by [jobDescription] begins with the name of
    the job and the address of its repository, with or without pull requests,
    and nothing of it comes from the configuration. *)
Theorem jobDescription_begins `{Types} (job : JobSpec) (config config' : Config) :
  String.prefix
    (Job job +:+ " on https://github.com/" +:+ Org (JobRefs job) +:+ "/" +:+
     Repo (JobRefs job))
    (jobDescription job config) = true /\
  jobDescription job config = jobDescription job config'.
Proof.
  split; [|reflexivity]. unfold jobDescription. cbn zeta.
  destruct (0 <? length _)%nat; do 4 apply prefix_cancel; apply prefix_app.
Qed.

(** ** The identifier and the digest *)

Lemma byteValues_In (b : Z) : isByte b -> In b byteValues.
Proof.
  intros Hb. unfold byteValues. rewrite <- (Z2Nat.id b) by (unfold isByte in Hb; lia).
  apply in_map, in_seq. unfold isByte in Hb. lia.
Qed.

Lemma byte_check_eq (f g : Z -> Z) :
  forallb (fun b => Z.eqb (f b) (g b)) byteValues = true ->
  forall b, isByte b -> f b = g b.
Proof.
  intros Hall b Hb. apply Z.eqb_eq.
  exact (proj1 (forallb_forall _ _) Hall b (byteValues_In b Hb)).
Qed.

(** An equation in one byte, by its 256 cases. *)
Ltac bytewise :=
  match goal with
  | Hb : isByte ?b |- _ =>
      revert b Hb;
      match goal with
      | |- forall b, isByte b -> @?f b = @?g b =>
          apply (byte_check_eq f g); vm_compute; reflexivity
      end
  end.

Lemma pack_unpack (b0 b1 b2 b3 b4 : Z) :
  isByte b0 -> isByte b1 -> isByte b2 -> isByte b3 -> isByte b4 ->
  pack (Base32.unpack [b0; b1; b2; b3; b4]) = [b0; b1; b2; b3; b4].
Proof.
  intros H0 H1 H2 H3 H4. unfold pack, Base32.unpack. cbn [nth].
  rewrite !Z.shiftl_lor, !Z.land_lor_distr_l, !Z.shiftr_lor.
  assert (Z1 : Z.shiftr (Z.land (Z.shiftr b1 6) 31) 2 = 0%Z) by (clear - H1; bytewise).
  assert (Z0 : Z.land (Z.shiftl (Z.land (Base32.shl8 b0 2) 31) 6) 255 = 0%Z)
    by (clear - H0; bytewise).
  assert (Z2 : Z.shiftr (Z.land (Z.shiftr b2 4) 31) 4 = 0%Z) by (clear - H2; bytewise).
  assert (Z1' : Z.land (Z.shiftl (Z.land (Base32.shl8 b1 4) 31) 4) 255 = 0%Z)
    by (clear - H1; bytewise).
  assert (Z3 : Z.shiftr (Z.shiftr b3 7) 1 = 0%Z) by (clear - H3; bytewise).
  assert (Z2' : Z.land (Z.shiftl (Z.land (Base32.shl8 b2 1) 31) 7) 255 = 0%Z)
    by (clear - H2; bytewise).
  assert (Z4 : Z.shiftr (Z.shiftr b4 5) 3 = 0%Z) by (clear - H4; bytewise).
  assert (Z3' : Z.land (Z.shiftl (Z.land (Base32.shl8 b3 3) 31) 5) 255 = 0%Z)
    by (clear - H3; bytewise).
  rewrite Z1, Z0, Z2, Z1', Z3, Z2', Z4, Z3'.
  f_equal; [clear - H0; bytewise|].
  f_equal; [clear - H1; bytewise|].
  f_equal; [clear - H2; bytewise|].
  f_equal; [clear - H3; bytewise|].
  f_equal. clear - H4. bytewise.
Qed.

Lemma unpack_groups (b0 b1 b2 b3 b4 : Z) :
  isByte b0 -> isByte b1 -> isByte b2 -> isByte b3 -> isByte b4 ->
  map (fun g => Z.land g 31) (Base32.unpack [b0; b1; b2; b3; b4]) =
  Base32.unpack [b0; b1; b2; b3; b4].
Proof.
  intros H0 H1 H2 H3 H4. unfold Base32.unpack. cbn [nth map].
  rewrite !Z.land_lor_distr_l.
  assert (L0 : Z.land (Z.shiftr b0 3) 31 = Z.shiftr b0 3) by (clear - H0; bytewise).
  assert (L3 : Z.land (Z.shiftr b3 7) 31 = Z.shiftr b3 7) by (clear - H3; bytewise).
  assert (L4 : Z.land (Z.shiftr b4 5) 31 = Z.shiftr b4 5) by (clear - H4; bytewise).
  assert (Lland : forall x, Z.land (Z.land x 31) 31 = Z.land x 31).
  { intros x. rewrite <- Z.land_assoc. reflexivity. }
  now rewrite L0, L3, L4, !Lland.
Qed.

Lemma indexOf_encodeChar (b : Z) :
  indexOf (Base32.encodeChar oneWayNameEncoding b) alphabet = Z.land b 31.
Proof.
  unfold Base32.encodeChar.
  assert (Hrange : (0 <= Z.land b 31 < 32)%Z).
  { change 31%Z with (Z.ones 5). rewrite Z.land_ones by lia.
    change (2 ^ 5)%Z with 32%Z. apply Z.mod_pos_bound. lia. }
  assert (Hall : forallb (fun j => Z.eqb (indexOf (nth j alphabet "000"%char) alphabet)
                                         (Z.of_nat j)) (seq 0 32) = true)
    by (vm_compute; reflexivity).
  rewrite <- (Z2Nat.id (Z.land b 31)) at 2 by lia.
  apply Z.eqb_eq.
  apply (proj1 (forallb_forall _ _) Hall (Z.to_nat (Z.land b 31))).
  apply in_seq. lia.
Qed.

Lemma pack_decode (b0 b1 b2 b3 b4 : Z) :
  isByte b0 -> isByte b1 -> isByte b2 -> isByte b3 -> isByte b4 ->
  pack (decodeGroups (Base32.EncodeToString oneWayNameEncoding [b0; b1; b2; b3; b4])) =
  [b0; b1; b2; b3; b4].
Proof.
  intros H0 H1 H2 H3 H4. rewrite EncodeToString_quantum. unfold decodeGroups.
  rewrite list_ascii_of_string_of_list_ascii, map_map.
  rewrite (map_ext _ (fun g => Z.land g 31)) by (intros g; apply indexOf_encodeChar).
  rewrite unpack_groups by assumption. now apply pack_unpack.
Qed.

Lemma be_bytes_isByte (n : nat) (x : Z) : List.Forall isByte (Sha256.be_bytes n x).
Proof.
  induction n as [|n IH]; cbn [Sha256.be_bytes]; constructor; [|exact IH].
  unfold isByte. change 255%Z with (Z.ones 8). rewrite Z.land_ones by lia.
  change (2 ^ 8)%Z with 256%Z. apply Z.mod_pos_bound. lia.
Qed.

Lemma Sum_isByte (d : Sha256.digest) : List.Forall isByte (Sha256.Sum d).
Proof.
  unfold Sha256.Sum. destruct (Sha256.blocks _ _ _).
  repeat (apply Forall_app; split); apply be_bytes_isByte.
Qed.

(** X23.  The identifier loses nothing of the five bytes that it is made
    of: two lists of inputs have the same [inputHash] exactly when the
    digests of their bytes agree on their first five bytes. *)
Theorem inputHash_identifies_digest (inputs inputs' : InputDefinition) :
  inputHash inputs = inputHash inputs' <->
  firstn 5 (Sha256.Sum (writeInputs Sha256.New inputs)) =
  firstn 5 (Sha256.Sum (writeInputs Sha256.New inputs')).
Proof.
  unfold inputHash. cbn zeta. split; [|now intros ->].
  intros Hsame.
  pose proof (Forall_take _ 5 _ (Sum_isByte (writeInputs Sha256.New inputs))) as Hbytes.
  pose proof (Forall_take _ 5 _ (Sum_isByte (writeInputs Sha256.New inputs'))) as Hbytes'.
  destruct (firstn_5_of_32 _ (Sum_length (writeInputs Sha256.New inputs)))
    as (b0 & b1 & b2 & b3 & b4 & Hfirst).
  destruct (firstn_5_of_32 _ (Sum_length (writeInputs Sha256.New inputs')))
    as (c0 & c1 & c2 & c3 & c4 & Hfirst').
  rewrite Hfirst in Hsame, Hbytes |- *. rewrite Hfirst' in Hsame, Hbytes' |- *.
  apply (f_equal (fun s => pack (decodeGroups s))) in Hsame.
  repeat match goal with
  | Hb : List.Forall isByte (_ :: _) |- _ => apply List.Forall_cons_iff in Hb as [? Hb]
  end.
  now rewrite !pack_decode in Hsame by assumption.
Qed.

(** ** Flags that may be given more than once *)

Lemma Split_Join (c : ascii) (rest : list string) :
  forall (x piece : string),
    List.Forall (fun v => countByte c v = 0) (x :: rest) ->
    splitFrom 0 (Join (x :: rest) (String c EmptyString)) (String c EmptyString) piece =
    (piece +:+ x) :: rest.
Proof.
  induction rest as [|y rest IH]; intros x piece Hall;
    apply List.Forall_cons_iff in Hall as [Hx Hall].
  - cbn [Join]. now apply splitFrom_whole.
  - change (Join (x :: y :: rest) (String c EmptyString))
      with (x +:+ String c (Join (y :: rest) (String c EmptyString))).
    rewrite splitFrom_first by exact Hx. f_equal.
    now rewrite (IH y EmptyString Hall).
Qed.

Lemma stringSlice_Set_all (given : list string) (s : stringSlice) :
  values (fold_left (fun s value => fst (stringSlice_Set s value)) given s) =
  values s ++ given.
Proof.
  revert s. induction given as [|value given IH]; intros s; cbn [fold_left].
  - now rewrite app_nil_r.
  - rewrite IH. cbn. now rewrite <- app_assoc.
Qed.

(** X24.  A flag that may be given more than once keeps its values in the
    order in which they were set, [Set] after [Set], [Set] never fails, and
    what [String] makes of them can be taken apart again at the separator,
    as long as there is a value and no value holds the separator. *)
Theorem stringSlice_round_trip (Separator : ascii) (given : list string) :
  given <> [] ->
  Forall (fun value => countByte Separator value = 0) given ->
  let s := fold_left (fun s value => fst (stringSlice_Set s value)) given (mkStringSlice []) in
  values s = given /\
  (forall s' value, snd (stringSlice_Set s' value) = None) /\
  Split (stringSlice_String Separator s) (String Separator EmptyString) = given.
Proof.
  intros Hsome Hplain s.
  assert (Hvalues : values s = given) by (subst s; now rewrite stringSlice_Set_all).
  split; [exact Hvalues|]. split; [reflexivity|].
  unfold stringSlice_String, Split. rewrite Hvalues.
  destruct given as [|x rest]; [now destruct Hsome|].
  now rewrite Split_Join.
Qed.

(** ** The properties above, on the examples *)

Import Cases.

Lemma topologicalSort_sound_witness :
  topologicalSort diamond world0 = (Ok diamondSorted, world0) /\
  linearization diamondSorted /\
  NoDup (map nodeStep diamondSorted) /\
  (forall n, n ∈ diamondSorted -> n ∈ graphNodes diamond) /\
  world0 = world0.
Proof.
  assert (Hsort : topologicalSort diamond world0 = (Ok diamondSorted, world0))
    by (vm_compute; reflexivity).
  split; [exact Hsort|].
  exact (@topologicalSort_sound types stepAPI diamond diamondSorted world0 world0 Hsort).
Defined.

Lemma topologicalSort_complete_witness :
  oneNodePerStep diamond /\
  topologicalSort diamond world0 = (Ok diamondSorted, world0) /\
  forall n, n ∈ graphNodes diamond -> n ∈ diamondSorted.
Proof.
  assert (Hone : oneNodePerStep diamond)
    by (apply oneNodePerStepb_sound; vm_compute; reflexivity).
  assert (Hsort : topologicalSort diamond world0 = (Ok diamondSorted, world0))
    by (vm_compute; reflexivity).
  split; [exact Hone|]. split; [exact Hsort|].
  exact (@topologicalSort_complete types stepAPI diamond diamondSorted world0 world0
           Hone Hsort).
Defined.

Lemma topologicalSort_detects_unproducible_witness :
  oneNodePerStep waitingPair /\
  (exists n, n ∈ graphNodes waitingPair /\ True) /\
  exists w', topologicalSort waitingPair world0 =
               (Err (Errorf "steps are missing dependencies"), w').
Proof.
  assert (Hone : oneNodePerStep waitingPair)
    by (apply oneNodePerStepb_sound; vm_compute; reflexivity).
  assert (Hsome : exists n, n ∈ graphNodes waitingPair /\ True).
  { exists (@mkStepNode types ping [@mkStepNode types pong []]).
    split; [|exact I]. apply list_elem_of_here. }
  assert (Hall : List.Forall
            (fun n => exists link : string, link ∈ Requires (nodeStep n) /\
               forall m, m ∈ graphNodes waitingPair -> link ∈ Creates (nodeStep m) -> True)
            (graphNodes waitingPair)).
  { apply List.Forall_cons; [exists "pong"; split; [apply list_elem_of_here | trivial]|].
    apply List.Forall_cons; [exists "ping"; split; [apply list_elem_of_here | trivial]|].
    apply List.Forall_nil. }
  split; [exact Hone|]. split; [exact Hsome|].
  exact (@topologicalSort_detects_unproducible types stepAPI waitingPair (fun _ => True)
           world0 Hone Hsome
           (fun n Hn _ => proj1 (Forall_forall _ _) Hall n Hn)).
Defined.

Lemma resolveInputs_stops_at_failure_witness :
  @eachInputs types failing [src] true world0 = (Ok [["commit 4f2a91"]], world0) /\
  @Inputs types failing build true world0 = (Err (Errorf "no base image"), world0) /\
  @resolveInputs types failing platform (opts true) ([src] ++ build :: [test; lint]) world0 =
    (Err (Errorf "no base image"), world0).
Proof.
  split; [reflexivity|]. split; [reflexivity|].
  exact (@resolveInputs_stops_at_failure types failing platform (opts true) [src] [test; lint]
           build world0 world0 world0 [["commit 4f2a91"]] (Errorf "no base image")
           eq_refl eq_refl).
Defined.

Lemma resolveInputs_namespace_resolved_witness :
  resolveInputs optsTemplate config world0 = (Ok resolvedOptions, resolvedWorld) /\
  namespace resolvedOptions <> EmptyString /\
  Contains (namespace resolvedOptions) "{id}" = false /\
  job_namespace (job resolvedWorld) = namespace resolvedOptions.
Proof.
  assert (Hres : resolveInputs optsTemplate config world0 = (Ok resolvedOptions, resolvedWorld))
    by (vm_compute; reflexivity).
  split; [exact Hres|].
  exact (@resolveInputs_namespace_resolved types stepAPI platform optsTemplate resolvedOptions
           config world0 resolvedWorld Hres).
Defined.

Lemma default_namespace_is_label_witness :
  namespace (opts true) = EmptyString /\
  resolveInputs (opts true) config world0 = (Ok defaultOptions, defaultWorld) /\
  String.length (namespace defaultOptions) = 14%nat /\
  Forall (fun c => lowerOrDigit c = true \/ c = "-"%char)
         (list_ascii_of_string (namespace defaultOptions)) /\
  String.prefix "ci-op-" (namespace defaultOptions) = true /\
  String.substring 6 8 (namespace defaultOptions) = opt_inputHash defaultOptions /\
  Forall (fun c => lowerOrDigit c = true) (list_ascii_of_string (opt_inputHash defaultOptions)).
Proof.
  assert (Hres : resolveInputs (opts true) config world0 = (Ok defaultOptions, defaultWorld))
    by (vm_compute; reflexivity).
  split; [reflexivity|]. split; [exact Hres|].
  exact (@default_namespace_is_label types stepAPI platform (opts true) defaultOptions
           config world0 defaultWorld eq_refl Hres).
Defined.

Lemma runPostSteps_stops_at_failure_witness :
  @runPostSteps types failing [src] false world0 = (Ok tt, World ["run src"] job0 []) /\
  @StepRun types failing build false (World ["run src"] job0 []) =
    (Err (Errorf "build failed"), World ["run src"] job0 []) /\
  @runPostSteps types failing ([src] ++ build :: [test]) false world0 =
    (Err (Errorf "build failed"), World ["run src"] job0 []).
Proof.
  split; [reflexivity|]. split; [reflexivity|].
  exact (@runPostSteps_stops_at_failure types failing [src] [test] build false world0
           (World ["run src"] job0 []) (World ["run src"] job0 [])
           (Errorf "build failed") eq_refl eq_refl).
Defined.

Lemma runSteps_unsortable_stops_witness :
  resolveInputs knotOptions knot world0 = (Ok knotResolved, knotWorld) /\
  BuildPartialGraph knot (targets knotResolved) knotWorld = (Ok knotNodes, knotWorld) /\
  sortOf knotNodes = Missing knotWaiting knotSatisfied /\
  exists lines,
    runSteps 6 knotOptions knot [lint] world0 =
      (Err (Errorf "steps are missing dependencies"),
       World (env knotWorld) (job knotWorld) (logged knotWorld ++ lines)).
Proof.
  assert (Hres : resolveInputs knotOptions knot world0 = (Ok knotResolved, knotWorld))
    by (vm_compute; reflexivity).
  assert (Hgraph : BuildPartialGraph knot (targets knotResolved) knotWorld =
                   (Ok knotNodes, knotWorld))
    by (vm_compute; reflexivity).
  assert (Hsort : sortOf knotNodes = Missing knotWaiting knotSatisfied)
    by (vm_compute; reflexivity).
  split; [exact Hres|]. split; [exact Hgraph|]. split; [exact Hsort|].
  exact (@runSteps_unsortable_stops types stepAPI platform 6 knotOptions knotResolved knot
           [lint] world0 knotWorld knotWorld knotNodes knotWaiting knotSatisfied
           Hres Hgraph Hsort).
Defined.

Lemma shorten_prefix_witness :
  (0 <= 7)%Z /\
  exists short,
    shorten "4f2a91c07d5e" 7 = Ok short /\
    String.prefix short "4f2a91c07d5e" = true /\
    (shaRegex_MatchString "4f2a91c07d5e" = false -> short = "4f2a91c07d5e") /\
    (shaRegex_MatchString "4f2a91c07d5e" = true ->
     String.length short = Nat.min (String.length "4f2a91c07d5e") (Z.to_nat 7) /\
     (short <> EmptyString -> shaRegex_MatchString short = true)).
Proof.
  split; [lia|]. exact (shorten_prefix "4f2a91c07d5e" 7 ltac:(lia)).
Defined.

Lemma shorten_idempotent_witness :
  shorten "4f2a91c07d5e" 7 = Ok "4f2a91c" /\ shorten "4f2a91c" 7 = Ok "4f2a91c".
Proof.
  split; [reflexivity|]. exact (shorten_idempotent "4f2a91c07d5e" "4f2a91c" 7 eq_refl).
Defined.

Lemma jobSpecFromGitRef_parses_witness :
  countByte "/" "openshift" = 0 /\ countByte "@" "openshift" = 0 /\
  countByte "/" "origin" = 0 /\ countByte "@" "origin" = 0 /\
  countByte "@" "master" = 0 /\
  exists spec w',
    jobSpecFromGitRef "openshift/origin@master" world0 = (Ok (PeriodicJob, spec), w') /\
    Org (JobRefs spec) = "openshift" /\ Repo (JobRefs spec) = "origin".
Proof.
  repeat (split; [reflexivity|]).
  destruct (@jobSpecFromGitRef_parses types git "openshift" "origin" "master" world0
              eq_refl eq_refl eq_refl eq_refl eq_refl)
    as (spec & w' & Hrun & _ & _ & _ & Horg & Hrepo & _).
  exists spec, w'. split; [exact Hrun|]. split; [exact Horg | exact Hrepo].
Defined.

Lemma initializeNamespace_forbidden_gives_up_witness :
  dry (opts false) = false /\
  @versioned_NewForConfig types patientCluster (clusterConfig (opts false)) = None /\
  fst (@initializeNamespace types patientCluster 5 (opts false) world0) = Spin /\
  @initializeNamespace types patientCluster 6 (opts false) world0 =
    (Err (Errorf "cannot retrieve test namespace: forbidden"), patientWorld) /\
  count_occ string_dec (env patientWorld) "create project" = 6 /\
  count_occ string_dec (env patientWorld) "get project" = 6 /\
  count_occ string_dec (env patientWorld) "sleep" = 5 /\
  snd (fst (@Projects_Get types patientCluster EmptyString (env patientWorld))) = None.
Proof.
  assert (Hrefuses : forall k, k <= 5 ->
    IsAlreadyExists
      (snd (fst (@ProjectRequests_Create types patientCluster
                   (@projectRequest types (opts false) (job world0))
                   (Nat.iter k (@retried types patientCluster (opts false) (job world0))
                             (env world0))))) = true /\
    IsForbidden
      (snd (fst (@Projects_Get types patientCluster (namespace (opts false))
                   (@asked types patientCluster (opts false) (job world0)
                      (Nat.iter k (@retried types patientCluster (opts false) (job world0))
                                (env world0)))))) = true).
  { intros k Hk.
    do 6 (destruct k as [|k]; [split; vm_compute; reflexivity|]). lia. }
  pose proof (@initializeNamespace_forbidden_gives_up types patientCluster (opts false))
    as Hgives.
  split; [reflexivity|]. split; [reflexivity|].
  split; [exact (proj1 (Hgives 5 world0 eq_refl eq_refl Hrefuses) ltac:(lia))|].
  split.
  - rewrite (proj2 (Hgives 6 world0 eq_refl eq_refl Hrefuses) ltac:(lia)).
    vm_compute. reflexivity.
  - repeat split; vm_compute; reflexivity.
Defined.

Lemma initializeNamespace_not_found_never_returns_witness :
  dry (opts false) = false /\
  @versioned_NewForConfig types notFoundCluster (clusterConfig (opts false)) = None /\
  fst (@initializeNamespace types notFoundCluster 1000 (opts false) world0) = Spin /\
  job (snd (@initializeNamespace types notFoundCluster 1000 (opts false) world0)) =
    job world0 /\
  logged (snd (@initializeNamespace types notFoundCluster 1000 (opts false) world0)) =
    logged world0 ++ ["Creating namespace " +:+ namespace (opts false)].
Proof.
  split; [reflexivity|]. split; [reflexivity|].
  exact (@initializeNamespace_not_found_never_returns types notFoundCluster (opts false)
           (fun _ => True) 1000 world0
           (fun _ _ _ => conj eq_refl I) (fun _ _ _ => conj eq_refl I)
           eq_refl eq_refl I).
Defined.

Lemma initializeNamespace_waits_for_termination_witness :
  dry (opts false) = false /\
  @versioned_NewForConfig types terminatingCluster (clusterConfig (opts false)) = None /\
  fst (@initializeNamespace types terminatingCluster 3 (opts false) world0) = Spin /\
  job (snd (@initializeNamespace types terminatingCluster 3 (opts false) world0)) =
    job world0 /\
  logged (snd (@initializeNamespace types terminatingCluster 3 (opts false) world0)) =
    logged world0 ++
    ("Creating namespace " +:+ namespace (opts false)) ::
    repeat "Waiting for namespace to finish terminating before creating another" 3.
Proof.
  split; [reflexivity|]. split; [reflexivity|].
  exact (@initializeNamespace_waits_for_termination types terminatingCluster (opts false)
           (fun _ => True) 3 world0
           (fun _ _ _ => I) (fun _ _ _ => conj eq_refl (conj eq_refl I))
           eq_refl eq_refl I).
Defined.

Lemma createSecrets_logs_witness :
  @createSecrets types (secretCluster (Some {[ "old" := [1%Z] ]})) (opts false)
     [pullSecret; registrySecret] world0 = (Ok tt, secretsWorld) /\
  logged secretsWorld = ["Updated secret pull-secret"; "Created secret registry"] /\
  job secretsWorld = job world0 /\
  exists lines,
    logged secretsWorld = logged world0 ++ lines /\
    Forall2 (fun secret line =>
               line = "Created secret " +:+ SecretName secret \/
               line = "Updated secret " +:+ SecretName secret)
            [pullSecret; registrySecret] lines.
Proof.
  assert (Hrun : @createSecrets types (secretCluster (Some {[ "old" := [1%Z] ]})) (opts false)
                   [pullSecret; registrySecret] world0 = (Ok tt, secretsWorld))
    by (vm_compute; reflexivity).
  split; [exact Hrun|]. split; [reflexivity|].
  exact (@createSecrets_logs types (secretCluster (Some {[ "old" := [1%Z] ]})) (opts false)
           [pullSecret; registrySecret] world0 secretsWorld Hrun).
Defined.

Lemma createSecrets_nil_map_panics_witness :
  @Secrets_Create types (secretCluster None) (namespace (opts false)) pullSecret (env world0) =
    (Some (Error (Some StatusReasonAlreadyExists) "secret exists"),
     ["create secret pull-secret"]) /\
  Data (mkSecret "pull-secret" None) = None /\
  Data pullSecret = Some {[ "token" := [7%Z] ]} /\
  @createSecrets types (secretCluster None) (opts false) (pullSecret :: [registrySecret])
     world0 =
    (Panic "assignment to entry in nil map",
     World ["create secret pull-secret"; "get secret pull-secret"] (job world0)
           (logged world0)).
Proof.
  split; [reflexivity|]. split; [reflexivity|]. split; [reflexivity|].
  exact (@createSecrets_nil_map_panics types (secretCluster None) (opts false) pullSecret
           (mkSecret "pull-secret" None) [registrySecret] world0
           (Some (Error (Some StatusReasonAlreadyExists) "secret exists"))
           ["create secret pull-secret"]
           ["create secret pull-secret"; "get secret pull-secret"]
           {[ "token" := [7%Z] ]}
           eq_refl eq_refl eq_refl eq_refl eq_refl
           ltac:(apply insert_non_empty)).
Defined.

Lemma createNamespaceCleanupPod_again_witness :
  coreclientset_NewForConfig (clusterConfig (opts false)) = None /\
  rbacclientset_NewForConfig (clusterConfig (opts false)) = None /\
  exists e',
    createNamespaceCleanupPod (opts false) world0 =
      (Ok tt,
       World e' (job world0)
         (logged world0 ++ ["Namespace will be deleted after " +:+
                            DurationString (idleCleanupDuration (opts false)) +:+
                            " of idle time"])).
Proof.
  split; [reflexivity|]. split; [reflexivity|].
  exact (@createNamespaceCleanupPod_again types platform (opts false) world0 eq_refl eq_refl
           (fun _ _ _ => or_introl eq_refl) (fun _ _ _ => or_introl eq_refl)
           (fun _ _ _ => or_introl eq_refl)).
Defined.

Lemma stringSlice_round_trip_witness :
  ["unit"; "e2e"] <> [] /\
  Forall (fun value => countByte "/" value = 0) ["unit"; "e2e"] /\
  Split (stringSlice_String "/"
           (fold_left (fun s value => fst (stringSlice_Set s value)) ["unit"; "e2e"]
                      (mkStringSlice [])))
        "/" = ["unit"; "e2e"].
Proof.
  assert (Hplain : Forall (fun value => countByte "/" value = 0) ["unit"; "e2e"])
    by (repeat (apply List.Forall_cons; [reflexivity|]); apply List.Forall_nil).
  split; [discriminate|]. split; [exact Hplain|].
  exact (proj2 (proj2 (stringSlice_round_trip "/" ["unit"; "e2e"]
                         ltac:(discriminate) Hplain))).
Defined.
